(** * OrgSend: field-level encryption subsystem

    A shallow embedding of [src/lib/encryption] (crypto.ts, hash.ts, keys.ts,
    mock.ts, client-extension.ts, types.ts) together with the platform
    primitives those files call (UTF-8 and base64 transcoding of Node's
    [Buffer], [TextEncoder]/[TextDecoder], SHA-256, [String.prototype.trim]
    and [toLowerCase]).

    Conventions
    - a JavaScript string is the list of its UTF-16 code units, each a [Z];
    - a [Buffer]/[Uint8Array] is a list of bytes, each a [Z] in [0, 256);
      a store into a [Uint8Array] keeps the low eight bits;
    - a record handed to or returned by the ORM is a finite map from
      property names to JavaScript values;
    - a function that can throw returns a [result]. *)

From Stdlib Require Import ZArith List Lia Bool String Ascii.
From stdpp Require Import gmap strings list pretty.

Local Open Scope Z_scope.

(** ** JavaScript values, exceptions and results *)

Abbreviation jsstring := (list Z) (only parsing).
Abbreviation bytes := (list Z) (only parsing).

(** Code units of an ASCII literal. *)
Definition js (s : string) : jsstring :=
  map (fun a => Z.of_nat (nat_of_ascii a)) (list_ascii_of_string s).

Inductive jsval : Type :=
  | VUndefined
  | VNull
  | VBool (b : bool)
  | VNum (n : Z)
  | VStr (s : jsstring).

(** [!v] is false exactly on the truthy values. *)
Definition truthy (v : jsval) : bool :=
  match v with
  | VUndefined | VNull => false
  | VBool b => b
  | VNum n => negb (n =? 0)
  | VStr s => match s with [] => false | _ :: _ => true end
  end.

(** The error classes of types.ts, the built-in [Error] and [TypeError]. *)
Inductive exn : Type :=
  | EncryptionError (message : string)
  | DecryptionError (message : string)
  | KeyRetrievalError (message : string)
  | JsError (message : string)
  | TypeError (message : string).

Inductive result (A : Type) : Type :=
  | Return (a : A)
  | Throw (e : exn).
Arguments Return {A} a.
Arguments Throw {A} e.

Definition bind {A B} (r : result A) (k : A -> result B) : result B :=
  match r with
  | Return a => k a
  | Throw e => Throw e
  end.

Notation "x <- r ;;; k" := (bind r (fun x => k))
  (at level 100, r at next level, right associativity).

Fixpoint map_result {A B} (f : A -> result B) (l : list A) : result (list B) :=
  match l with
  | [] => Return []
  | a :: l' => b <- f a ;;; bs <- map_result f l' ;;; Return (b :: bs)
  end.

Definition is_return {A} (r : result A) : bool :=
  match r with Return _ => true | Throw _ => false end.

(** ** UTF-16 and UTF-8 *)

Definition is_high_surrogate (c : Z) : bool := (0xD800 <=? c) && (c <=? 0xDBFF).
Definition is_low_surrogate (c : Z) : bool := (0xDC00 <=? c) && (c <=? 0xDFFF).
Definition is_surrogate (c : Z) : bool := (0xD800 <=? c) && (c <=? 0xDFFF).

Definition pair_code_point (hi lo : Z) : Z :=
  0x10000 + Z.shiftl (hi - 0xD800) 10 + (lo - 0xDC00).

Definition is_code_unit (c : Z) : bool := (0 <=? c) && (c <? 0x10000).

(** A well-formed string: 16-bit code units, every surrogate part of a pair. *)
Fixpoint well_formed (s : jsstring) : bool :=
  match s with
  | [] => true
  | c :: rest =>
      if is_high_surrogate c then
        match rest with
        | d :: rest' => is_low_surrogate d && well_formed rest'
        | [] => false
        end
      else is_code_unit c && negb (is_low_surrogate c) && well_formed rest
  end.

(** StringToCodePoints of ECMA-262: pairs are joined, a lone surrogate is
    kept as a code point of its own. *)
Fixpoint StringToCodePoints (s : jsstring) : list Z :=
  match s with
  | [] => []
  | c :: rest =>
      if is_high_surrogate c then
        match rest with
        | d :: rest' =>
            if is_low_surrogate d then pair_code_point c d :: StringToCodePoints rest'
            else c :: StringToCodePoints rest
        | [] => [c]
        end
      else c :: StringToCodePoints rest
  end.

(** Conversion to scalar values as [TextEncoder] and [Buffer.from(s, "utf8")]
    perform it: a lone surrogate becomes U+FFFD. *)
Definition to_scalar (cp : Z) : Z := if is_surrogate cp then 0xFFFD else cp.

Definition utf16_encode_cp (cp : Z) : jsstring :=
  if cp <? 0x10000 then [cp]
  else [0xD800 + Z.shiftr (cp - 0x10000) 10; 0xDC00 + Z.land (cp - 0x10000) 0x3FF].

Definition CodePointsToString (cps : list Z) : jsstring :=
  flat_map utf16_encode_cp cps.

Definition utf8_encode_cp (cp : Z) : bytes :=
  if cp <=? 0x7F then [cp]
  else if cp <=? 0x7FF then
    [Z.lor 0xC0 (Z.shiftr cp 6); Z.lor 0x80 (Z.land cp 0x3F)]
  else if cp <=? 0xFFFF then
    [Z.lor 0xE0 (Z.shiftr cp 12);
     Z.lor 0x80 (Z.land (Z.shiftr cp 6) 0x3F);
     Z.lor 0x80 (Z.land cp 0x3F)]
  else
    [Z.lor 0xF0 (Z.shiftr cp 18);
     Z.lor 0x80 (Z.land (Z.shiftr cp 12) 0x3F);
     Z.lor 0x80 (Z.land (Z.shiftr cp 6) 0x3F);
     Z.lor 0x80 (Z.land cp 0x3F)].

(** [new TextEncoder().encode(s)], also the bytes of [Buffer.from(s)] and of
    [hash.update(s, "utf8")]. *)
Definition utf8_encode (s : jsstring) : bytes :=
  flat_map (fun cp => utf8_encode_cp (to_scalar cp)) (StringToCodePoints s).

(** The UTF-8 decoder of the WHATWG Encoding standard, in replacement mode. *)
Record utf8_state : Type := {
  u_code_point : Z;
  u_needed : Z;
  u_seen : Z;
  u_lower : Z;
  u_upper : Z
}.

Definition utf8_init : utf8_state :=
  {| u_code_point := 0; u_needed := 0; u_seen := 0; u_lower := 0x80; u_upper := 0xBF |}.

(** A byte met when no continuation byte is expected. *)
Definition utf8_lead (b : Z) : utf8_state * list Z :=
  if (0 <=? b) && (b <=? 0x7F) then (utf8_init, [b])
  else if (0xC2 <=? b) && (b <=? 0xDF) then
    ({| u_code_point := Z.land b 0x1F; u_needed := 1; u_seen := 0;
        u_lower := 0x80; u_upper := 0xBF |}, [])
  else if (0xE0 <=? b) && (b <=? 0xEF) then
    ({| u_code_point := Z.land b 0xF; u_needed := 2; u_seen := 0;
        u_lower := if b =? 0xE0 then 0xA0 else 0x80;
        u_upper := if b =? 0xED then 0x9F else 0xBF |}, [])
  else if (0xF0 <=? b) && (b <=? 0xF4) then
    ({| u_code_point := Z.land b 0x7; u_needed := 3; u_seen := 0;
        u_lower := if b =? 0xF0 then 0x90 else 0x80;
        u_upper := if b =? 0xF4 then 0x8F else 0xBF |}, [])
  else (utf8_init, [0xFFFD]).

Definition utf8_step (st : utf8_state) (b : Z) : utf8_state * list Z :=
  if u_needed st =? 0 then utf8_lead b
  else if (b <? u_lower st) || (u_upper st <? b) then
    (* error; the byte is handed back to the stream and read again *)
    let '(st', out) := utf8_lead b in (st', 0xFFFD :: out)
  else
    let cp := Z.lor (Z.shiftl (u_code_point st) 6) (Z.land b 0x3F) in
    if u_seen st + 1 =? u_needed st then (utf8_init, [cp])
    else ({| u_code_point := cp; u_needed := u_needed st; u_seen := u_seen st + 1;
             u_lower := 0x80; u_upper := 0xBF |}, []).

Fixpoint utf8_run (st : utf8_state) (bs : bytes) : list Z :=
  match bs with
  | [] => if u_needed st =? 0 then [] else [0xFFFD]
  | b :: rest => let '(st', out) := utf8_step st b in out ++ utf8_run st' rest
  end.

Definition utf8_decode_code_points (bs : bytes) : list Z := utf8_run utf8_init bs.

(** [buf.toString("utf8")]: the byte order mark is kept. *)
Definition buffer_toString_utf8 (bs : bytes) : jsstring :=
  CodePointsToString (utf8_decode_code_points bs).

(** [new TextDecoder().decode(bs)]: [ignoreBOM] is false, so a leading
    U+FEFF is removed from the output. *)
Definition strip_bom (cps : list Z) : list Z :=
  match cps with
  | c :: rest => if c =? 0xFEFF then rest else cps
  | [] => []
  end.

Definition TextDecoder_decode (bs : bytes) : jsstring :=
  CodePointsToString (strip_bom (utf8_decode_code_points bs)).

(** ** Base64 as Node's [Buffer] implements it *)

Definition base64_alphabet : jsstring :=
  js "ABCDEFGHIJKLMNOPQRSTUVWXYZabcdefghijklmnopqrstuvwxyz0123456789+/".

Definition base64_char (v : Z) : Z := nth (Z.to_nat v) base64_alphabet 0.

Definition pad_char : Z := 61.

(** The four sextets cut from three octets, and the octets put together
    again from them. *)
Definition sextet1 (a : Z) : Z := Z.shiftr a 2.
Definition sextet2 (a b : Z) : Z := Z.lor (Z.shiftl (Z.land a 3) 4) (Z.shiftr b 4).
Definition sextet3 (b c : Z) : Z := Z.lor (Z.shiftl (Z.land b 15) 2) (Z.shiftr c 6).
Definition sextet4 (c : Z) : Z := Z.land c 63.

Definition octet1 (v1 v2 : Z) : Z :=
  (Z.lor (Z.shiftl (Z.land v1 0x3F) 2) (Z.shiftr (Z.land v2 0x30) 4)) mod 256.
Definition octet2 (v2 v3 : Z) : Z :=
  (Z.lor (Z.shiftl (Z.land v2 0x0F) 4) (Z.shiftr (Z.land v3 0x3C) 2)) mod 256.
Definition octet3 (v3 v4 : Z) : Z :=
  (Z.lor (Z.shiftl (Z.land v3 0x03) 6) (Z.land v4 0x3F)) mod 256.

(** [buf.toString("base64")]. *)
Fixpoint base64_encode (bs : bytes) : jsstring :=
  match bs with
  | [] => []
  | [a] =>
      [base64_char (sextet1 a); base64_char (sextet2 a 0); pad_char; pad_char]
  | [a; b] =>
      [base64_char (sextet1 a); base64_char (sextet2 a b);
       base64_char (sextet3 b 0); pad_char]
  | a :: b :: c :: rest =>
      base64_char (sextet1 a) :: base64_char (sextet2 a b)
      :: base64_char (sextet3 b c) :: base64_char (sextet4 c)
      :: base64_encode rest
  end.

(** The decoder reads of every code unit its low eight bits (the
    narrowing to [uint8_t]), for the table and for the test of ['=']. *)
Definition low_byte (c : Z) : Z := c mod 256.

(** The decoding table: both the standard and the URL-safe alphabet. *)
Definition unbase64 (c : Z) : option Z :=
  let b := low_byte c in
  if (65 <=? b) && (b <=? 90) then Some (b - 65)
  else if (97 <=? b) && (b <=? 122) then Some (b - 71)
  else if (48 <=? b) && (b <=? 57) then Some (b + 4)
  else if (b =? 43) || (b =? 45) then Some 62
  else if (b =? 47) || (b =? 95) then Some 63
  else None.

(** Characters outside the table are skipped; decoding stops at ['=']. *)
Fixpoint base64_sextets (s : jsstring) : list Z :=
  match s with
  | [] => []
  | c :: rest =>
      match unbase64 c with
      | Some v => v :: base64_sextets rest
      | None => if low_byte c =? pad_char then [] else base64_sextets rest
      end
  end.

(** A group that is cut short by the end of the input gives the octets
    that are complete. *)
Fixpoint base64_groups (vs : list Z) : bytes :=
  match vs with
  | a :: b :: c :: d :: rest =>
      octet1 a b :: octet2 b c :: octet3 c d :: base64_groups rest
  | [a; b; c] => [octet1 a b; octet2 b c]
  | [a; b] => [octet1 a b]
  | _ => []
  end.

(** [Buffer.from(s, "base64")]. *)
Definition base64_decode (s : jsstring) : bytes :=
  base64_groups (base64_sextets s).

(** ** SHA-256 ([createHash("sha256")]) and hexadecimal digests *)

Definition w32 (x : Z) : Z := x mod 0x100000000.

Definition rotr (n x : Z) : Z := Z.lor (Z.shiftr x n) (w32 (Z.shiftl x (32 - n))).

Definition sha_ch (x y z : Z) : Z :=
  Z.lxor (Z.land x y) (Z.land (Z.lxor x 0xFFFFFFFF) z).
Definition sha_maj (x y z : Z) : Z :=
  Z.lxor (Z.lxor (Z.land x y) (Z.land x z)) (Z.land y z).
Definition big_sigma0 (x : Z) : Z := Z.lxor (Z.lxor (rotr 2 x) (rotr 13 x)) (rotr 22 x).
Definition big_sigma1 (x : Z) : Z := Z.lxor (Z.lxor (rotr 6 x) (rotr 11 x)) (rotr 25 x).
Definition small_sigma0 (x : Z) : Z := Z.lxor (Z.lxor (rotr 7 x) (rotr 18 x)) (Z.shiftr x 3).
Definition small_sigma1 (x : Z) : Z := Z.lxor (Z.lxor (rotr 17 x) (rotr 19 x)) (Z.shiftr x 10).

Definition sha256_K : list Z :=
  [0x428A2F98; 0x71374491; 0xB5C0FBCF; 0xE9B5DBA5; 0x3956C25B; 0x59F111F1; 0x923F82A4; 0xAB1C5ED5;
   0xD807AA98; 0x12835B01; 0x243185BE; 0x550C7DC3; 0x72BE5D74; 0x80DEB1FE; 0x9BDC06A7; 0xC19BF174;
   0xE49B69C1; 0xEFBE4786; 0x0FC19DC6; 0x240CA1CC; 0x2DE92C6F; 0x4A7484AA; 0x5CB0A9DC; 0x76F988DA;
   0x983E5152; 0xA831C66D; 0xB00327C8; 0xBF597FC7; 0xC6E00BF3; 0xD5A79147; 0x06CA6351; 0x14292967;
   0x27B70A85; 0x2E1B2138; 0x4D2C6DFC; 0x53380D13; 0x650A7354; 0x766A0ABB; 0x81C2C92E; 0x92722C85;
   0xA2BFE8A1; 0xA81A664B; 0xC24B8B70; 0xC76C51A3; 0xD192E819; 0xD6990624; 0xF40E3585; 0x106AA070;
   0x19A4C116; 0x1E376C08; 0x2748774C; 0x34B0BCB5; 0x391C0CB3; 0x4ED8AA4A; 0x5B9CCA4F; 0x682E6FF3;
   0x748F82EE; 0x78A5636F; 0x84C87814; 0x8CC70208; 0x90BEFFFA; 0xA4506CEB; 0xBEF9A3F7; 0xC67178F2].

Record sha_state : Type := {
  sha_a : Z; sha_b : Z; sha_c : Z; sha_d : Z;
  sha_e : Z; sha_f : Z; sha_g : Z; sha_h : Z
}.

Definition sha256_H0 : sha_state :=
  {| sha_a := 0x6A09E667; sha_b := 0xBB67AE85; sha_c := 0x3C6EF372; sha_d := 0xA54FF53A;
     sha_e := 0x510E527F; sha_f := 0x9B05688C; sha_g := 0x1F83D9AB; sha_h := 0x5BE0CD19 |}.

Definition sha_round (s : sha_state) (kw : Z * Z) : sha_state :=
  let t1 := w32 (sha_h s + big_sigma1 (sha_e s) + sha_ch (sha_e s) (sha_f s) (sha_g s)
                 + fst kw + snd kw) in
  let t2 := w32 (big_sigma0 (sha_a s) + sha_maj (sha_a s) (sha_b s) (sha_c s)) in
  {| sha_a := w32 (t1 + t2); sha_b := sha_a s; sha_c := sha_b s; sha_d := sha_c s;
     sha_e := w32 (sha_d s + t1); sha_f := sha_e s; sha_g := sha_f s; sha_h := sha_g s |}.

Fixpoint sha_words (bs : bytes) : list Z :=
  match bs with
  | a :: b :: c :: d :: rest =>
      (Z.shiftl a 24 + Z.shiftl b 16 + Z.shiftl c 8 + d) :: sha_words rest
  | _ => []
  end.

Fixpoint sha_schedule (n : nat) (w : list Z) : list Z :=
  match n with
  | O => w
  | S n' =>
      let t := length w in
      let x i := nth (t - i) w 0 in
      sha_schedule n'
        (w ++ [w32 (small_sigma1 (x 2%nat) + x 7%nat + small_sigma0 (x 15%nat) + x 16%nat)])
  end.

Definition sha_compress (h : sha_state) (block : bytes) : sha_state :=
  let w := sha_schedule 48 (sha_words block) in
  let s := fold_left sha_round (combine sha256_K w) h in
  {| sha_a := w32 (sha_a h + sha_a s); sha_b := w32 (sha_b h + sha_b s);
     sha_c := w32 (sha_c h + sha_c s); sha_d := w32 (sha_d h + sha_d s);
     sha_e := w32 (sha_e h + sha_e s); sha_f := w32 (sha_f h + sha_f s);
     sha_g := w32 (sha_g h + sha_g s); sha_h := w32 (sha_h h + sha_h s) |}.

Definition be64 (n : Z) : bytes :=
  map (fun i => Z.shiftr n (8 * i) mod 256) [7; 6; 5; 4; 3; 2; 1; 0].

Definition sha_pad (msg : bytes) : bytes :=
  let len := Z.of_nat (length msg) in
  msg ++ [0x80] ++ repeat 0 (Z.to_nat ((55 - len) mod 64)) ++ be64 (8 * len).

Fixpoint sha_blocks (n : nat) (h : sha_state) (bs : bytes) : sha_state :=
  match n with
  | O => h
  | S n' => sha_blocks n' (sha_compress h (firstn 64 bs)) (skipn 64 bs)
  end.

Definition sha256 (msg : bytes) : sha_state :=
  let padded := sha_pad msg in
  sha_blocks (length padded / 64)%nat sha256_H0 padded.

Definition hex_digit (v : Z) : Z := if v <? 10 then 48 + v else 87 + v.

Definition hex_word (w : Z) : jsstring :=
  map (fun i => hex_digit (Z.land (Z.shiftr w (4 * i)) 15)) [7; 6; 5; 4; 3; 2; 1; 0].

(** [hash.digest("hex")]. *)
Definition sha256_hex (msg : bytes) : jsstring :=
  let s := sha256 msg in
  hex_word (sha_a s) ++ hex_word (sha_b s) ++ hex_word (sha_c s) ++ hex_word (sha_d s)
  ++ hex_word (sha_e s) ++ hex_word (sha_f s) ++ hex_word (sha_g s) ++ hex_word (sha_h s).

Definition is_hex_char (c : Z) : bool :=
  ((48 <=? c) && (c <=? 57)) || ((97 <=? c) && (c <=? 102)) || ((65 <=? c) && (c <=? 70)).

(** ** [String.prototype.trim] and [String.prototype.toLowerCase] *)

(** WhiteSpace and LineTerminator code units of ECMA-262. *)
Definition is_white_space (c : Z) : bool :=
  ((9 <=? c) && (c <=? 13)) || (c =? 0x20) || (c =? 0xA0) || (c =? 0x1680)
  || ((0x2000 <=? c) && (c <=? 0x200A)) || (c =? 0x2028) || (c =? 0x2029)
  || (c =? 0x202F) || (c =? 0x205F) || (c =? 0x3000) || (c =? 0xFEFF).

Fixpoint trimStart (s : jsstring) : jsstring :=
  match s with
  | [] => []
  | c :: rest => if is_white_space c then trimStart rest else s
  end.

Definition trimEnd (s : jsstring) : jsstring := rev (trimStart (rev s)).

Definition trim (s : jsstring) : jsstring := trimEnd (trimStart s).

Definition is_ascii_upper (c : Z) : bool := (65 <=? c) && (c <=? 90).
Definition is_ascii_lower (c : Z) : bool := (97 <=? c) && (c <=? 122).

(** ** types.ts *)

Definition BATCH_LIMITS_ENCRYPTION : nat := 50.
Definition BATCH_LIMITS_DECRYPTION : nat := 25.
Definition BATCH_LIMITS_HASH_GENERATION : nat := 100.

Definition batch_message (size limit : nat) : string :=
  ("Batch size " ++ pretty size ++ " exceeds limit of " ++ pretty limit)%string.

Record HashResult : Type := { hash : jsstring; algorithm : string }.

Definition HASH_ALGORITHM : string := "sha256".
Definition SALT_LENGTH : Z := 32.

(** ** crypto.ts *)

(** [randomBytes] of node:crypto draws from the operating system. The source
    of entropy is a stream of which every call consumes the next [n] values,
    reduced to bytes. *)
Record rng : Type := { entropy : nat -> Z; drawn : nat }.

Definition Rand (A : Type) : Type := rng -> result A * rng.

Definition retR {A} (a : A) : Rand A := fun g => (Return a, g).
Definition throwR {A} (e : exn) : Rand A := fun g => (Throw e, g).
Definition bindR {A B} (m : Rand A) (k : A -> Rand B) : Rand B :=
  fun g => match m g with
           | (Return a, g') => k a g'
           | (Throw e, g') => (Throw e, g')
           end.

Notation "x <~ m ;;; k" := (bindR m (fun x => k))
  (at level 100, m at next level, right associativity).

(** The next [n] bytes of the stream, and the stream once they are taken. *)
Definition next_bytes (n : nat) (g : rng) : bytes :=
  map (fun i => entropy g (drawn g + i)%nat mod 256) (seq 0 n).

Definition advance (n : nat) (g : rng) : rng :=
  {| entropy := entropy g; drawn := (drawn g + n)%nat |}.

Definition randomBytes (n : nat) : Rand bytes :=
  fun g => (Return (next_bytes n g), advance n g).

Fixpoint map_rand {A B} (f : A -> Rand B) (l : list A) : Rand (list B) :=
  match l with
  | [] => retR []
  | a :: l' => b <~ f a ;;; bs <~ map_rand f l' ;;; retR (b :: bs)
  end.

Record EncryptionResult : Type := {
  encrypted : jsstring;
  iv : jsstring;
  authTag : jsstring
}.

(** The interface DecryptionInput has the fields of EncryptionResult. *)
Abbreviation DecryptionInput := EncryptionResult (only parsing).

Definition KEY_LENGTH : nat := 32.
Definition IV_LENGTH : nat := 12.
Definition TAG_LENGTH : nat := 16.

(** The loop shared by [encrypt] and [decrypt]:
    [out[i] = data[i] ^ key[i % key.length] ^ iv[i % iv.length]], stored into
    a [Uint8Array]. *)
Definition xor_stream (data key nonce : bytes) : bytes :=
  imap (fun i d =>
          Z.lxor (Z.lxor d (nth (i mod length key) key 0))
                 (nth (i mod length nonce) nonce 0) mod 256) data.

Definition truthy_string (s : jsstring) : bool :=
  match s with [] => false | _ :: _ => true end.

Definition encrypt (plaintext : jsval) (key : bytes) : Rand EncryptionResult :=
  match plaintext with
  | VStr ((_ :: _) as p) =>
      if negb (length key =? KEY_LENGTH)%nat then
        throwR (EncryptionError "Invalid encryption key: must be 32 bytes for AES-256")
      else
        nonce <~ randomBytes IV_LENGTH ;;;
        let data := utf8_encode p in
        let out := xor_stream data key nonce in
        tag <~ randomBytes TAG_LENGTH ;;;
        retR {| encrypted := base64_encode out;
                iv := base64_encode nonce;
                authTag := base64_encode tag |}
  | _ => throwR (EncryptionError "Invalid plaintext: must be a non-empty string")
  end.

Definition decrypt (input : DecryptionInput) (key : bytes) : result jsstring :=
  if negb (truthy_string (encrypted input)) || negb (truthy_string (iv input))
     || negb (truthy_string (authTag input)) then
    Throw (DecryptionError "Invalid decryption input: missing required fields")
  else if negb (length key =? KEY_LENGTH)%nat then
    Throw (DecryptionError "Invalid decryption key: must be 32 bytes for AES-256")
  else
    let nonce := base64_decode (iv input) in
    let tag := base64_decode (authTag input) in
    let data := base64_decode (encrypted input) in
    if negb (length nonce =? IV_LENGTH)%nat then
      Throw (DecryptionError
               ("Invalid IV length: expected 12, got " ++ pretty (length nonce))%string)
    else if negb (length tag =? TAG_LENGTH)%nat then
      Throw (DecryptionError
               ("Invalid auth tag length: expected 16, got " ++ pretty (length tag))%string)
    else Return (TextDecoder_decode (xor_stream data key nonce)).

Definition encryptBatch (plaintexts : list jsval) (key : bytes)
  : Rand (list EncryptionResult) :=
  if (BATCH_LIMITS_ENCRYPTION <? length plaintexts)%nat then
    throwR (EncryptionError (batch_message (length plaintexts) BATCH_LIMITS_ENCRYPTION))
  else map_rand (fun plaintext => encrypt plaintext key) plaintexts.

Definition decryptBatch (inputs : list DecryptionInput) (key : bytes)
  : result (list jsstring) :=
  if (BATCH_LIMITS_DECRYPTION <? length inputs)%nat then
    Throw (DecryptionError (batch_message (length inputs) BATCH_LIMITS_DECRYPTION))
  else map_result (fun input => decrypt input key) inputs.


(** What a caller can pass where a key is expected: a Buffer, a Uint8Array
    that is no Buffer, or a value that is neither ([null], [undefined], a
    string). [encrypt] and [decrypt] above read of their key its length and
    its bytes, which a Uint8Array has as a Buffer does;
    [validateEncryptionKey] asks [Buffer.isBuffer] first. *)
Inductive key_value : Type :=
| KeyBuffer (b : bytes)
| KeyUint8Array (b : bytes)
| KeyOther (v : jsval).

Definition validateEncryptionKey (key : key_value) : result bool :=
  match key with
  | KeyBuffer b =>
      if negb (length b =? KEY_LENGTH)%nat then
        Throw (EncryptionError
                 ("Key must be 32 bytes for AES-256, got " ++ pretty (length b)
                  ++ " bytes")%string)
      else Return true
  | KeyUint8Array _ | KeyOther _ => Throw (EncryptionError "Key must be a Buffer")
  end.

(** ** keys.ts: the key cache *)

Record EncryptionKey : Type := { key : bytes; keyId : string; version : Z }.

Record KeyCacheEntry : Type := {
  entry_key : EncryptionKey;
  timestamp : Z;
  ttl : Z
}.

(** A JavaScript [Map] keeps its entries in insertion order. *)
Abbreviation KeyCache := (list (string * KeyCacheEntry)) (only parsing).

Definition DEFAULT_CACHE_TTL : Z := 5 * 60 * 1000.
Definition MAX_CACHE_SIZE : nat := 10.

Fixpoint Map_get (k : string) (m : KeyCache) : option KeyCacheEntry :=
  match m with
  | [] => None
  | (k', v) :: m' => if String.eqb k k' then Some v else Map_get k m'
  end.

Fixpoint Map_delete (k : string) (m : KeyCache) : KeyCache :=
  match m with
  | [] => []
  | (k', v) :: m' => if String.eqb k k' then m' else (k', v) :: Map_delete k m'
  end.

(** [set] on a present key replaces the value where it stands; a new key
    goes to the end. *)
Fixpoint Map_set (k : string) (v : KeyCacheEntry) (m : KeyCache) : KeyCache :=
  match m with
  | [] => [(k, v)]
  | (k', v') :: m' => if String.eqb k k' then (k, v) :: m' else (k', v') :: Map_set k v m'
  end.

Definition getCachedKey (keyPath : string) (now : Z) (keyCache : KeyCache)
  : option EncryptionKey * KeyCache :=
  match Map_get keyPath keyCache with
  | None => (None, keyCache)
  | Some cacheEntry =>
      if timestamp cacheEntry + ttl cacheEntry <? now then
        (None, Map_delete keyPath keyCache)
      else (Some (entry_key cacheEntry), keyCache)
  end.

Definition cacheKey (keyPath : string) (k : EncryptionKey) (now : Z) (ttl_ms : Z)
  (keyCache : KeyCache) : KeyCache :=
  let evicted :=
    if (MAX_CACHE_SIZE <=? length keyCache)%nat then
      match keyCache with
      | (oldestKey, _) :: _ =>
          if String.eqb oldestKey "" then keyCache else Map_delete oldestKey keyCache
      | [] => keyCache
      end
    else keyCache in
  Map_set keyPath {| entry_key := k; timestamp := now; ttl := ttl_ms |} evicted.

Definition clearKeyCache (keyCache : KeyCache) : KeyCache := [].

Definition getKeyCacheStats (keyCache : KeyCache) : nat * list string :=
  (length keyCache, map fst keyCache).

(** ** mock.ts *)

Record process_env : Type := {
  NODE_ENV : option string;
  ENCRYPTION_MOCK_MODE : option string
}.

Definition isMockMode (env : process_env) : bool :=
  bool_decide (NODE_ENV env = Some "test")
  || bool_decide (ENCRYPTION_MOCK_MODE env = Some "true").

Definition mock_prefix : jsstring := js "mock_encrypted_".

Definition mockEncrypt (data : jsval) : result jsstring :=
  if negb (truthy data) then Return []
  else match data with
       | VStr s => Return (mock_prefix ++ base64_encode (utf8_encode s))
       | _ => Throw (TypeError "The first argument must be of type string")
       end.

Fixpoint startsWith (s p : jsstring) : bool :=
  match p, s with
  | [], _ => true
  | c :: p', d :: s' => (c =? d) && startsWith s' p'
  | _ :: _, [] => false
  end.

Definition mockDecrypt (encryptedData : jsval) : result jsstring :=
  if negb (truthy encryptedData) then Return []
  else match encryptedData with
       | VStr s =>
           if negb (startsWith s mock_prefix) then Return s
           else
             (* s starts with the prefix, so [replace] removes it there *)
             let encoded := skipn (length mock_prefix) s in
             Return (buffer_toString_utf8 (base64_decode encoded))
       | _ => Throw (TypeError "encryptedData.startsWith is not a function")
       end.

(** ** client-extension.ts: the interception layer *)

Record EncryptionConfig : Type := {
  fieldName : string;
  encryptedField : string;
  hashField : string;
  keyPath : string
}.

Definition config_of (name keyName : string) : EncryptionConfig :=
  {| fieldName := name;
     encryptedField := (name ++ "_encrypted")%string;
     hashField := (name ++ "_hash")%string;
     keyPath := ("/app/encryption/" ++ keyName)%string |}.

Definition ENCRYPTED_FIELD_MAP : gmap string (list EncryptionConfig) :=
  <["User" :=
      [config_of "firstName" "names-key";
       config_of "lastName" "names-key";
       config_of "email" "email-key";
       config_of "phone" "phone-key";
       config_of "phoneVerificationCode" "temp-key"]]>
  (<["StudentInfo" :=
      [config_of "studentId" "ids-key";
       config_of "major" "academic-key";
       config_of "minor" "academic-key";
       config_of "degreeProgram" "academic-key"]]>
  (<["AlumniInfo" :=
      [config_of "degreeObtained" "academic-key";
       config_of "currentEmployer" "employment-key";
       config_of "jobTitle" "employment-key";
       config_of "linkedInUrl" "urls-key"]]>
  (<["IndustryProfessionalInfo" :=
      [config_of "companyName" "employment-key";
       config_of "jobTitle" "employment-key";
       config_of "linkedInUrl" "urls-key"]]> ∅))).

(** [o[k]]: a property that is absent reads as [undefined]. *)
Definition js_get (o : gmap string jsval) (k : string) : jsval :=
  default VUndefined (o !! k).

(** [v !== undefined && v !== null]. *)
Definition present (v : jsval) : bool :=
  match v with
  | VUndefined | VNull => false
  | _ => true
  end.

Inductive payload : Type :=
  | One (r : gmap string jsval)
  | Many (rs : list (gmap string jsval)).

Inductive query_result : Type :=
  | QNull
  | QRecord (r : gmap string jsval)
  | QArray (rs : list (gmap string jsval)).

Record query_args : Type := {
  data : option payload;
  create : option (gmap string jsval);
  update : option (gmap string jsval)
}.

Inductive operation : Type :=
  | Create | Update | Upsert | CreateMany | UpdateMany
  | FindFirst | FindUnique | FindMany | Delete | DeleteMany.

(** ** What the repository takes from outside *)

(** The Unicode Character Database is data of the platform, not of the
    repository: for code points from U+0080 on that are not white space,
    the lowercase mapping and the Cased and Case_Ignorable properties are
    parameters. The ASCII rows are written out. *)
Class UnicodeData : Type := {
  lowercase_mapping : Z -> list Z;
  cased_property : Z -> bool;
  case_ignorable_property : Z -> bool
}.

(** The round trip to AWS Secrets Manager, with the parsing and validation
    of the secret that follow it in [getEncryptionKey], is a parameter: it
    answers with the key or with the [KeyRetrievalError] that is thrown. *)
Class SecretStore : Type := {
  retrieve : string -> result EncryptionKey
}.

(** The process environment read by [isMockMode], and [encryptData] and
    [decryptData], which client-extension.ts imports from ./crypto and
    which ./crypto does not define: each answers with the string it resolves
    to or the error it rejects with. *)
Class Runtime : Type := {
  env : process_env;
  encryptData : jsval -> string -> result jsstring;
  decryptData : jsval -> string -> result jsstring
}.

(** The storage backend behind the extension. *)
Class Backend : Type := {
  query : operation -> query_args -> result query_result
}.

Section Subsystem.

Context `{UCD : UnicodeData} `{Secrets : SecretStore} `{Host : Runtime} `{Storage : Backend}.

(** ** [toLowerCase] with the tables *)

Definition Cased (c : Z) : bool :=
  if c <? 0x80 then is_ascii_upper c || is_ascii_lower c
  else if is_white_space c then false
  else cased_property c.

Definition Case_Ignorable (c : Z) : bool :=
  if c <? 0x80 then (c =? 0x27) || (c =? 0x2E) || (c =? 0x3A) || (c =? 0x5E) || (c =? 0x60)
  else case_ignorable_property c.

Definition Lowercase_Mapping (c : Z) : list Z :=
  if is_ascii_upper c then [c + 32]
  else if (c <? 0x80) || is_white_space c then [c]
  else lowercase_mapping c.

(** Walking away from a position: case-ignorable code points, then a cased
    one. *)
Fixpoint reaches_cased (l : list Z) : bool :=
  match l with
  | [] => false
  | c :: rest => Cased c || (Case_Ignorable c && reaches_cased rest)
  end.

(** The Final_Sigma condition of SpecialCasing, the only context-sensitive
    mapping that is not tied to a language. *)
Definition Final_Sigma (before_reversed after : list Z) : bool :=
  reaches_cased before_reversed && negb (reaches_cased after).

Fixpoint toLowercase (before_reversed cps : list Z) : list Z :=
  match cps with
  | [] => []
  | c :: rest =>
      (if (c =? 0x3A3) && Final_Sigma before_reversed rest then [0x3C2]
       else Lowercase_Mapping c)
      ++ toLowercase (c :: before_reversed) rest
  end.

Definition toLowerCase (s : jsstring) : jsstring :=
  CodePointsToString (toLowercase [] (StringToCodePoints s)).

(** ** hash.ts *)

Definition generateHash (data : jsval) (salt : option bytes) : result HashResult :=
  match data with
  | VStr ((_ :: _) as s) =>
      let salted := match salt with Some b => b | None => [] end in
      Return {| hash := sha256_hex (salted ++ utf8_encode s);
                algorithm := HASH_ALGORITHM |}
  | _ => Throw (JsError "Invalid data: must be a non-empty string")
  end.

Definition generateDeterministicHash (data : jsval) : result jsstring :=
  match data with
  | VStr ((_ :: _) as s) => Return (sha256_hex (utf8_encode (trim (toLowerCase s))))
  | _ => Throw (JsError "Invalid data: must be a non-empty string")
  end.

Definition generateHashBatch (dataItems : list jsval) (salt : option bytes)
  : result (list HashResult) :=
  if (BATCH_LIMITS_HASH_GENERATION <? length dataItems)%nat then
    Throw (JsError (batch_message (length dataItems) BATCH_LIMITS_HASH_GENERATION))
  else map_result (fun data => generateHash data salt) dataItems.

Definition generateDeterministicHashBatch (dataItems : list jsval)
  : result (list jsstring) :=
  if (BATCH_LIMITS_HASH_GENERATION <? length dataItems)%nat then
    Throw (JsError (batch_message (length dataItems) BATCH_LIMITS_HASH_GENERATION))
  else map_result generateDeterministicHash dataItems.

Definition verifyHash (data : jsval) (expectedHash : jsstring) (salt : option bytes) : bool :=
  match generateHash data salt with
  | Return r => bool_decide (hash r = expectedHash)
  | Throw _ => false
  end.

Definition verifyDeterministicHash (data : jsval) (expectedHash : jsstring) : bool :=
  match generateDeterministicHash data with
  | Return h => bool_decide (h = expectedHash)
  | Throw _ => false
  end.

Definition createUniqueConstraintHash (data : jsval) : result jsstring :=
  generateDeterministicHash data.

Definition isValidHash (h : jsval) : bool :=
  match h with
  | VStr s => (length s =? 64)%nat && forallb is_hex_char s
  | _ => false
  end.

(** ** keys.ts: retrieval through the cache *)

(** [Date.now()] is read at the look-up and again, after the round trip,
    when the key is cached. *)
Definition getEncryptionKey (keyPath : string) (now later : Z) (keyCache : KeyCache)
  : result EncryptionKey * KeyCache :=
  match getCachedKey keyPath now keyCache with
  | (Some cachedKey, keyCache') => (Return cachedKey, keyCache')
  | (None, keyCache') =>
      match retrieve keyPath with
      | Return encryptionKey =>
          (Return encryptionKey,
           cacheKey keyPath encryptionKey later DEFAULT_CACHE_TTL keyCache')
      | Throw e => (Throw e, keyCache')
      end
  end.

(** What can happen to the cache. *)
Inductive cache_op : Type :=
  | OpGetEncryptionKey (keyPath : string) (now later : Z)
  | OpCacheKey (keyPath : string) (k : EncryptionKey) (now : Z) (ttl_ms : Z)
  | OpGetCachedKey (keyPath : string) (now : Z)
  | OpClearKeyCache.

Definition apply_op (keyCache : KeyCache) (op : cache_op) : KeyCache :=
  match op with
  | OpGetEncryptionKey keyPath now later => (getEncryptionKey keyPath now later keyCache).2
  | OpCacheKey keyPath k now ttl_ms => cacheKey keyPath k now ttl_ms keyCache
  | OpGetCachedKey keyPath now => (getCachedKey keyPath now keyCache).2
  | OpClearKeyCache => clearKeyCache keyCache
  end.

Definition op_path (op : cache_op) : option string :=
  match op with
  | OpGetEncryptionKey keyPath _ _ | OpCacheKey keyPath _ _ _ => Some keyPath
  | _ => None
  end.

(** ** client-extension.ts: the transforms and the operations *)

Definition uniqueHash : jsval -> result jsstring :=
  createUniqueConstraintHash.

Definition encryptValue (config : EncryptionConfig) (plainValue : jsval) : result jsstring :=
  if isMockMode env then mockEncrypt plainValue
  else encryptData plainValue (keyPath config).

Definition decryptValue (config : EncryptionConfig) (stored : jsval) : result jsstring :=
  if isMockMode env then mockDecrypt stored
  else decryptData stored (keyPath config).

(** The body of the loop of [transformDataForStorage] for a field that is
    present; the second component is what goes to [console.error]. *)
Definition storeField (config : EncryptionConfig) (plainValue : jsval)
  (transformedData : gmap string jsval) : result (gmap string jsval) * list string :=
  match
    (encryptedValue <- encryptValue config plainValue ;;;
     hashValue <- uniqueHash plainValue ;;;
     Return (encryptedValue, hashValue))
  with
  | Return (encryptedValue, hashValue) =>
      (Return (<[hashField config := VStr hashValue]>
                 (<[encryptedField config := VStr encryptedValue]>
                    (delete (fieldName config) transformedData))),
       [])
  | Throw _ =>
      let line := ("Failed to encrypt field " ++ fieldName config ++ ":")%string in
      let kept := <[encryptedField config := plainValue]> transformedData in
      match uniqueHash plainValue with
      | Return hashValue =>
          (Return (delete (fieldName config)
                     (<[hashField config := VStr hashValue]> kept)),
           [line])
      | Throw e => (Throw e, [line])
      end
  end.

Fixpoint storage_loop (configs : list EncryptionConfig)
  (data transformedData : gmap string jsval)
  : result (gmap string jsval) * list string :=
  match configs with
  | [] => (Return transformedData, [])
  | config :: rest =>
      if present (js_get data (fieldName config)) then
        match storeField config (js_get data (fieldName config)) transformedData with
        | (Return transformedData', lines) =>
            let '(r, lines') := storage_loop rest data transformedData' in
            (r, lines ++ lines')
        | (Throw e, lines) => (Throw e, lines)
        end
      else storage_loop rest data transformedData
  end.

Definition transformDataForStorage (modelName : string) (data : gmap string jsval)
  : result (gmap string jsval) * list string :=
  match ENCRYPTED_FIELD_MAP !! modelName with
  | None => (Return data, [])
  | Some configs => storage_loop configs data data
  end.

Definition readField (config : EncryptionConfig) (stored : jsval)
  (transformedResult : gmap string jsval) : gmap string jsval * list string :=
  match decryptValue config stored with
  | Return decryptedValue =>
      (<[fieldName config := VStr decryptedValue]> transformedResult, [])
  | Throw _ =>
      (<[fieldName config := stored]> transformedResult,
       [("Failed to decrypt field " ++ fieldName config ++ ":")%string])
  end.

Fixpoint reading_loop (configs : list EncryptionConfig)
  (result transformedResult : gmap string jsval) : gmap string jsval * list string :=
  match configs with
  | [] => (transformedResult, [])
  | config :: rest =>
      if present (js_get result (encryptedField config)) then
        let '(transformedResult', lines) :=
          readField config (js_get result (encryptedField config)) transformedResult in
        let '(r, lines') := reading_loop rest result transformedResult' in
        (r, lines ++ lines')
      else reading_loop rest result transformedResult
  end.

Definition transformRecordForReading (modelName : string) (r : gmap string jsval)
  : gmap string jsval * list string :=
  match ENCRYPTED_FIELD_MAP !! modelName with
  | None => (r, [])
  | Some configs => reading_loop configs r r
  end.

Fixpoint transformAllForReading (modelName : string) (rs : list (gmap string jsval))
  : list (gmap string jsval) * list string :=
  match rs with
  | [] => ([], [])
  | r :: rest =>
      let '(r', lines) := transformRecordForReading modelName r in
      let '(rest', lines') := transformAllForReading modelName rest in
      (r' :: rest', lines ++ lines')
  end.

Definition transformDataForReading (modelName : string) (result : query_result)
  : query_result * list string :=
  match result with
  | QNull => (QNull, [])
  | QArray rs =>
      let '(rs', lines) := transformAllForReading modelName rs in (QArray rs', lines)
  | QRecord r =>
      let '(r', lines) := transformRecordForReading modelName r in (QRecord r', lines)
  end.

(** [Promise.all] over the items of a bulk create: [args.data.map] starts
    the transform of every item before a result is looked at, so every item
    writes its lines to the console, also after an item whose transform
    rejects; the first rejection, in the order of the items, is the one that
    is seen. *)
Fixpoint transformAllForStorage (modelName : string) (rs : list (gmap string jsval))
  : result (list (gmap string jsval)) * list string :=
  match rs with
  | [] => (Return [], [])
  | r :: rest =>
      let '(first, lines) := transformDataForStorage modelName r in
      let '(others, lines') := transformAllForStorage modelName rest in
      (r' <- first ;;; rest' <- others ;;; Return (r' :: rest'), lines ++ lines')
  end.

(** The rewriting of [args.data]. Only [createMany] has an array among the
    types of its [data]; for the other operations an array is no input of
    the typed API, and the model leaves it as it is. *)
Definition transformPayload (op : operation) (modelName : string) (p : payload)
  : result payload * list string :=
  match p with
  | One r =>
      match transformDataForStorage modelName r with
      | (Return r', lines) => (Return (One r'), lines)
      | (Throw e, lines) => (Throw e, lines)
      end
  | Many rs =>
      match op with
      | CreateMany =>
          match transformAllForStorage modelName rs with
          | (Return rs', lines) => (Return (Many rs'), lines)
          | (Throw e, lines) => (Throw e, lines)
          end
      | _ => (Return p, [])
      end
  end.

Definition transformOptional (modelName : string) (o : option (gmap string jsval))
  : result (option (gmap string jsval)) * list string :=
  match o with
  | None => (Return None, [])
  | Some r =>
      match transformDataForStorage modelName r with
      | (Return r', lines) => (Return (Some r'), lines)
      | (Throw e, lines) => (Throw e, lines)
      end
  end.

(** The arguments as the backend receives them. *)
Definition storageArgs (op : operation) (modelName : string) (args : query_args)
  : result query_args * list string :=
  match op with
  | Create | Update | CreateMany | UpdateMany =>
      match data args with
      | None => (Return args, [])
      | Some p =>
          match transformPayload op modelName p with
          | (Return p', lines) =>
              (Return {| data := Some p'; create := create args; update := update args |},
               lines)
          | (Throw e, lines) => (Throw e, lines)
          end
      end
  | Upsert =>
      match transformOptional modelName (create args) with
      | (Return c, lines) =>
          match transformOptional modelName (update args) with
          | (Return u, lines') =>
              (Return {| data := data args; create := c; update := u |}, lines ++ lines')
          | (Throw e, lines') => (Throw e, lines ++ lines')
          end
      | (Throw e, lines) => (Throw e, lines)
      end
  | _ => (Return args, [])
  end.

(** One operation of [encryptionExtension]. *)
Definition runOperation (op : operation) (modelName : string) (args : query_args)
  : result query_result * list string :=
  match storageArgs op modelName args with
  | (Throw e, lines) => (Throw e, lines)
  | (Return args', lines) =>
      match query op args' with
      | Throw e => (Throw e, lines)
      | Return result =>
          match op with
          | CreateMany | UpdateMany | Delete | DeleteMany => (Return result, lines)
          | _ =>
              let '(result', lines') := transformDataForReading modelName result in
              (Return result', lines ++ lines')
          end
      end
  end.

(** * Vocabulary of the statements *)

(** A byte of a [Buffer]. *)
Definition byte (b : Z) : Prop := 0 <= b < 256.

(** The integers from 0 up to [n], for facts that are checked case by case. *)
Definition below (n : nat) : list Z := map Z.of_nat (seq 0 n).

Definition sextet_ok (v : Z) : bool :=
  match unbase64 (base64_char v) with
  | Some v' => v' =? v
  | None => false
  end.

Definition in_sextet (v : Z) : bool := (0 <=? v) && (v <? 64).

(** A Unicode scalar value: a code point that is not a surrogate. *)
Definition is_scalar (cp : Z) : bool :=
  (0 <=? cp) && (cp <=? 0x10FFFF) && negb (is_surrogate cp).

(** The nonce and the tag that [encrypt] draws when it starts from [g]. *)
Definition nonce_of (g : rng) : bytes := next_bytes IV_LENGTH g.
Definition tag_of (g : rng) : bytes := next_bytes TAG_LENGTH (advance IV_LENGTH g).

(** The envelope [encrypt] builds from a nonce and a tag that were drawn. *)
Definition envelope (p : jsstring) (k nonce tag : bytes) : EncryptionResult :=
  {| encrypted := base64_encode (xor_stream (utf8_encode p) k nonce);
     iv := base64_encode nonce;
     authTag := base64_encode tag |}.

(** What every cache operation keeps: no entry under the empty path, and at
    most [MAX_CACHE_SIZE] entries. *)
Definition cache_ok (keyCache : list (string * KeyCacheEntry)) : Prop :=
  Forall (fun kv => kv.1 <> ""%string) keyCache
  /\ (length keyCache <= MAX_CACHE_SIZE)%nat.

(** A string of white space only. *)
Definition white (l : jsstring) : Prop := Forall (fun c => is_white_space c = true) l.

(** Letters that differ in case only: the ASCII letters, whose rows of the
    Unicode tables are part of the model. *)
Definition same_letter (a b : Z) : Prop :=
  a = b \/ (is_ascii_upper a = true /\ b = a + 32) \/ (is_ascii_upper b = true /\ a = b + 32).

(** [s1] and [s2] differ only in the case of the letters A to Z and in
    the white space around them: code unit by code unit, the cores hold the
    same letter. *)
Definition differ_in_case_or_space_only (s1 s2 : jsstring) : Prop :=
  exists l1 m1 r1 l2 m2 r2,
    s1 = l1 ++ m1 ++ r1 /\ s2 = l2 ++ m2 ++ r2
    /\ white l1 /\ white r1 /\ white l2 /\ white r2
    /\ Forall2 same_letter m1 m2.

(** ** The interception layer *)

(** The three property names a configuration touches. *)
Definition columns (config : EncryptionConfig) : list string :=
  [fieldName config; encryptedField config; hashField config].

Definition all_columns (configs : list EncryptionConfig) : list string :=
  flat_map columns configs.

(** A value [generateDeterministicHash] accepts: a non-empty string. *)
Definition hashable (v : jsval) : bool :=
  match v with
  | VStr (_ :: _) => true
  | _ => false
  end.

(** Every sensitive field that is present holds a non-empty string. *)
Definition storable (configs : list EncryptionConfig) (data : gmap string jsval) : bool :=
  forallb (fun config =>
             implb (present (js_get data (fieldName config)))
                   (hashable (js_get data (fieldName config)))) configs.

(** What ends in the ciphertext column: the ciphertext, or the value itself
    when encrypting it threw. *)
Definition stored_value (config : EncryptionConfig) (plainValue : jsval) : jsval :=
  match encryptValue config plainValue with
  | Return encryptedValue => VStr encryptedValue
  | Throw _ => plainValue
  end.

Definition encrypt_line (config : EncryptionConfig) : string :=
  ("Failed to encrypt field " ++ fieldName config ++ ":")%string.

(** Decrypting what was stored for [v] gives [v] back, or throws on the
    plaintext that was stored in place of a ciphertext. *)
Definition readable (config : EncryptionConfig) (v : jsstring) : Prop :=
  match encryptValue config (VStr v) with
  | Return c => decryptValue config (VStr c) = Return v
  | Throw _ =>
      decryptValue config (VStr v) = Return v
      \/ exists e, decryptValue config (VStr v) = Throw e
  end.

(** The operations that write one record given as [args.data]. *)
Definition writes_data (op : operation) : bool :=
  match op with
  | Create | Update | CreateMany | UpdateMany => true
  | _ => false
  end.

(** A record of [upsert] as it was given and as the backend receives it. *)
Definition transformed_as (modelName : string)
  (given stored : option (gmap string jsval)) : Prop :=
  match given, stored with
  | Some r, Some r' => exists lines, transformDataForStorage modelName r = (Return r', lines)
  | None, None => True
  | _, _ => False
  end.

(** ** Sample inputs *)

Definition zero_key : bytes := repeat 0 32.
Definition ones_key : bytes := repeat 1 32.

(** An entropy stream that counts: byte [i] is [i mod 256]. *)
Definition counting : rng := {| entropy := fun i => Z.of_nat i; drawn := 0 |}.

(** An entropy stream that repeats its first byte at position 28, where a
    second call of [encrypt] begins to draw. *)
Definition repeating : rng :=
  {| entropy := fun i => if (i =? 28)%nat then 0 else Z.of_nat i; drawn := 0 |}.

Definition sample_key : EncryptionKey :=
  {| key := repeat 7 32; keyId := "sample"; version := 1 |}.

Definition eleven_paths : list string :=
  ["/k/0"; "/k/1"; "/k/2"; "/k/3"; "/k/4"; "/k/5"; "/k/6"; "/k/7"; "/k/8"; "/k/9";
   "/k/10"]%string.

Definition eleven_inserts : list cache_op :=
  map (fun p => OpGetEncryptionKey p 0 1) eleven_paths.

(** Tables with no entry beyond ASCII. *)
Definition ascii_tables : UnicodeData :=
  {| lowercase_mapping := fun c => [c];
     cased_property := fun _ => false;
     case_ignorable_property := fun _ => false |}.

(** The rows of the sigmas in UnicodeData.txt: U+03A3 has U+03C3 as its
    lowercase mapping, and U+03A3, U+03C2 and U+03C3 are cased. *)
Definition greek_tables : UnicodeData :=
  {| lowercase_mapping := fun c => if c =? 0x3A3 then [0x3C3] else [c];
     cased_property := fun c => (c =? 0x3A3) || (c =? 0x3C2) || (c =? 0x3C3);
     case_ignorable_property := fun _ => false |}.

Definition test_env : process_env :=
  {| NODE_ENV := Some "test"; ENCRYPTION_MOCK_MODE := None |}.
Definition production_env : process_env :=
  {| NODE_ENV := Some "production"; ENCRYPTION_MOCK_MODE := None |}.

(** A host on which no key can be retrieved: both helpers reject. *)
Definition no_keys (e : process_env) : Runtime :=
  {| env := e;
     encryptData := fun _ _ => Throw (KeyRetrievalError "Failed to retrieve encryption key");
     decryptData := fun _ _ => Throw (KeyRetrievalError "Failed to retrieve encryption key") |}.

(** A backend that returns the record it was given. *)
Definition echo : Backend :=
  {| query := fun _ args =>
       match data args with
       | Some (One r) => Return (QRecord r)
       | _ => Return QNull
       end |}.

Definition constant_store : SecretStore := {| retrieve := fun _ => Return sample_key |}.

Definition email_config : EncryptionConfig := config_of "email" "email-key".

Definition john_email : jsstring := js "john.doe@example.com".

(** A user with an e-mail address, no phone number and a role. *)
Definition john : gmap string jsval :=
  <["email" := VStr john_email]> (<["phone" := VNull]> (<["role" := VStr (js "USER")]> ∅)).

Definition blank_email : gmap string jsval := <["email" := VStr []]> ∅.

Definition create_john : query_args :=
  {| data := Some (One john); create := None; update := None |}.

End Subsystem.

(** * More of the subsystem

    The functions of crypto.ts, hash.ts, keys.ts, mock.ts and
    client-extension.ts that stand beside the ones above, and the telephone
    number helpers of utils/index.ts and services/sms.ts. *)

(** ** hash.ts: the salt *)

Definition generateSalt : Rand bytes := randomBytes (Z.to_nat SALT_LENGTH).

(** ** keys.ts: the configuration of the client *)

Record SecretsManagerConfig : Type := {
  region : string;
  accessKeyId : option string;
  secretAccessKey : option string
}.

(** The variables of [process.env] that keys.ts reads. *)
Record aws_env : Type := {
  AWS_REGION : option string;
  AWS_SECRETS_MANAGER_REGION : option string;
  AWS_ACCESS_KEY_ID : option string;
  AWS_SECRET_ACCESS_KEY : option string
}.

(** A string that may be undefined is truthy when it is there and is not
    empty. *)
Definition given (o : option string) : bool :=
  match o with
  | Some s => negb (String.eqb s "")
  | None => false
  end.

(** [a || b]. *)
Definition or_else (a b : option string) : option string :=
  if given a then a else b.

Record credentials : Type := {
  credentials_accessKeyId : string;
  credentials_secretAccessKey : string
}.

(** What [createSecretsManagerClient] hands to the constructor of the
    client. *)
Record clientConfig : Type := {
  client_region : string;
  client_credentials : option credentials
}.

(** [config?.region || process.env.AWS_REGION ||
    process.env.AWS_SECRETS_MANAGER_REGION]. *)
Definition requested_region (e : aws_env) (config : option SecretsManagerConfig)
  : option string :=
  or_else (or_else (option_map region config) (AWS_REGION e)) (AWS_SECRETS_MANAGER_REGION e).

(** [config?.accessKeyId && config?.secretAccessKey]. *)
Definition hasConfigCredentials (config : option SecretsManagerConfig) : bool :=
  match config with
  | Some c => given (accessKeyId c) && given (secretAccessKey c)
  | None => false
  end.

Definition createSecretsManagerClient (e : aws_env) (config : option SecretsManagerConfig)
  : clientConfig :=
  {| client_region :=
       match requested_region e config with
       | Some r => if given (Some r) then r else "us-east-1"%string
       | None => "us-east-1"%string
       end;
     client_credentials :=
       match config with
       | Some c =>
           if hasConfigCredentials config then
             Some {| credentials_accessKeyId := default ""%string (accessKeyId c);
                     credentials_secretAccessKey := default ""%string (secretAccessKey c) |}
           else None
       | None => None
       end |}.

Definition validateSecretsManagerConfig (e : aws_env) (config : option SecretsManagerConfig)
  : result bool :=
  if negb (given (requested_region e config)) then
    Throw (KeyRetrievalError "AWS region is required for Secrets Manager access")
  else
    let hasEnvCredentials := given (AWS_ACCESS_KEY_ID e) && given (AWS_SECRET_ACCESS_KEY e) in
    if negb (hasConfigCredentials config) && negb hasEnvCredentials then
      Throw (KeyRetrievalError "AWS credentials are required for Secrets Manager access")
    else Return true.

(** ** keys.ts: from the secret to the key *)

(** [Buffer.from(s, "hex")]: Node reads the low eight bits of each code
    unit, takes the digits two by two and stops at the first pair that is not
    two hexadecimal digits; a digit left alone at the end is dropped. *)
Definition unhex (c : Z) : option Z :=
  let b := c mod 256 in
  if (48 <=? b) && (b <=? 57) then Some (b - 48)
  else if (65 <=? b) && (b <=? 70) then Some (b - 55)
  else if (97 <=? b) && (b <=? 102) then Some (b - 87)
  else None.

Fixpoint hex_decode (s : jsstring) : bytes :=
  match s with
  | c :: d :: rest =>
      match unhex c, unhex d with
      | Some a, Some b => Z.lor (Z.shiftl a 4) b :: hex_decode rest
      | _, _ => []
      end
  | _ => []
  end.

(** [buf.toString("hex")], the form in which a key is written into a
    secret. *)
Definition hex_byte (b : Z) : jsstring :=
  [hex_digit (Z.shiftr b 4); hex_digit (Z.land b 15)].

Definition hex_encode (bs : bytes) : jsstring := flat_map hex_byte bs.

(** The answer to [GetSecretValueCommand], as far as it is read. *)
Record SecretValue : Type := {
  SecretString : option jsstring;
  Name : option string
}.

(** The secret once parsed, in the format the code expects: [key] is read
    as it is found (a property that is missing reads as undefined), [keyId]
    is a string and [version] an integer when they are there. *)
Record SecretData : Type := {
  secret_key : jsval;
  secret_keyId : option string;
  secret_version : option Z
}.

(** What [JSON.parse] returns: [null], on which reading a property throws,
    or a value with properties. *)
Inductive parsed : Type :=
  | ParsedNull
  | ParsedObject (secretData : SecretData).

(** The client of AWS Secrets Manager with the environment of the process,
    and the JSON parser: [send] answers or rejects, [JSON_parse] returns
    [None] where [JSON.parse] throws a SyntaxError. *)
Class SecretsManager : Type := {
  aws : aws_env;
  send : clientConfig -> string -> result SecretValue;
  JSON_parse : jsstring -> option parsed
}.

Section Retrieval.

Context `{Manager : SecretsManager}.

(** The [catch] of [getEncryptionKey]: a [KeyRetrievalError] is thrown again,
    anything else is wrapped into one. *)
Definition rethrow {A} (keyPath : string) (r : result A) : result A :=
  match r with
  | Return a => Return a
  | Throw (KeyRetrievalError message) => Throw (KeyRetrievalError message)
  | Throw _ =>
      Throw (KeyRetrievalError ("Failed to retrieve encryption key from " ++ keyPath))
  end.

(** [getEncryptionKey] between the look-up in the cache and [cacheKey]. *)
Definition retrieveKey (config : option SecretsManagerConfig) (keyPath : string)
  : result EncryptionKey :=
  rethrow keyPath
    (response <- send (createSecretsManagerClient aws config) keyPath ;;;
     match SecretString response with
     | Some ((_ :: _) as text) =>
         match JSON_parse text with
         | None => Throw (KeyRetrievalError ("Invalid JSON format in secret: " ++ keyPath))
         | Some ParsedNull =>
             Throw (TypeError "Cannot read properties of null (reading 'key')")
         | Some (ParsedObject secretData) =>
             if negb (truthy (secret_key secretData)) then
               Throw (KeyRetrievalError ("Missing 'key' field in secret: " ++ keyPath))
             else
               match secret_key secretData with
               | VStr hex =>
                   let keyBuffer := hex_decode hex in
                   _ <- validateEncryptionKey (KeyBuffer keyBuffer) ;;;
                   Return {| key := keyBuffer;
                             keyId := default keyPath
                                        (or_else (or_else (secret_keyId secretData)
                                                    (Name response)) (Some keyPath));
                             version := match secret_version secretData with
                                        | Some v => if v =? 0 then 1 else v
                                        | None => 1
                                        end |}
               | _ =>
                   Throw (KeyRetrievalError ("Invalid hex key format in secret: " ++ keyPath))
               end
         end
     | _ => Throw (KeyRetrievalError ("No secret value found for key path: " ++ keyPath))
     end).

(** The secret store that [getEncryptionKey] consults. *)
Definition secrets_manager (config : option SecretsManagerConfig) : SecretStore :=
  {| retrieve := retrieveKey config |}.

End Retrieval.

(** ** utils/index.ts and services/sms.ts: telephone numbers *)

(** [[0-9]]; [\D] is its complement. *)
Definition is_digit (c : Z) : bool := (48 <=? c) && (c <=? 57).

(** [s.replace(pattern, "")] for a pattern that is a string: its first
    occurrence is taken out. *)
Fixpoint remove_first (pattern s : jsstring) : jsstring :=
  match s with
  | [] => []
  | c :: rest =>
      if startsWith s pattern then skipn (length pattern) s
      else c :: remove_first pattern rest
  end.

(** [s.slice(from, to)] for indices within the string. *)
Definition slice (from to : nat) (s : jsstring) : jsstring :=
  firstn (to - from) (skipn from s).

Module Utils.

(** [phone.replace(/\D/g, "")], then the two shapes that are completed. *)
Definition formatPhoneNumber (phone : jsstring) : jsstring :=
  let cleaned := List.filter is_digit phone in
  if (length cleaned =? 10)%nat then js "+1" ++ cleaned
  else if (length cleaned =? 11)%nat && startsWith cleaned (js "1") then js "+" ++ cleaned
  else phone.

(** [/^\+1[0-9]{10}$/.test(phone)]. *)
Definition isValidPhoneNumber (phone : jsstring) : bool :=
  startsWith phone (js "+1")
  && (length (skipn 2 phone) =? 10)%nat && forallb is_digit (skipn 2 phone).

End Utils.

Module Sms.

Definition isValidUSPhoneNumber (phone : jsstring) : bool :=
  startsWith phone (js "+1")
  && (length (skipn 2 phone) =? 10)%nat && forallb is_digit (skipn 2 phone).

(** The number for display: +11234567890 becomes +1 (123) 456-7890. *)
Definition formatPhoneNumber (phone : jsstring) : jsstring :=
  if negb (isValidUSPhoneNumber phone) then phone
  else
    let cleaned := remove_first (js "+1") phone in
    js "+1 (" ++ slice 0 3 cleaned ++ js ") " ++ slice 3 6 cleaned ++ js "-"
    ++ skipn 6 cleaned.

End Sms.

(** ** Vocabulary of the further statements *)

(** The states the decoder can be in between two bytes: nothing is pending,
    or what was read of a sequence can only be completed to a scalar
    value. *)
Inductive utf8_state_ok : utf8_state -> Prop :=
  | ok_idle st : u_needed st = 0 -> utf8_state_ok st
  | ok_two cp :
      2 <= cp <= 31 ->
      utf8_state_ok {| u_code_point := cp; u_needed := 1; u_seen := 0;
                       u_lower := 0x80; u_upper := 0xBF |}
  | ok_three cp lo hi :
      0 <= cp <= 15 -> 0x80 <= lo -> hi <= 0xBF ->
      (cp = 0 -> 0xA0 <= lo) -> (cp = 13 -> hi <= 0x9F) ->
      utf8_state_ok {| u_code_point := cp; u_needed := 2; u_seen := 0;
                       u_lower := lo; u_upper := hi |}
  | ok_three_last cp :
      0x20 <= cp <= 0x3FF -> ~ 0x360 <= cp <= 0x37F ->
      utf8_state_ok {| u_code_point := cp; u_needed := 2; u_seen := 1;
                       u_lower := 0x80; u_upper := 0xBF |}
  | ok_four cp lo hi :
      0 <= cp <= 4 -> 0x80 <= lo -> hi <= 0xBF ->
      (cp = 0 -> 0x90 <= lo) -> (cp = 4 -> hi <= 0x8F) ->
      utf8_state_ok {| u_code_point := cp; u_needed := 3; u_seen := 0;
                       u_lower := lo; u_upper := hi |}
  | ok_four_middle cp :
      0x10 <= cp <= 0x10F ->
      utf8_state_ok {| u_code_point := cp; u_needed := 3; u_seen := 1;
                       u_lower := 0x80; u_upper := 0xBF |}
  | ok_four_last cp :
      0x400 <= cp <= 0x43FF ->
      utf8_state_ok {| u_code_point := cp; u_needed := 3; u_seen := 2;
                       u_lower := 0x80; u_upper := 0xBF |}.

Definition scalars (cps : list Z) : Prop := Forall (fun cp => is_scalar cp = true) cps.

(** A plaintext that [encrypt] accepts and [decrypt] gives back as it was:
    not empty, well formed, and not beginning with U+FEFF. *)
Definition plain_ok (p : jsstring) : bool :=
  truthy_string p && well_formed p && negb (hd 0 p =? 0xFEFF).

(** A character of a base64 text: of the alphabet, or the padding. *)
Definition is_base64_char (c : Z) : bool :=
  ((65 <=? c) && (c <=? 90)) || ((97 <=? c) && (c <=? 122)) || ((48 <=? c) && (c <=? 57))
  || (c =? 43) || (c =? 47) || (c =? pad_char).

Definition alphabet_ok (v : Z) : bool := is_base64_char (base64_char v).

(** The stream after [n] calls of [encrypt], each of which draws a nonce
    and a tag. *)
Definition after_calls (n : nat) (g : rng) : rng :=
  advance (n * (IV_LENGTH + TAG_LENGTH)) g.

(** The envelopes of a batch, one after the other on the stream. *)
Fixpoint envelopes (ps : list jsstring) (K : bytes) (g : rng) : list EncryptionResult :=
  match ps with
  | [] => []
  | p :: rest =>
      envelope p K (nonce_of g) (tag_of g)
      :: envelopes rest K (advance TAG_LENGTH (advance IV_LENGTH g))
  end.

(** The paths under which a cache holds an entry, oldest first. *)
Definition paths (keyCache : list (string * KeyCacheEntry)) : list string :=
  (getKeyCacheStats keyCache).2.

(** A look-up of [k] at the time [now] finds an entry that has not
    expired. *)
Definition unexpired (k : string) (now : Z) (keyCache : list (string * KeyCacheEntry))
  : bool :=
  match Map_get k keyCache with
  | Some e => negb (timestamp e + ttl e <? now)
  | None => false
  end.

Definition hex_byte_ok (b : Z) : bool :=
  match unhex (hex_digit (Z.shiftr b 4)), unhex (hex_digit (Z.land b 15)) with
  | Some x, Some y => Z.lor (Z.shiftl x 4) y =? b
  | _, _ => false
  end.

(** The operations that write nothing of a record: the reads and the
    deletions. *)
Definition writes_nothing (op : operation) : bool :=
  match op with
  | FindFirst | FindUnique | FindMany | Delete | DeleteMany => true
  | _ => false
  end.

Definition decrypt_line (config : EncryptionConfig) : string :=
  ("Failed to decrypt field " ++ fieldName config ++ ":")%string.

(** Code points that the Unicode tables make one letter in two cases: they
    have the same lowercase mapping and the same Cased and Case_Ignorable
    properties. The capital sigma U+03A3 is a variant of itself only, since
    its lowercase form depends on its place in the word. *)
Definition case_variants `{UCD : UnicodeData} (a b : Z) : Prop :=
  a = b
  \/ (a <> 0x3A3 /\ b <> 0x3A3
      /\ Lowercase_Mapping a = Lowercase_Mapping b
      /\ Cased a = Cased b
      /\ Case_Ignorable a = Case_Ignorable b).

(** [s1] and [s2] are white space around two cores that hold, code point by
    code point, case variants. *)
Definition variants_by_the_tables `{UCD : UnicodeData} (s1 s2 : jsstring) : Prop :=
  exists l1 m1 r1 l2 m2 r2,
    s1 = l1 ++ m1 ++ r1 /\ s2 = l2 ++ m2 ++ r2
    /\ white l1 /\ white r1 /\ white l2 /\ white r2
    /\ Forall2 case_variants (StringToCodePoints m1) (StringToCodePoints m2).

(** ** Further sample inputs *)

(** Tables with the rows of the Latin-1 letters only: U+00C0 to U+00DE,
    U+00D7 apart, have the code point 32 higher as lowercase mapping; they and
    U+00DF to U+00FF, U+00F7 apart, are cased. *)
Definition latin1_tables : UnicodeData :=
  {| lowercase_mapping := fun c =>
       if (0xC0 <=? c) && (c <=? 0xDE) && negb (c =? 0xD7) then [c + 32] else [c];
     cased_property := fun c =>
       (0xC0 <=? c) && (c <=? 0xFF) && negb (c =? 0xD7) && negb (c =? 0xF7);
     case_ignorable_property := fun _ => false |}.

Definition three_messages : list jsstring :=
  [js "First message"; js "Second message"; js "Third message 123456"].

Definition ten_inserts : list cache_op := firstn 10 eleven_inserts.

Definition first_entry : KeyCacheEntry :=
  {| entry_key := sample_key; timestamp := 1; ttl := DEFAULT_CACHE_TTL |}.

(** An environment with a region and credentials, and one with nothing. *)
Definition full_env : aws_env :=
  {| AWS_REGION := Some "us-west-2"%string; AWS_SECRETS_MANAGER_REGION := None;
     AWS_ACCESS_KEY_ID := Some "test"%string; AWS_SECRET_ACCESS_KEY := Some "test"%string |}.

Definition bare_env : aws_env :=
  {| AWS_REGION := None; AWS_SECRETS_MANAGER_REGION := None;
     AWS_ACCESS_KEY_ID := None; AWS_SECRET_ACCESS_KEY := None |}.

(** A secret that holds the key of sevens in hexadecimal, a version of zero
    and no name. *)
Definition sevens_secret : SecretData :=
  {| secret_key := VStr (hex_encode (repeat 7 32));
     secret_keyId := None;
     secret_version := Some 0 |}.

(** A manager that answers every path with one text, which parses to
    [secretData]. *)
Definition answering (secretData : SecretData) : SecretsManager :=
  {| aws := full_env;
     send := fun _ _ => Return {| SecretString := Some (js "{}"); Name := None |};
     JSON_parse := fun _ => Some (ParsedObject secretData) |}.

(** A string between double quotes. *)
Definition quoted (s : string) : jsstring := 34 :: js s ++ [34].

(** The secret of the repository's test of a key of the wrong length, the
    base64 of five bytes where 64 hexadecimal digits belong, and its text. *)
Definition short_secret : SecretData :=
  {| secret_key := VStr (js "c2hvcnQ=");
     secret_keyId := Some "test"%string;
     secret_version := Some 1 |}.

Definition short_secret_text : jsstring :=
  js "{" ++ quoted "key" ++ js ":" ++ quoted "c2hvcnQ=" ++ js ","
     ++ quoted "keyId" ++ js ":" ++ quoted "test" ++ js ","
     ++ quoted "version" ++ js ":1}".

(** A manager that answers every path with the text [text], which parses
    to [secretData]; it takes no other text for JSON. *)
Definition answering_text (text : jsstring) (secretData : SecretData) : SecretsManager :=
  {| aws := full_env;
     send := fun _ _ => Return {| SecretString := Some text; Name := None |};
     JSON_parse := fun t =>
       if bool_decide (t = text) then Some (ParsedObject secretData) else None |}.

(** A user as the register route writes it: the ciphertext and digest
    columns filled in by the caller, no plain name. *)
Definition registered : gmap string jsval :=
  <["email_encrypted" := VStr john_email]>
    (<["email_hash" := VStr (js "0000")]> (<["role" := VStr (js "USER")]> ∅)).

(** A stored user whose ciphertext column cannot be decrypted outside mock
    mode. *)
Definition stored_john : gmap string jsval :=
  <["email_encrypted" := VStr (js "c2VhbGVk")]> (<["role" := VStr (js "USER")]> ∅).

(** * Proofs *)

(** ** Checking a property on every byte *)

Lemma forallb_below (P : Z -> bool) (n : nat) :
  forallb P (below n) = true -> forall z, 0 <= z < Z.of_nat n -> P z = true.
Proof.
  intros H z Hz. rewrite forallb_forall in H. apply H.
  unfold below. apply in_map_iff. exists (Z.to_nat z). split; [lia|].
  apply in_seq. lia.
Qed.

Lemma one_byte (P : Z -> bool) :
  forallb P (below 256) = true -> forall a, byte a -> P a = true.
Proof. intros H a Ha. apply (forallb_below P 256); assumption. Qed.

Lemma two_bytes (P : Z -> Z -> bool) :
  forallb (fun a => forallb (P a) (below 256)) (below 256) = true ->
  forall a b, byte a -> byte b -> P a b = true.
Proof.
  intros H a b Ha Hb. apply (forallb_below (P a) 256); [|assumption].
  apply (forallb_below (fun a => forallb (P a) (below 256)) 256); assumption.
Qed.

Lemma Forall_byte_cons a bs : Forall byte (a :: bs) -> byte a /\ Forall byte bs.
Proof. intros H. inversion H; subst. split; assumption. Qed.

(** ** Base64: decoding what was encoded *)

Lemma unbase64_char v : 0 <= v < 64 -> unbase64 (base64_char v) = Some v.
Proof.
  intros Hv. assert (H : sextet_ok v = true).
  { revert v Hv. apply (forallb_below sextet_ok 64). vm_compute. reflexivity. }
  unfold sextet_ok in H. destruct (unbase64 (base64_char v)); [|discriminate].
  apply Z.eqb_eq in H. now subst.
Qed.

Lemma sextets_cons v s :
  0 <= v < 64 -> base64_sextets (base64_char v :: s) = v :: base64_sextets s.
Proof. intros Hv. cbn [base64_sextets]. now rewrite unbase64_char. Qed.

Lemma in_sextet_range v : in_sextet v = true -> 0 <= v < 64.
Proof. unfold in_sextet. intros H. apply andb_true_iff in H as [H1 H2]. lia. Qed.

Lemma sextet1_range a : byte a -> 0 <= sextet1 a < 64.
Proof.
  intros Ha. apply in_sextet_range. revert a Ha.
  apply (one_byte (fun a => in_sextet (sextet1 a))). vm_compute. reflexivity.
Qed.

Lemma sextet2_range a b : byte a -> byte b -> 0 <= sextet2 a b < 64.
Proof.
  intros Ha Hb. apply in_sextet_range. revert a b Ha Hb.
  apply (two_bytes (fun a b => in_sextet (sextet2 a b))). vm_compute. reflexivity.
Qed.

Lemma sextet3_range b c : byte b -> byte c -> 0 <= sextet3 b c < 64.
Proof.
  intros Hb Hc. apply in_sextet_range. revert b c Hb Hc.
  apply (two_bytes (fun b c => in_sextet (sextet3 b c))). vm_compute. reflexivity.
Qed.

Lemma sextet4_range c : byte c -> 0 <= sextet4 c < 64.
Proof.
  intros Hc. apply in_sextet_range. revert c Hc.
  apply (one_byte (fun c => in_sextet (sextet4 c))). vm_compute. reflexivity.
Qed.

Lemma octet1_sextets a b : byte a -> byte b -> octet1 (sextet1 a) (sextet2 a b) = a.
Proof.
  intros Ha Hb. apply Z.eqb_eq. revert a b Ha Hb.
  apply (two_bytes (fun a b => octet1 (sextet1 a) (sextet2 a b) =? a)).
  vm_compute. reflexivity.
Qed.

(** The second octet takes the low four bits of the second sextet and the
    middle four of the third: the first and third input octets do not reach
    it. *)
Lemma sextet2_low a b :
  byte a -> byte b -> Z.land (sextet2 a b) 15 = Z.land (sextet2 0 b) 15.
Proof.
  intros Ha Hb. apply Z.eqb_eq. revert a b Ha Hb.
  apply (two_bytes (fun a b => Z.land (sextet2 a b) 15 =? Z.land (sextet2 0 b) 15)).
  vm_compute. reflexivity.
Qed.

Lemma sextet3_middle b c :
  byte b -> byte c -> Z.land (sextet3 b c) 60 = Z.land (sextet3 b 0) 60.
Proof.
  intros Hb Hc. apply Z.eqb_eq. revert b c Hb Hc.
  apply (two_bytes (fun b c => Z.land (sextet3 b c) 60 =? Z.land (sextet3 b 0) 60)).
  vm_compute. reflexivity.
Qed.

Lemma octet2_sextets a b c :
  byte a -> byte b -> byte c -> octet2 (sextet2 a b) (sextet3 b c) = b.
Proof.
  intros Ha Hb Hc. unfold octet2.
  rewrite (sextet2_low a b), (sextet3_middle b c) by assumption.
  change (octet2 (sextet2 0 b) (sextet3 b 0) = b).
  apply Z.eqb_eq. revert b Hb.
  apply (one_byte (fun b => octet2 (sextet2 0 b) (sextet3 b 0) =? b)).
  vm_compute. reflexivity.
Qed.

Lemma octet3_sextets b c : byte b -> byte c -> octet3 (sextet3 b c) (sextet4 c) = c.
Proof.
  intros Hb Hc. apply Z.eqb_eq. revert b c Hb Hc.
  apply (two_bytes (fun b c => octet3 (sextet3 b c) (sextet4 c) =? c)).
  vm_compute. reflexivity.
Qed.

Lemma list_ind3 {A} (P : list A -> Prop) :
  P [] -> (forall a, P [a]) -> (forall a b, P [a; b]) ->
  (forall a b c l, P l -> P (a :: b :: c :: l)) ->
  forall l, P l.
Proof.
  intros H0 H1 H2 H3 l.
  assert (H : P l /\ (forall a, P (a :: l)) /\ (forall a b, P (a :: b :: l))).
  { induction l as [|x l [IH0 [IH1 IH2]]].
    - auto.
    - split; [apply IH1|]. split; [intros a; apply IH2|]. intros a b. apply H3, IH0. }
  apply H.
Qed.

Lemma byte_0 : byte 0.
Proof. unfold byte. lia. Qed.

Theorem base64_decode_encode bs :
  Forall byte bs -> base64_decode (base64_encode bs) = bs.
Proof.
  unfold base64_decode. induction bs as [|a|a b|a b c bs IH] using list_ind3; intros H.
  - reflexivity.
  - apply Forall_byte_cons in H as [Ha _]. pose proof byte_0 as H0.
    cbn [base64_encode].
    rewrite !sextets_cons by auto using sextet1_range, sextet2_range.
    cbn [base64_sextets unbase64 base64_groups]. change (base64_sextets (pad_char :: [pad_char])) with (@nil Z).
    cbn [base64_groups]. now rewrite octet1_sextets.
  - apply Forall_byte_cons in H as [Ha H]. apply Forall_byte_cons in H as [Hb _].
    pose proof byte_0 as H0. cbn [base64_encode].
    rewrite !sextets_cons by auto using sextet1_range, sextet2_range, sextet3_range.
    change (base64_sextets [pad_char]) with (@nil Z). cbn [base64_groups].
    now rewrite octet1_sextets, octet2_sextets.
  - apply Forall_byte_cons in H as [Ha H]. apply Forall_byte_cons in H as [Hb H].
    apply Forall_byte_cons in H as [Hc H]. cbn [base64_encode].
    rewrite !sextets_cons
      by auto using sextet1_range, sextet2_range, sextet3_range, sextet4_range.
    cbn [base64_groups].
    rewrite octet1_sextets, octet2_sextets, octet3_sextets by assumption.
    now rewrite IH.
Qed.

Lemma base64_encode_inj bs bs' :
  Forall byte bs -> Forall byte bs' -> base64_encode bs = base64_encode bs' -> bs = bs'.
Proof.
  intros H H' E. rewrite <- (base64_decode_encode bs), <- (base64_decode_encode bs') by assumption.
  now rewrite E.
Qed.

Lemma base64_encode_nonempty bs : bs <> [] -> base64_encode bs <> [].
Proof. destruct bs as [|a [|b [|c bs]]]; cbn [base64_encode]; congruence. Qed.

(** ** Bit operations as arithmetic *)

Ltac dlia := Z.div_mod_to_equations; lia.

Lemma lor_disjoint x y : Z.land x y = 0 -> Z.lor x y = x + y.
Proof. intros H. pose proof (Z.add_lor_land x y). lia. Qed.

Lemma land_shiftl_low x y n :
  0 <= n -> 0 <= y < 2 ^ n -> Z.land (Z.shiftl x n) y = 0.
Proof.
  intros Hn Hy. apply Z.bits_inj'. intros k Hk.
  rewrite Z.land_spec, Z.bits_0.
  destruct (Z.lt_ge_cases k n) as [Hlt|Hge].
  - now rewrite Z.shiftl_spec_low.
  - destruct (Z.eq_dec y 0) as [->|Hy0].
    + now rewrite Z.bits_0, andb_false_r.
    + rewrite (Z.bits_above_log2 y k), andb_false_r; [reflexivity|lia|].
      apply Z.lt_le_trans with n; [|assumption].
      apply Z.log2_lt_pow2; lia.
Qed.

Lemma lor_shiftl x y n :
  0 <= n -> 0 <= y < 2 ^ n -> Z.lor (Z.shiftl x n) y = x * 2 ^ n + y.
Proof.
  intros Hn Hy. rewrite lor_disjoint by now apply land_shiftl_low.
  now rewrite Z.shiftl_mul_pow2.
Qed.

Lemma join6 x y : 0 <= y < 64 -> Z.lor (Z.shiftl x 6) y = 64 * x + y.
Proof.
  intros Hy. rewrite (lor_shiftl x y 6); change (2 ^ 6) with 64; lia.
Qed.

Lemma low6 x : Z.land x 0x3F = x mod 64.
Proof. change 0x3F with (Z.ones 6). now rewrite Z.land_ones. Qed.

Lemma low5 x : Z.land x 0x1F = x mod 32.
Proof. change 0x1F with (Z.ones 5). now rewrite Z.land_ones. Qed.

Lemma low4 x : Z.land x 0xF = x mod 16.
Proof. change 0xF with (Z.ones 4). now rewrite Z.land_ones. Qed.

Lemma low3 x : Z.land x 0x7 = x mod 8.
Proof. change 0x7 with (Z.ones 3). now rewrite Z.land_ones. Qed.

Lemma lor_tag c n k y :
  k = c * 2 ^ n -> 0 <= n -> 0 <= y < 2 ^ n -> Z.lor k y = k + y.
Proof.
  intros -> Hn Hy. rewrite <- Z.shiftl_mul_pow2 by assumption.
  rewrite lor_shiftl by assumption. now rewrite Z.shiftl_mul_pow2.
Qed.

Lemma tag_cont y : 0 <= y < 64 -> Z.lor 0x80 y = 0x80 + y.
Proof. intros Hy. apply (lor_tag 1 7); [reflexivity|lia|change (2 ^ 7) with 128; lia]. Qed.

Lemma tag_lead2 x : 0 <= x < 32 -> Z.lor 0xC0 x = 0xC0 + x.
Proof. intros Hx. apply (lor_tag 3 6); [reflexivity|lia|change (2 ^ 6) with 64; lia]. Qed.

Lemma tag_lead3 x : 0 <= x < 16 -> Z.lor 0xE0 x = 0xE0 + x.
Proof. intros Hx. apply (lor_tag 7 5); [reflexivity|lia|change (2 ^ 5) with 32; lia]. Qed.

Lemma tag_lead4 x : 0 <= x < 8 -> Z.lor 0xF0 x = 0xF0 + x.
Proof. intros Hx. apply (lor_tag 15 4); [reflexivity|lia|change (2 ^ 4) with 16; lia]. Qed.

Lemma untag_cont y : 0 <= y < 64 -> Z.land (0x80 + y) 0x3F = y.
Proof. intros Hy. rewrite low6. dlia. Qed.

Lemma untag_lead2 x : 0 <= x < 32 -> Z.land (0xC0 + x) 0x1F = x.
Proof. intros Hx. rewrite low5. dlia. Qed.

Lemma untag_lead3 x : 0 <= x < 16 -> Z.land (0xE0 + x) 0xF = x.
Proof. intros Hx. rewrite low4. dlia. Qed.

Lemma untag_lead4 x : 0 <= x < 8 -> Z.land (0xF0 + x) 0x7 = x.
Proof. intros Hx. rewrite low3. dlia. Qed.

(** ** UTF-8: decoding what was encoded *)

Lemma is_scalar_range cp :
  is_scalar cp = true <-> (0 <= cp < 0xD800 \/ 0xE000 <= cp <= 0x10FFFF).
Proof. unfold is_scalar, is_surrogate. lia. Qed.

(** Settles the comparisons of the decoder once the bytes are known. *)
Ltac decide_tests :=
  repeat match goal with
    | |- context [?a <=? ?b] => destruct (Z.leb_spec a b); try lia
    | |- context [?a <? ?b] => destruct (Z.ltb_spec a b); try lia
    | |- context [?a =? ?b] => destruct (Z.eqb_spec a b); try lia
    end.

Ltac run_decoder :=
  repeat first
    [ progress cbn [utf8_run app u_needed u_seen u_lower u_upper u_code_point
                    utf8_init andb orb negb]
    | progress unfold utf8_step, utf8_lead
    | progress decide_tests ].

(** The four shapes of an encoded scalar value, read back. *)
Lemma utf8_run_ascii c rest :
  0 <= c <= 0x7F -> utf8_run utf8_init (c :: rest) = c :: utf8_run utf8_init rest.
Proof. intros H. run_decoder. reflexivity. Qed.

Lemma utf8_run_two x y rest :
  2 <= x < 32 -> 0 <= y < 64 ->
  utf8_run utf8_init (0xC0 + x :: 0x80 + y :: rest)
  = 64 * x + y :: utf8_run utf8_init rest.
Proof.
  intros Hx Hy. run_decoder.
  now rewrite untag_lead2, untag_cont, join6 by lia.
Qed.

Lemma utf8_run_three x y z rest :
  0 <= x < 16 -> 0 <= y < 64 -> 0 <= z < 64 ->
  0x800 <= 4096 * x + 64 * y + z ->
  is_surrogate (4096 * x + 64 * y + z) = false ->
  utf8_run utf8_init (0xE0 + x :: 0x80 + y :: 0x80 + z :: rest)
  = 4096 * x + 64 * y + z :: utf8_run utf8_init rest.
Proof.
  intros Hx Hy Hz Hlow Hs. unfold is_surrogate in Hs.
  run_decoder;
    rewrite untag_lead3, !untag_cont, !join6 by lia; f_equal; lia.
Qed.

Lemma utf8_run_four w x y z rest :
  0 <= w < 8 -> 0 <= x < 64 -> 0 <= y < 64 -> 0 <= z < 64 ->
  0x10000 <= 262144 * w + 4096 * x + 64 * y + z <= 0x10FFFF ->
  utf8_run utf8_init (0xF0 + w :: 0x80 + x :: 0x80 + y :: 0x80 + z :: rest)
  = 262144 * w + 4096 * x + 64 * y + z :: utf8_run utf8_init rest.
Proof.
  intros Hw Hx Hy Hz Hr.
  run_decoder;
    rewrite untag_lead4, !untag_cont, !join6 by lia; f_equal; lia.
Qed.

Lemma cont_byte y : 0 <= y -> Z.lor 0x80 (Z.land y 0x3F) = 0x80 + y mod 64.
Proof. intros Hy. rewrite low6, tag_cont; [reflexivity|]. apply Z.mod_pos_bound. lia. Qed.

Lemma utf8_run_encode_cp cp rest :
  is_scalar cp = true ->
  utf8_run utf8_init (utf8_encode_cp cp ++ rest) = cp :: utf8_run utf8_init rest.
Proof.
  intros H. pose proof (proj1 (is_scalar_range cp) H) as Hr.
  unfold utf8_encode_cp.
  destruct (Z.leb_spec cp 0x7F); [apply utf8_run_ascii; lia|].
  destruct (Z.leb_spec cp 0x7FF).
  { rewrite Z.shiftr_div_pow2, cont_byte, tag_lead2 by dlia. change (2 ^ 6) with 64.
    cbn [app]. rewrite utf8_run_two by dlia. f_equal. dlia. }
  destruct (Z.leb_spec cp 0xFFFF).
  { rewrite !Z.shiftr_div_pow2, !cont_byte, tag_lead3 by dlia.
    change (2 ^ 6) with 64. change (2 ^ 12) with 4096. cbn [app].
    assert (E : 4096 * (cp / 4096) + 64 * ((cp / 64) mod 64) + cp mod 64 = cp) by dlia.
    rewrite utf8_run_three; rewrite ?E; try dlia.
    - reflexivity.
    - unfold is_surrogate. lia. }
  rewrite !Z.shiftr_div_pow2, !cont_byte, tag_lead4 by dlia.
  change (2 ^ 6) with 64. change (2 ^ 12) with 4096. change (2 ^ 18) with 262144.
  cbn [app].
  assert (E : 262144 * (cp / 262144) + 4096 * ((cp / 4096) mod 64)
              + 64 * ((cp / 64) mod 64) + cp mod 64 = cp) by dlia.
  rewrite utf8_run_four; rewrite ?E; try dlia. reflexivity.
Qed.

Lemma utf8_encode_cp_bytes cp : is_scalar cp = true -> Forall byte (utf8_encode_cp cp).
Proof.
  intros H. apply is_scalar_range in H. unfold utf8_encode_cp, byte.
  destruct (Z.leb_spec cp 0x7F); [repeat constructor; lia|].
  destruct (Z.leb_spec cp 0x7FF).
  { rewrite Z.shiftr_div_pow2, cont_byte, tag_lead2 by dlia. change (2 ^ 6) with 64.
    repeat constructor; dlia. }
  destruct (Z.leb_spec cp 0xFFFF).
  { rewrite !Z.shiftr_div_pow2, !cont_byte, tag_lead3 by dlia.
    change (2 ^ 6) with 64. change (2 ^ 12) with 4096.
    repeat constructor; dlia. }
  rewrite !Z.shiftr_div_pow2, !cont_byte, tag_lead4 by dlia.
  change (2 ^ 6) with 64. change (2 ^ 12) with 4096. change (2 ^ 18) with 262144.
  repeat constructor; dlia.
Qed.

Lemma utf8_run_encode cps :
  Forall (fun cp => is_scalar cp = true) cps ->
  utf8_run utf8_init (flat_map utf8_encode_cp cps) = cps.
Proof.
  induction 1 as [|cp cps Hcp _ IH]; [reflexivity|].
  cbn [flat_map]. now rewrite utf8_run_encode_cp, IH.
Qed.

Lemma to_scalar_is_scalar cp : 0 <= cp <= 0x10FFFF -> is_scalar (to_scalar cp) = true.
Proof.
  intros H. unfold to_scalar. destruct (is_surrogate cp) eqn:E; [reflexivity|].
  unfold is_scalar. rewrite E. lia.
Qed.

(** Induction along the code points of a well-formed string. *)
Lemma well_formed_ind (P : list Z -> Prop) :
  P [] ->
  (forall c s, is_code_unit c = true -> is_surrogate c = false ->
               well_formed s = true -> P s -> P (c :: s)) ->
  (forall hi lo s, is_high_surrogate hi = true -> is_low_surrogate lo = true ->
                   well_formed s = true -> P s -> P (hi :: lo :: s)) ->
  forall s, well_formed s = true -> P s.
Proof.
  intros Hnil Hone Hpair s.
  remember (length s) as n eqn:Hn. revert s Hn.
  induction n as [n IH] using lt_wf_ind. intros s Hn Hwf.
  destruct s as [|c s]; [exact Hnil|].
  cbn [well_formed] in Hwf. destruct (is_high_surrogate c) eqn:Hc.
  - destruct s as [|d s]; [discriminate|].
    apply andb_true_iff in Hwf as [Hd Hwf].
    apply Hpair; try assumption. apply (IH (length s)); [cbn in Hn; lia|reflexivity|assumption].
  - apply andb_true_iff in Hwf as [Hcu Hwf]. apply andb_true_iff in Hcu as [Hcu Hlo].
    apply Hone; try assumption.
    + unfold is_surrogate, is_high_surrogate, is_low_surrogate in *. lia.
    + apply (IH (length s)); [cbn in Hn; lia|reflexivity|assumption].
Qed.

Lemma pair_code_point_range hi lo :
  is_high_surrogate hi = true -> is_low_surrogate lo = true ->
  0x10000 <= pair_code_point hi lo <= 0x10FFFF.
Proof.
  unfold is_high_surrogate, is_low_surrogate, pair_code_point. intros Hh Hl.
  rewrite Z.shiftl_mul_pow2 by lia. change (2 ^ 10) with 1024. lia.
Qed.

Lemma utf16_encode_pair hi lo :
  is_high_surrogate hi = true -> is_low_surrogate lo = true ->
  utf16_encode_cp (pair_code_point hi lo) = [hi; lo].
Proof.
  intros Hh Hl. pose proof (pair_code_point_range hi lo Hh Hl) as Hr.
  unfold utf16_encode_cp. destruct (Z.ltb_spec (pair_code_point hi lo) 0x10000); [lia|].
  unfold is_high_surrogate, is_low_surrogate, pair_code_point in *.
  rewrite Z.shiftr_div_pow2, Z.shiftl_mul_pow2 by lia.
  change 0x3FF with (Z.ones 10). rewrite Z.land_ones by lia.
  change (2 ^ 10) with 1024. f_equal; [|f_equal]; dlia.
Qed.

(** What a well-formed string is made of survives the two conversions. *)
Lemma well_formed_code_points s :
  well_formed s = true ->
  Forall (fun cp => is_scalar cp = true) (StringToCodePoints s)
  /\ map to_scalar (StringToCodePoints s) = StringToCodePoints s
  /\ CodePointsToString (StringToCodePoints s) = s.
Proof.
  revert s. apply well_formed_ind;
    [|intros c s Hcu Hs Hwf (IH1 & IH2 & IH3)|intros hi lo s Hh Hl Hwf (IH1 & IH2 & IH3)].
  - repeat split; constructor.
  - assert (Hhi : is_high_surrogate c = false).
    { unfold is_surrogate, is_high_surrogate in *. lia. }
    assert (Hsc : is_scalar c = true).
    { unfold is_scalar, is_code_unit in *. rewrite Hs. lia. }
    cbn [StringToCodePoints]. rewrite Hhi. repeat split.
    + now constructor.
    + cbn [map]. unfold to_scalar at 1. now rewrite Hs, IH2.
    + unfold CodePointsToString in *. cbn [flat_map]. rewrite IH3.
      unfold utf16_encode_cp, is_code_unit in *.
      destruct (Z.ltb_spec c 0x10000); [reflexivity|lia].
  - pose proof (pair_code_point_range hi lo Hh Hl) as Hr.
    assert (Hsc : is_scalar (pair_code_point hi lo) = true).
    { unfold is_scalar, is_surrogate. lia. }
    cbn [StringToCodePoints]. rewrite Hh, Hl. repeat split.
    + now constructor.
    + cbn [map]. rewrite IH2. f_equal. unfold to_scalar, is_surrogate.
      destruct (_ && _) eqn:E; [lia|reflexivity].
    + unfold CodePointsToString in *. cbn [flat_map].
      now rewrite IH3, utf16_encode_pair.
Qed.

Lemma utf8_encode_well_formed s :
  well_formed s = true -> utf8_encode s = flat_map utf8_encode_cp (StringToCodePoints s).
Proof.
  intros H. destruct (well_formed_code_points s H) as (_ & Hm & _).
  unfold utf8_encode. rewrite <- Hm at 2. now rewrite flat_map_concat_map, flat_map_concat_map, map_map.
Qed.

Lemma utf8_encode_bytes s : well_formed s = true -> Forall byte (utf8_encode s).
Proof.
  intros H. rewrite utf8_encode_well_formed by assumption.
  destruct (well_formed_code_points s H) as (Hsc & _ & _).
  induction Hsc as [|cp cps Hcp _ IH]; [constructor|].
  cbn [flat_map]. apply Forall_app. split; [now apply utf8_encode_cp_bytes|exact IH].
Qed.

Lemma utf8_decode_encode s :
  well_formed s = true -> utf8_decode_code_points (utf8_encode s) = StringToCodePoints s.
Proof.
  intros H. rewrite utf8_encode_well_formed by assumption.
  destruct (well_formed_code_points s H) as (Hsc & _ & _).
  now apply utf8_run_encode.
Qed.

(** [buf.toString("utf8")] gives back the string the buffer was made from. *)
Lemma buffer_toString_utf8_encode s :
  well_formed s = true -> buffer_toString_utf8 (utf8_encode s) = s.
Proof.
  intros H. unfold buffer_toString_utf8. rewrite utf8_decode_encode by assumption.
  now destruct (well_formed_code_points s H) as (_ & _ & ?).
Qed.

Lemma strip_bom_code_points s :
  well_formed s = true ->
  CodePointsToString (strip_bom (StringToCodePoints s)) = strip_bom s.
Proof.
  intros H. destruct (well_formed_code_points s H) as (_ & _ & E).
  destruct s as [|c s]; [reflexivity|].
  assert (Hhead : strip_bom (StringToCodePoints (c :: s))
                  = if c =? 0xFEFF then StringToCodePoints s
                    else StringToCodePoints (c :: s)).
  { cbn [StringToCodePoints]. destruct (is_high_surrogate c) eqn:Hc.
    - destruct (Z.eqb_spec c 0xFEFF); [unfold is_high_surrogate in Hc; lia|].
      destruct s as [|d s]; [cbn [strip_bom]; now destruct (Z.eqb_spec c 0xFEFF)|].
      destruct (is_low_surrogate d) eqn:Hd; cbn [strip_bom].
      + pose proof (pair_code_point_range c d Hc Hd).
        destruct (Z.eqb_spec (pair_code_point c d) 0xFEFF); [lia|reflexivity].
      + now destruct (Z.eqb_spec c 0xFEFF).
    - reflexivity. }
  rewrite Hhead. cbn [strip_bom]. destruct (Z.eqb_spec c 0xFEFF) as [->|Hc]; [|exact E].
  apply well_formed_code_points. cbn [well_formed] in H.
  change (is_high_surrogate 0xFEFF) with false in H. cbn iota in H.
  now apply andb_true_iff in H as [_ H].
Qed.

(** [TextDecoder] gives back the string but for a leading U+FEFF. *)
Lemma TextDecoder_decode_encode s :
  well_formed s = true -> TextDecoder_decode (utf8_encode s) = strip_bom s.
Proof.
  intros H. unfold TextDecoder_decode. rewrite utf8_decode_encode by assumption.
  now apply strip_bom_code_points.
Qed.

(** ** The XOR loop *)

Lemma byte_high_bits x n : byte x -> 8 <= n -> Z.testbit x n = false.
Proof.
  intros Hx Hn. unfold byte in Hx.
  rewrite <- (Z.mod_small x (2 ^ 8)) by (change (2 ^ 8) with 256; lia).
  apply Z.mod_pow2_bits_high. lia.
Qed.

Lemma mod256_bits x n : 0 <= n ->
  Z.testbit (x mod 256) n = if n <? 8 then Z.testbit x n else false.
Proof.
  intros Hn. change 256 with (2 ^ 8). destruct (Z.ltb_spec n 8).
  - apply Z.mod_pow2_bits_low. lia.
  - apply Z.mod_pow2_bits_high. lia.
Qed.

(** Applying the same key and nonce bytes twice gives the byte back,
    whatever they are. *)
Lemma xor_twice x k n :
  byte x -> Z.lxor (Z.lxor (Z.lxor (Z.lxor x k) n mod 256) k) n mod 256 = x.
Proof.
  intros Hx. apply Z.bits_inj'. intros i Hi.
  rewrite mod256_bits by assumption. destruct (Z.ltb_spec i 8).
  - rewrite !Z.lxor_spec, mod256_bits by assumption.
    destruct (Z.ltb_spec i 8); [|lia]. rewrite !Z.lxor_spec.
    now destruct (Z.testbit x i), (Z.testbit k i), (Z.testbit n i).
  - symmetry. now apply byte_high_bits.
Qed.

(** Two nonce bytes that give the same output byte are equal. *)
Lemma xor_cancel x a b :
  byte a -> byte b -> Z.lxor x a mod 256 = Z.lxor x b mod 256 -> a = b.
Proof.
  intros Ha Hb E. apply Z.bits_inj'. intros i Hi.
  destruct (Z.ltb_spec i 8).
  - assert (Ei : Z.testbit (Z.lxor x a mod 256) i = Z.testbit (Z.lxor x b mod 256) i)
      by now rewrite E.
    rewrite !mod256_bits in Ei by assumption.
    destruct (Z.ltb_spec i 8); [|lia]. rewrite !Z.lxor_spec in Ei.
    now destruct (Z.testbit x i), (Z.testbit a i), (Z.testbit b i).
  - now rewrite !byte_high_bits.
Qed.

Lemma mod256_byte x : byte (x mod 256).
Proof. unfold byte. apply Z.mod_pos_bound. lia. Qed.

Lemma xor_stream_length data k n : length (xor_stream data k n) = length data.
Proof. unfold xor_stream. apply length_imap. Qed.

Lemma xor_stream_lookup data k n i :
  xor_stream data k n !! i
  = (fun d => Z.lxor (Z.lxor d (nth (i mod length k) k 0)) (nth (i mod length n) n 0) mod 256)
      <$> data !! i.
Proof. unfold xor_stream. apply list_lookup_imap. Qed.

Lemma xor_stream_bytes data k n : Forall byte (xor_stream data k n).
Proof.
  apply Forall_lookup. intros i x Hx. rewrite xor_stream_lookup in Hx.
  destruct (data !! i); [|discriminate]. injection Hx as <-. apply mod256_byte.
Qed.

Lemma xor_stream_involutive data k n :
  Forall byte data -> xor_stream (xor_stream data k n) k n = data.
Proof.
  intros Hd. apply list_eq. intros i. rewrite !xor_stream_lookup.
  destruct (data !! i) as [x|] eqn:Hx; [|reflexivity].
  cbn [fmap option_fmap option_map]. f_equal. apply xor_twice.
  eapply Forall_lookup_1; eassumption.
Qed.

Lemma xor_stream_nonempty data k n : data <> [] -> xor_stream data k n <> [].
Proof.
  intros Hd E. apply Hd. apply length_zero_iff_nil.
  now rewrite <- (xor_stream_length data k n), E.
Qed.

(** ** Drawing random bytes *)

Lemma next_bytes_length n g : length (next_bytes n g) = n.
Proof. unfold next_bytes. now rewrite length_map, length_seq. Qed.

Lemma next_bytes_bytes n g : Forall byte (next_bytes n g).
Proof.
  unfold next_bytes. apply Forall_forall. intros x Hx.
  apply list_elem_of_In, in_map_iff in Hx as (i & <- & _). apply mod256_byte.
Qed.

Lemma next_bytes_nonempty n g : (0 < n)%nat -> next_bytes n g <> [].
Proof.
  intros Hn E. pose proof (next_bytes_length n g) as L. rewrite E in L. cbn in L. lia.
Qed.

(** ** encrypt and decrypt *)

Lemma nonce_of_length g : length (nonce_of g) = IV_LENGTH.
Proof. apply next_bytes_length. Qed.

Lemma nonce_of_bytes g : Forall byte (nonce_of g).
Proof. apply next_bytes_bytes. Qed.

Lemma tag_of_length g : length (tag_of g) = TAG_LENGTH.
Proof. apply next_bytes_length. Qed.

Lemma tag_of_bytes g : Forall byte (tag_of g).
Proof. apply next_bytes_bytes. Qed.

Lemma encrypt_returns p k g :
  p <> [] -> length k = KEY_LENGTH ->
  encrypt (VStr p) k g
  = (Return (envelope p k (nonce_of g) (tag_of g)), advance TAG_LENGTH (advance IV_LENGTH g)).
Proof.
  intros Hp Hk. destruct p as [|c p]; [congruence|].
  unfold encrypt. rewrite Hk, Nat.eqb_refl. reflexivity.
Qed.

Lemma utf8_encode_cp_nonempty cp : utf8_encode_cp cp <> [].
Proof.
  unfold utf8_encode_cp.
  destruct (cp <=? 0x7F), (cp <=? 0x7FF), (cp <=? 0xFFFF); discriminate.
Qed.

Lemma utf8_encode_nonempty p : p <> [] -> utf8_encode p <> [].
Proof.
  intros Hp. destruct p as [|c p]; [congruence|]. unfold utf8_encode.
  assert (H : exists cp cps, StringToCodePoints (c :: p) = cp :: cps).
  { cbn [StringToCodePoints]. destruct (is_high_surrogate c); [|eauto].
    destruct p as [|d p]; [eauto|]. destruct (is_low_surrogate d); eauto. }
  destruct H as (cp & cps & ->). cbn [flat_map].
  pose proof (utf8_encode_cp_nonempty (to_scalar cp)).
  destruct (utf8_encode_cp (to_scalar cp)); [congruence|discriminate].
Qed.

Lemma truthy_string_nonempty s : s <> [] -> truthy_string s = true.
Proof. destruct s; [congruence|reflexivity]. Qed.

(** [decrypt] on an envelope of [encrypt], with any key of the right length:
    no check stands between the key and the output. *)
Lemma decrypt_seal p k k' nonce tag :
  p <> [] -> length k' = KEY_LENGTH ->
  length nonce = IV_LENGTH -> Forall byte nonce ->
  length tag = TAG_LENGTH -> Forall byte tag ->
  decrypt (envelope p k nonce tag) k'
  = Return (TextDecoder_decode (xor_stream (xor_stream (utf8_encode p) k nonce) k' nonce)).
Proof.
  intros Hp Hk Hn Bn Ht Bt. unfold decrypt, envelope. cbn [encrypted iv authTag].
  rewrite !truthy_string_nonempty.
  2:{ apply base64_encode_nonempty. intros ->. discriminate. }
  2:{ apply base64_encode_nonempty. intros ->. discriminate. }
  2:{ apply base64_encode_nonempty, xor_stream_nonempty, utf8_encode_nonempty, Hp. }
  cbn [negb orb]. rewrite Hk, Nat.eqb_refl. cbn [negb].
  rewrite !base64_decode_encode by auto using xor_stream_bytes.
  rewrite Hn, Ht, !Nat.eqb_refl. reflexivity.
Qed.

(** ** Claims about the cipher engine *)

(** What [decrypt] makes of an envelope of [encrypt]: for every non-empty
    well-formed string P (16-bit code units, no unpaired surrogate) and every
    32-byte key K, encrypt(P, K) returns an envelope and decrypt of it under K
    returns what [new TextDecoder()] reads from the UTF-8 bytes of P, which is
    P when P does not begin with U+FEFF. *)
Theorem decrypt_encrypt_round_trip (P : list Z) (K : list Z) (g : rng) :
  P <> [] -> well_formed P = true -> length K = KEY_LENGTH ->
  exists sealed g',
    encrypt (VStr P) K g = (Return sealed, g')
    /\ decrypt sealed K = Return (strip_bom P)
    /\ (hd 0 P <> 0xFEFF -> decrypt sealed K = Return P).
Proof.
  intros HP Hwf HK. eexists _, _. split; [now apply encrypt_returns|].
  assert (E : decrypt (envelope P K (nonce_of g) (tag_of g)) K = Return (strip_bom P)).
  { rewrite decrypt_seal
      by auto using nonce_of_length, nonce_of_bytes, tag_of_length, tag_of_bytes.
    rewrite xor_stream_involutive by now apply utf8_encode_bytes.
    now rewrite TextDecoder_decode_encode. }
  split; [exact E|]. intros Hhd. rewrite E. f_equal.
  destruct P as [|c P]; [congruence|]. cbn [strip_bom hd] in *.
  destruct (Z.eqb_spec c 0xFEFF); [contradiction|reflexivity].
Qed.

(** C9. For every non-empty string P and every 32-byte key K, the
    [encrypted] field of the envelope of encrypt(P, K) base64-decodes to as
    many bytes as the UTF-8 encoding of P has. *)
Theorem ciphertext_length_is_plaintext_length (P : list Z) (K : list Z) (g : rng) :
  P <> [] -> length K = KEY_LENGTH ->
  exists sealed g',
    encrypt (VStr P) K g = (Return sealed, g')
    /\ length (base64_decode (encrypted sealed)) = length (utf8_encode P).
Proof.
  intros HP HK. eexists _, _. split; [now apply encrypt_returns|].
  cbn [envelope encrypted]. rewrite base64_decode_encode by apply xor_stream_bytes.
  apply xor_stream_length.
Qed.

(** [decrypt] returns a string for every key of 32 bytes and every tag of
    16: neither takes part in a check. *)
Lemma decrypt_accepts_any_key_and_tag P K K' tag g :
  P <> [] -> length K = KEY_LENGTH -> length K' = KEY_LENGTH ->
  length tag = TAG_LENGTH -> Forall byte tag ->
  exists sealed g' s,
    encrypt (VStr P) K g = (Return sealed, g')
    /\ decrypt sealed K' = Return s
    /\ decrypt {| encrypted := encrypted sealed; iv := iv sealed; authTag := base64_encode tag |} K
       = decrypt sealed K.
Proof.
  intros HP HK HK' Ht Bt. eexists _, _, _. split; [now apply encrypt_returns|].
  split.
  - apply decrypt_seal; auto using nonce_of_length, nonce_of_bytes, tag_of_length, tag_of_bytes.
  - change {| encrypted := encrypted (envelope P K (nonce_of g) (tag_of g));
              iv := iv (envelope P K (nonce_of g) (tag_of g));
              authTag := base64_encode tag |}
      with (envelope P K (nonce_of g) tag).
    now rewrite !decrypt_seal
      by auto using nonce_of_length, nonce_of_bytes, tag_of_length, tag_of_bytes.
Qed.

Lemma nth_byte (l : list Z) i : Forall byte l -> byte (nth i l 0).
Proof.
  intros H. destruct (nth_in_or_default i l 0) as [Hin | ->]; [|apply byte_0].
  rewrite Forall_forall in H. apply H. now apply list_elem_of_In.
Qed.

(** Two runs of the XOR loop over the same data and key agree exactly when
    the nonces agree wherever the loop reads them. *)
Lemma xor_stream_eq_iff data k n1 n2 :
  Forall byte n1 -> Forall byte n2 -> length n1 = length n2 ->
  xor_stream data k n1 = xor_stream data k n2
  <-> forall i, (i < length data)%nat ->
                nth (i mod length n1) n1 0 = nth (i mod length n1) n2 0.
Proof.
  intros B1 B2 L. split.
  - intros E i Hi. destruct (lookup_lt_is_Some_2 data i Hi) as [x Hx].
    assert (Ei : xor_stream data k n1 !! i = xor_stream data k n2 !! i) by now rewrite E.
    rewrite !xor_stream_lookup, Hx in Ei. cbn in Ei. injection Ei as Ei.
    rewrite <- L in Ei. eapply xor_cancel; [| |exact Ei]; now apply nth_byte.
  - intros H. apply list_eq. intros i. rewrite !xor_stream_lookup.
    destruct (data !! i) as [x|] eqn:Hx; [|reflexivity]. cbn. do 2 f_equal.
    rewrite <- L. rewrite H; [reflexivity|]. eapply lookup_lt_Some, Hx.
Qed.

(** C8 (amended). For the same non-empty P and 32-byte key K, two calls of
    encrypt return envelopes whose nonce fields are equal exactly when the
    nonces drawn are equal, whose tag fields are equal exactly when the tags
    drawn are equal, and whose ciphertext fields are equal exactly when the
    two nonces agree at every position i mod 12 for i below the UTF-8 length
    of P. *)
Theorem encrypt_twice (P : list Z) (K : list Z) (g1 g2 : rng) :
  P <> [] -> length K = KEY_LENGTH ->
  exists e1 e2 g1' g2',
    encrypt (VStr P) K g1 = (Return e1, g1')
    /\ encrypt (VStr P) K g2 = (Return e2, g2')
    /\ (iv e1 = iv e2 <-> nonce_of g1 = nonce_of g2)
    /\ (authTag e1 = authTag e2 <-> tag_of g1 = tag_of g2)
    /\ (encrypted e1 = encrypted e2
        <-> forall i, (i < length (utf8_encode P))%nat ->
                      nth (i mod IV_LENGTH) (nonce_of g1) 0
                      = nth (i mod IV_LENGTH) (nonce_of g2) 0).
Proof.
  intros HP HK. eexists _, _, _, _.
  split; [now apply encrypt_returns|]. split; [now apply encrypt_returns|].
  cbn [envelope iv authTag encrypted]. repeat split.
  - apply base64_encode_inj; apply nonce_of_bytes.
  - now intros ->.
  - apply base64_encode_inj; apply tag_of_bytes.
  - now intros ->.
  - intros E. apply base64_encode_inj in E; try apply xor_stream_bytes.
    rewrite <- (nonce_of_length g1).
    apply (xor_stream_eq_iff (utf8_encode P) K); auto using nonce_of_bytes.
  - intros H. f_equal.
    apply xor_stream_eq_iff; auto using nonce_of_bytes.
    all: rewrite ?nonce_of_length; auto.
Qed.

(** ** The batch guard *)

Section BatchGuard.

Context `{UCD : UnicodeData}.

(** C5. Each batch operation compares the length of its input with its
    ceiling before anything else: above the ceiling it throws the error of its
    component (EncryptionError above 50, DecryptionError above 25, Error above
    100 for the two hash batches) whatever the items are, and encryptBatch
    draws no random byte; up to the ceiling the items are processed in
    order. *)
Theorem batch_ceiling_checked_first :
  (forall plaintexts K g,
      (BATCH_LIMITS_ENCRYPTION < length plaintexts)%nat ->
      encryptBatch plaintexts K g
      = (Throw (EncryptionError (batch_message (length plaintexts) 50)), g))
  /\ (forall inputs K,
         (BATCH_LIMITS_DECRYPTION < length inputs)%nat ->
         decryptBatch inputs K
         = Throw (DecryptionError (batch_message (length inputs) 25)))
  /\ (forall dataItems salt,
         (BATCH_LIMITS_HASH_GENERATION < length dataItems)%nat ->
         generateHashBatch dataItems salt
         = Throw (JsError (batch_message (length dataItems) 100)))
  /\ (forall dataItems,
         (BATCH_LIMITS_HASH_GENERATION < length dataItems)%nat ->
         generateDeterministicHashBatch dataItems
         = Throw (JsError (batch_message (length dataItems) 100)))
  /\ (forall plaintexts K,
         (length plaintexts <= BATCH_LIMITS_ENCRYPTION)%nat ->
         encryptBatch plaintexts K = map_rand (fun p => encrypt p K) plaintexts)
  /\ (forall inputs K,
         (length inputs <= BATCH_LIMITS_DECRYPTION)%nat ->
         decryptBatch inputs K = map_result (fun input => decrypt input K) inputs).
Proof.
  repeat split.
  - intros plaintexts K g H. unfold encryptBatch.
    destruct (Nat.ltb_spec BATCH_LIMITS_ENCRYPTION (length plaintexts)); [reflexivity|lia].
  - intros inputs K H. unfold decryptBatch.
    destruct (Nat.ltb_spec BATCH_LIMITS_DECRYPTION (length inputs)); [reflexivity|lia].
  - intros dataItems salt H. unfold generateHashBatch.
    destruct (Nat.ltb_spec BATCH_LIMITS_HASH_GENERATION (length dataItems)); [reflexivity|lia].
  - intros dataItems H. unfold generateDeterministicHashBatch.
    destruct (Nat.ltb_spec BATCH_LIMITS_HASH_GENERATION (length dataItems)); [reflexivity|lia].
  - intros plaintexts K H. unfold encryptBatch.
    destruct (Nat.ltb_spec BATCH_LIMITS_ENCRYPTION (length plaintexts)); [lia|reflexivity].
  - intros inputs K H. unfold decryptBatch.
    destruct (Nat.ltb_spec BATCH_LIMITS_DECRYPTION (length inputs)); [lia|reflexivity].
Qed.

End BatchGuard.

(** ** The key cache *)

Section KeyCache.

Context `{Secrets : SecretStore}.

Lemma Map_set_length (m : list (string * KeyCacheEntry)) k v :
  (length (Map_set k v m) <= S (length m))%nat.
Proof.
  induction m as [|[k' v'] m IH]; cbn [Map_set length]; [lia|].
  destruct (String.eqb k k'); cbn [length]; lia.
Qed.

Lemma Map_delete_length (m : list (string * KeyCacheEntry)) k :
  (length (Map_delete k m) <= length m)%nat.
Proof.
  induction m as [|[k' v'] m IH]; cbn [Map_delete length]; [lia|].
  destruct (String.eqb k k'); cbn [length]; lia.
Qed.

Lemma Map_set_paths (m : list (string * KeyCacheEntry)) k v :
  k <> ""%string -> Forall (fun kv => kv.1 <> ""%string) m ->
  Forall (fun kv => kv.1 <> ""%string) (Map_set k v m).
Proof.
  intros Hk. induction 1 as [|[k' v'] m Hk' Hm IH]; cbn [Map_set].
  - repeat constructor. exact Hk.
  - destruct (String.eqb k k'); constructor; cbn [fst] in *; auto.
Qed.

Lemma Map_delete_paths (m : list (string * KeyCacheEntry)) k :
  Forall (fun kv => kv.1 <> ""%string) m ->
  Forall (fun kv => kv.1 <> ""%string) (Map_delete k m).
Proof.
  induction 1 as [|[k' v'] m Hk' Hm IH]; cbn [Map_delete]; [constructor|].
  destruct (String.eqb k k'); [exact Hm|]. constructor; cbn [fst] in *; auto.
Qed.

(** A path that is not in the map goes to the end: the order of the list
    is the order of insertion. *)
Lemma Map_set_new (m : list (string * KeyCacheEntry)) k v :
  Map_get k m = None -> Map_set k v m = m ++ [(k, v)].
Proof.
  induction m as [|[k' v'] m IH]; cbn [Map_get Map_set app]; [reflexivity|].
  destruct (String.eqb k k'); [discriminate|]. intros H. now rewrite IH.
Qed.

Lemma getCachedKey_ok (m : list (string * KeyCacheEntry)) k now :
  cache_ok m -> cache_ok (getCachedKey k now m).2.
Proof.
  intros [Hp Hl]. unfold getCachedKey. destruct (Map_get k m) as [e|]; [|now split].
  destruct (_ <? _); [|now split]. cbn [snd]. split.
  - now apply Map_delete_paths.
  - pose proof (Map_delete_length m k). lia.
Qed.

Lemma cacheKey_ok (m : list (string * KeyCacheEntry)) k ek now ttl_ms :
  k <> ""%string -> cache_ok m -> cache_ok (cacheKey k ek now ttl_ms m).
Proof.
  intros Hk [Hp Hl]. unfold cacheKey.
  destruct (Nat.leb_spec MAX_CACHE_SIZE (length m)) as [Hfull|Hroom].
  - destruct m as [|[oldest e] rest]; [cbn in Hfull; unfold MAX_CACHE_SIZE in Hfull; lia|].
    apply Forall_cons in Hp as [Ho Hp]. cbn [fst] in Ho.
    destruct (String.eqb_spec oldest ""); [contradiction|].
    cbn [Map_delete]. rewrite String.eqb_refl. split.
    + now apply Map_set_paths.
    + match goal with |- (length (Map_set k ?v rest) <= _)%nat =>
        pose proof (Map_set_length rest k v) end.
      cbn [length] in Hl. lia.
  - split.
    + now apply Map_set_paths.
    + match goal with |- (length (Map_set k ?v m) <= _)%nat =>
        pose proof (Map_set_length m k v) end.
      lia.
Qed.

Lemma getEncryptionKey_ok (m : list (string * KeyCacheEntry)) k now later :
  k <> ""%string -> cache_ok m -> cache_ok (getEncryptionKey k now later m).2.
Proof.
  intros Hk Hm. unfold getEncryptionKey.
  pose proof (getCachedKey_ok m k now Hm) as H.
  destruct (getCachedKey k now m) as [[cached|] m']; cbn [snd] in *; [exact H|].
  destruct (retrieve k); cbn [snd]; [|exact H]. now apply cacheKey_ok.
Qed.

Lemma apply_op_ok (m : list (string * KeyCacheEntry)) op :
  op_path op <> Some ""%string -> cache_ok m -> cache_ok (apply_op m op).
Proof.
  intros Hop Hm. destruct op as [k now later|k ek now ttl_ms|k now|]; cbn [apply_op op_path] in *.
  - apply getEncryptionKey_ok; [congruence|exact Hm].
  - apply cacheKey_ok; [congruence|exact Hm].
  - now apply getCachedKey_ok.
  - split; [constructor|cbn; lia].
Qed.

Lemma run_ops_ok ops (m : list (string * KeyCacheEntry)) :
  Forall (fun op => op_path op <> Some ""%string) ops ->
  cache_ok m -> cache_ok (fold_left apply_op ops m).
Proof.
  intros Hops. revert m. induction Hops as [|op ops Hop _ IH]; intros m Hm; [exact Hm|].
  cbn [fold_left]. apply IH. now apply apply_op_ok.
Qed.

(** C6. Starting from the empty cache, after any sequence of cache
    operations on key paths (insertion, look-up with its lazy expiry,
    retrieval, clearing) the cache holds at most [MAX_CACHE_SIZE] entries;
    an insertion into a full cache first drops the entry at the head of the
    insertion order, and a new path is added at its end. *)
Theorem key_cache_bounded :
  (forall ops,
      Forall (fun op => op_path op <> Some ""%string) ops ->
      (length (fold_left apply_op ops []) <= MAX_CACHE_SIZE)%nat)
  /\ (forall m op,
         op_path op <> Some ""%string -> cache_ok m -> cache_ok (apply_op m op))
  /\ (forall oldest e rest k ek now ttl_ms,
         cache_ok ((oldest, e) :: rest) ->
         length ((oldest, e) :: rest) = MAX_CACHE_SIZE ->
         let entry := {| entry_key := ek; timestamp := now; ttl := ttl_ms |} in
         cacheKey k ek now ttl_ms ((oldest, e) :: rest) = Map_set k entry rest
         /\ (Map_get k rest = None ->
             cacheKey k ek now ttl_ms ((oldest, e) :: rest) = rest ++ [(k, entry)])).
Proof.
  split; [|split].
  - intros ops Hops. apply (run_ops_ok ops []); [exact Hops|].
    split; [constructor|cbn; lia].
  - apply apply_op_ok.
  - intros oldest e rest k ek now ttl_ms [Hp _] Hfull entry.
    assert (E : cacheKey k ek now ttl_ms ((oldest, e) :: rest) = Map_set k entry rest).
    { unfold cacheKey. rewrite Hfull, Nat.leb_refl.
      apply Forall_cons in Hp as [Ho _]. cbn [fst] in Ho.
      destruct (String.eqb_spec oldest ""); [contradiction|].
      cbn [Map_delete]. now rewrite String.eqb_refl. }
    split; [exact E|]. intros Hnew. rewrite E. now apply Map_set_new.
Qed.

End KeyCache.

(** ** Trimming and lowercasing *)

Lemma white_space_facts c :
  is_white_space c = true ->
  is_high_surrogate c = false /\ is_low_surrogate c = false
  /\ (c <? 0x10000) = true /\ is_ascii_upper c = false /\ is_ascii_lower c = false
  /\ (c =? 0x3A3) = false.
Proof.
  unfold is_white_space, is_high_surrogate, is_low_surrogate, is_ascii_upper, is_ascii_lower.
  lia.
Qed.

Lemma white_cons c l : white (c :: l) -> is_white_space c = true /\ white l.
Proof. intros H. inversion H; subst. now split. Qed.

Lemma white_rev l : white l -> white (rev l).
Proof. unfold white. intros H. apply Forall_forall. intros c Hc.
  rewrite Forall_forall in H. apply H. apply list_elem_of_In. apply in_rev.
  now apply list_elem_of_In. Qed.

Lemma trimStart_white l : white l -> trimStart l = [].
Proof. induction 1 as [|c l Hc _ IH]; cbn [trimStart]; [reflexivity|]. now rewrite Hc. Qed.

Lemma trimStart_app_white l s : white l -> trimStart (l ++ s) = trimStart s.
Proof. induction 1 as [|c l Hc _ IH]; cbn [trimStart app]; [reflexivity|]. now rewrite Hc. Qed.

Lemma trimEnd_app_white s r : white r -> trimEnd (s ++ r) = trimEnd s.
Proof.
  intros Hr. unfold trimEnd. rewrite rev_app_distr.
  now rewrite trimStart_app_white by now apply white_rev.
Qed.

Lemma trimStart_app_r s r :
  white r ->
  (trimStart s = [] /\ trimStart (s ++ r) = []) \/ trimStart (s ++ r) = trimStart s ++ r.
Proof.
  intros Hr. induction s as [|c s IH]; cbn [trimStart app].
  - left. split; [reflexivity|now apply trimStart_white].
  - destruct (is_white_space c); [exact IH|now right].
Qed.

Lemma trimEnd_nil : trimEnd [] = [].
Proof. reflexivity. Qed.

(** White space around a string does not survive [trim]. *)
Lemma trim_wrap l s r : white l -> white r -> trim (l ++ s ++ r) = trim s.
Proof.
  intros Hl Hr. unfold trim. rewrite trimStart_app_white by assumption.
  destruct (trimStart_app_r s r Hr) as [[E1 E2]|E].
  - now rewrite E1, E2.
  - rewrite E. now apply trimEnd_app_white.
Qed.

Lemma trim_white l : white l -> trim l = [].
Proof. intros H. unfold trim. now rewrite trimStart_white. Qed.

Lemma same_letter_surrogate a b :
  same_letter a b ->
  is_high_surrogate a = true \/ is_low_surrogate a = true
  \/ is_high_surrogate b = true \/ is_low_surrogate b = true ->
  a = b.
Proof.
  unfold same_letter, is_high_surrogate, is_low_surrogate, is_ascii_upper. lia.
Qed.

Lemma same_letter_flags a b :
  same_letter a b ->
  is_high_surrogate a = is_high_surrogate b /\ is_low_surrogate a = is_low_surrogate b.
Proof.
  unfold same_letter, is_high_surrogate, is_low_surrogate, is_ascii_upper. lia.
Qed.

Lemma StringToCodePoints_white_l l s :
  white l -> StringToCodePoints (l ++ s) = l ++ StringToCodePoints s.
Proof.
  induction 1 as [|c l Hc _ IH]; [reflexivity|].
  apply white_space_facts in Hc as (Hh & _).
  cbn [app StringToCodePoints]. now rewrite Hh, IH.
Qed.

Lemma StringToCodePoints_white l : white l -> StringToCodePoints l = l.
Proof.
  intros H. rewrite <- (app_nil_r l) at 1.
  rewrite StringToCodePoints_white_l by assumption. cbn. apply app_nil_r.
Qed.

Lemma StringToCodePoints_white_r s r :
  white r -> StringToCodePoints (s ++ r) = StringToCodePoints s ++ r.
Proof.
  intros Hr. remember (length s) as n eqn:Hn. revert s Hn.
  induction n as [n IH] using lt_wf_ind. intros s Hn.
  destruct s as [|c s]; [now apply StringToCodePoints_white|].
  cbn [app StringToCodePoints]. cbn [length] in Hn.
  destruct (is_high_surrogate c) eqn:Hc.
  - destruct s as [|d s]; cbn [app].
    + destruct r as [|d r]; [reflexivity|].
      pose proof (white_cons _ _ Hr) as [Hd _].
      apply white_space_facts in Hd as (_ & Hlow & _). rewrite Hlow.
      now rewrite (StringToCodePoints_white (d :: r)).
    + cbn [length] in Hn. destruct (is_low_surrogate d).
      * rewrite (IH (length s)) by (lia || reflexivity). reflexivity.
      * change (d :: s ++ r) with ((d :: s) ++ r).
        rewrite (IH (length (d :: s))) by (cbn [length]; lia || reflexivity). reflexivity.
  - rewrite (IH (length s)) by (lia || reflexivity). reflexivity.
Qed.

Lemma CodePointsToString_white l : white l -> CodePointsToString l = l.
Proof.
  unfold CodePointsToString. induction 1 as [|c l Hc _ IH]; [reflexivity|].
  apply white_space_facts in Hc as (_ & _ & Hc & _).
  cbn [flat_map]. rewrite IH. unfold utf16_encode_cp. now rewrite Hc.
Qed.

Lemma CodePointsToString_app a b :
  CodePointsToString (a ++ b) = CodePointsToString a ++ CodePointsToString b.
Proof. unfold CodePointsToString. apply flat_map_app. Qed.

Lemma StringToCodePoints_same_letter m1 m2 :
  Forall2 same_letter m1 m2 ->
  Forall2 same_letter (StringToCodePoints m1) (StringToCodePoints m2).
Proof.
  remember (length m1) as n eqn:Hn. revert m1 m2 Hn.
  induction n as [n IH] using lt_wf_ind. intros m1 m2 Hn H.
  destruct H as [|c c' s s' Hc Hs]; [constructor|].
  cbn [StringToCodePoints]. cbn [length] in Hn.
  destruct (same_letter_flags c c' Hc) as [Eh _]. rewrite <- Eh.
  destruct (is_high_surrogate c) eqn:Hhigh.
  - assert (c = c') as <- by (apply same_letter_surrogate; auto).
    destruct Hs as [|d d' t t' Hd Ht]; [repeat constructor; now left|].
    cbn [length] in Hn.
    destruct (same_letter_flags d d' Hd) as [_ El]. rewrite <- El.
    destruct (is_low_surrogate d) eqn:Hlow.
    + assert (d = d') as <- by (apply same_letter_surrogate; auto).
      constructor; [now left|]. apply (IH (length t)); [lia|reflexivity|assumption].
    + constructor; [now left|].
      apply (IH (length (d :: t))); [cbn [length]; lia|reflexivity|now constructor].
  - constructor; [assumption|]. apply (IH (length s)); [lia|reflexivity|assumption].
Qed.

(** ** The format of a digest *)

Lemma hex_digit_is_hex v : 0 <= v < 16 -> is_hex_char (hex_digit v) = true.
Proof. unfold is_hex_char, hex_digit. intros H. destruct (Z.ltb_spec v 10); lia. Qed.

Lemma hex_word_format w :
  length (hex_word w) = 8%nat /\ forallb is_hex_char (hex_word w) = true.
Proof.
  split; [reflexivity|]. unfold hex_word. apply forallb_forall. intros c Hc.
  apply in_map_iff in Hc as (i & <- & _). apply hex_digit_is_hex.
  rewrite low4. apply Z.mod_pos_bound. lia.
Qed.

Lemma sha256_hex_format msg :
  length (sha256_hex msg) = 64%nat /\ forallb is_hex_char (sha256_hex msg) = true.
Proof.
  unfold sha256_hex. split.
  - rewrite !length_app. now rewrite !(proj1 (hex_word_format _)).
  - rewrite !forallb_app. now rewrite !(proj2 (hex_word_format _)).
Qed.

(** ** Lowercasing and white space *)

Section Lowercasing.

Context `{UCD : UnicodeData}.

Lemma Cased_white c : is_white_space c = true -> Cased c = false.
Proof.
  intros H. unfold Cased. rewrite H.
  apply white_space_facts in H as (_ & _ & _ & -> & -> & _).
  now destruct (c <? 0x80).
Qed.

Lemma Lowercase_Mapping_white c : is_white_space c = true -> Lowercase_Mapping c = [c].
Proof.
  intros H. unfold Lowercase_Mapping. rewrite H, orb_true_r.
  now apply white_space_facts in H as (_ & _ & _ & -> & _).
Qed.

Lemma reaches_cased_white l : white l -> reaches_cased l = false.
Proof.
  induction 1 as [|c l Hc _ IH]; [reflexivity|].
  cbn [reaches_cased]. now rewrite Cased_white, IH, andb_false_r.
Qed.

(** White space at the far end of a context changes nothing: it is not
    cased. *)
Lemma reaches_cased_app_white l w : white w -> reaches_cased (l ++ w) = reaches_cased l.
Proof.
  intros Hw. induction l as [|c l IH]; cbn [app reaches_cased].
  - now apply reaches_cased_white.
  - now rewrite IH.
Qed.

Lemma toLowercase_context_white ctx w cps :
  white w -> toLowercase (ctx ++ w) cps = toLowercase ctx cps.
Proof.
  intros Hw. revert ctx. induction cps as [|c cps IH]; intros ctx; [reflexivity|].
  cbn [toLowercase]. unfold Final_Sigma.
  rewrite reaches_cased_app_white by assumption.
  change (c :: ctx ++ w) with ((c :: ctx) ++ w). now rewrite IH.
Qed.

Lemma toLowercase_white_context w cps :
  white w -> toLowercase w cps = toLowercase [] cps.
Proof. intros Hw. exact (toLowercase_context_white [] w cps Hw). Qed.

Lemma toLowercase_white_l ctx l cps :
  white l -> toLowercase ctx (l ++ cps) = l ++ toLowercase (rev l ++ ctx) cps.
Proof.
  intros Hl. revert ctx. induction Hl as [|c l Hc _ IH]; intros ctx; [reflexivity|].
  cbn [app toLowercase]. rewrite Lowercase_Mapping_white by assumption.
  pose proof (white_space_facts c Hc) as (_ & _ & _ & _ & _ & ->).
  cbn [andb app]. rewrite IH. cbn [rev]. now rewrite <- app_assoc.
Qed.

Lemma toLowercase_white_r ctx cps r :
  white r -> toLowercase ctx (cps ++ r) = toLowercase ctx cps ++ r.
Proof.
  intros Hr. revert ctx. induction cps as [|c cps IH]; intros ctx.
  - cbn [app toLowercase]. rewrite <- (app_nil_r r) at 1.
    rewrite toLowercase_white_l by assumption. cbn. apply app_nil_r.
  - cbn [app toLowercase]. unfold Final_Sigma.
    rewrite reaches_cased_app_white by assumption. now rewrite IH, app_assoc.
Qed.

(** Lowercasing leaves the white space around a string where it is. *)
Lemma toLowerCase_wrap l s r :
  white l -> white r -> toLowerCase (l ++ s ++ r) = l ++ toLowerCase s ++ r.
Proof.
  intros Hl Hr. unfold toLowerCase.
  rewrite StringToCodePoints_white_l, StringToCodePoints_white_r by assumption.
  rewrite toLowercase_white_l, toLowercase_white_r by assumption.
  rewrite app_nil_r, toLowercase_white_context by now apply white_rev.
  rewrite !CodePointsToString_app.
  now rewrite (CodePointsToString_white l), (CodePointsToString_white r) by assumption.
Qed.

Lemma toLowerCase_white l : white l -> toLowerCase l = l.
Proof.
  intros H. assert (Hnil : white []) by constructor.
  pose proof (toLowerCase_wrap l [] [] H Hnil) as E.
  change (toLowerCase []) with (@nil Z) in E. cbn [app] in E.
  now rewrite !app_nil_r in E.
Qed.

Lemma same_letter_tables a b :
  same_letter a b ->
  Cased a = Cased b /\ Case_Ignorable a = Case_Ignorable b
  /\ Lowercase_Mapping a = Lowercase_Mapping b /\ (a =? 0x3A3) = (b =? 0x3A3).
Proof.
  intros [->|[[Ha ->]|[Hb ->]]]; [repeat split| |];
    unfold Cased, Case_Ignorable, Lowercase_Mapping,
      is_ascii_upper, is_ascii_lower, is_white_space in *.
  - assert (E : 65 <= a <= 90) by lia.
    repeat match goal with |- context [?x <? ?y] => destruct (Z.ltb_spec x y); try lia end.
    repeat match goal with |- context [?x <=? ?y] => destruct (Z.leb_spec x y); try lia end.
    repeat match goal with |- context [?x =? ?y] => destruct (Z.eqb_spec x y); try lia end.
    cbn [andb orb]. repeat split.
  - assert (E : 65 <= b <= 90) by lia.
    repeat match goal with |- context [?x <? ?y] => destruct (Z.ltb_spec x y); try lia end.
    repeat match goal with |- context [?x <=? ?y] => destruct (Z.leb_spec x y); try lia end.
    repeat match goal with |- context [?x =? ?y] => destruct (Z.eqb_spec x y); try lia end.
    cbn [andb orb]. repeat split.
Qed.

Lemma reaches_cased_same_letter l l' :
  Forall2 same_letter l l' -> reaches_cased l = reaches_cased l'.
Proof.
  induction 1 as [|a b l l' Hab _ IH]; [reflexivity|].
  cbn [reaches_cased].
  destruct (same_letter_tables a b Hab) as (-> & -> & _). now rewrite IH.
Qed.

Lemma toLowercase_same_letter cps cps' :
  Forall2 same_letter cps cps' ->
  forall ctx ctx', Forall2 same_letter ctx ctx' ->
  toLowercase ctx cps = toLowercase ctx' cps'.
Proof.
  induction 1 as [|a b cps cps' Hab Hcps IH]; intros ctx ctx' Hctx; [reflexivity|].
  cbn [toLowercase]. unfold Final_Sigma.
  destruct (same_letter_tables a b Hab) as (_ & _ & -> & ->).
  rewrite (reaches_cased_same_letter ctx ctx') by assumption.
  rewrite (reaches_cased_same_letter cps cps') by assumption.
  f_equal. apply IH. now constructor.
Qed.

Lemma toLowerCase_same_letter m1 m2 :
  Forall2 same_letter m1 m2 -> toLowerCase m1 = toLowerCase m2.
Proof.
  intros H. unfold toLowerCase. f_equal.
  apply toLowercase_same_letter; [|constructor].
  now apply StringToCodePoints_same_letter.
Qed.

(** The input as the digest sees it. *)
Lemma normalize_variants s1 s2 :
  differ_in_case_or_space_only s1 s2 -> trim (toLowerCase s1) = trim (toLowerCase s2).
Proof.
  intros (l1 & m1 & r1 & l2 & m2 & r2 & -> & -> & Hl1 & Hr1 & Hl2 & Hr2 & Hm).
  rewrite !toLowerCase_wrap, !trim_wrap by assumption.
  now rewrite (toLowerCase_same_letter m1 m2 Hm).
Qed.

(** C7 (amended). [generateDeterministicHash] is a function of its
    argument alone; on a non-empty string it returns the SHA-256 digest, 64
    hexadecimal characters, of the UTF-8 bytes of the string lowercased and
    then trimmed. So two non-empty strings that differ only in the case of
    the letters A to Z or in the white space around them have the same
    digest, whatever the Unicode tables are: "Test Data", "test data" and
    " TEST DATA " among them. *)
Theorem deterministic_hash_normalizes :
  (forall s, s <> [] ->
      generateDeterministicHash (VStr s)
      = Return (sha256_hex (utf8_encode (trim (toLowerCase s)))))
  /\ (forall s1 s2,
         s1 <> [] -> s2 <> [] -> differ_in_case_or_space_only s1 s2 ->
         exists digest,
           generateDeterministicHash (VStr s1) = Return digest
           /\ generateDeterministicHash (VStr s2) = Return digest
           /\ length digest = 64%nat
           /\ forallb is_hex_char digest = true)
  /\ generateDeterministicHash (VStr (js "Test Data"))
     = generateDeterministicHash (VStr (js "test data"))
  /\ generateDeterministicHash (VStr (js "test data"))
     = generateDeterministicHash (VStr (js " TEST DATA "))
  /\ generateDeterministicHash (VStr (js "test data"))
     = Return (js "916f0027a575074ce72a331777c3478d6513f786a591bd892da1a577bf2335f9").
Proof.
  assert (Hret : forall s, s <> [] ->
             generateDeterministicHash (VStr s)
             = Return (sha256_hex (utf8_encode (trim (toLowerCase s))))).
  { intros [|c s] Hs; [congruence|reflexivity]. }
  split; [exact Hret|]. split.
  - intros s1 s2 H1 H2 Hv. eexists. rewrite !Hret by assumption.
    rewrite (normalize_variants s1 s2 Hv).
    split; [reflexivity|]. split; [reflexivity|]. apply sha256_hex_format.
  - repeat split; vm_compute; reflexivity.
Qed.

(** C10. A non-empty string of white space only is accepted: the check
    for the empty string comes before the normalization, which leaves
    nothing, and the digest returned is that of the empty byte sequence,
    the same for all such strings. *)
Theorem white_space_hashes_as_empty (s : list Z) :
  s <> [] -> white s ->
  generateDeterministicHash (VStr s) = Return (sha256_hex [])
  /\ sha256_hex []
     = js "e3b0c44298fc1c149afbf4c8996fb92427ae41e4649b934ca495991b7852b855".
Proof.
  intros Hs Hw. split; [|vm_compute; reflexivity].
  destruct s as [|c s]; [congruence|]. cbn [generateDeterministicHash].
  now rewrite toLowerCase_white, trim_white.
Qed.

End Lowercasing.

(** ** The write path *)

Section WritePath.

Context `{UCD : UnicodeData} `{Host : Runtime}.

Lemma registry_columns_distinct modelName configs :
  ENCRYPTED_FIELD_MAP !! modelName = Some configs -> NoDup (all_columns configs).
Proof.
  unfold ENCRYPTED_FIELD_MAP. rewrite !lookup_insert, lookup_empty.
  repeat case_decide; intros Hlook; try discriminate; injection Hlook as <-;
    apply (bool_decide_unpack _); vm_compute; exact I.
Qed.


Lemma uniqueHash_hashable v :
  hashable v = true ->
  exists s, v = VStr s
            /\ uniqueHash v = Return (sha256_hex (utf8_encode (trim (toLowerCase s)))).
Proof.
  destruct v as [| | | |[|c s]]; try discriminate. intros _. eexists. split; reflexivity.
Qed.

Lemma uniqueHash_not_hashable v :
  hashable v = false -> uniqueHash v = Throw (JsError "Invalid data: must be a non-empty string").
Proof. destruct v as [| | | |[|c s]]; try discriminate; reflexivity. Qed.

(** The loop body on a value that can be hashed: whether or not encrypting
    threw, the plain property goes and the two columns are written. *)
Lemma storeField_hashable config v t h :
  NoDup (columns config) -> uniqueHash v = Return h ->
  storeField config v t
  = (Return (delete (fieldName config)
               (<[hashField config := VStr h]>
                  (<[encryptedField config := stored_value config v]> t))),
     if is_return (encryptValue config v) then [] else [encrypt_line config]).
Proof.
  intros Hd Hh. unfold storeField, stored_value, columns in *. unfold encrypt_line.
  apply NoDup_cons in Hd as [Hf Hd]. apply NoDup_cons in Hd as [He _].
  assert (Hfe : fieldName config <> encryptedField config) by set_solver.
  assert (Hfh : fieldName config <> hashField config) by set_solver.
  destruct (encryptValue config v) as [c|e]; cbn [bind is_return]; rewrite Hh; cbn [bind].
  - now rewrite !delete_insert_ne by assumption.
  - reflexivity.
Qed.

Lemma storeField_not_hashable config v t :
  hashable v = false ->
  storeField config v t
  = (Throw (JsError "Invalid data: must be a non-empty string"), [encrypt_line config]).
Proof.
  intros H. unfold storeField, encrypt_line. rewrite (uniqueHash_not_hashable v H).
  now destruct (encryptValue config v).
Qed.

Lemma storeField_frame config v t t' lines k :
  storeField config v t = (Return t', lines) -> k ∉ columns config -> t' !! k = t !! k.
Proof.
  unfold storeField, columns. intros H Hk.
  assert (k <> fieldName config /\ k <> encryptedField config /\ k <> hashField config)
    as (Hf & He & Hh) by set_solver.
  destruct (encryptValue config v) as [c|e]; cbn [bind] in H;
    destruct (uniqueHash v) as [h|e']; cbn [bind] in H; try discriminate;
    injection H as <- _;
    now rewrite ?lookup_delete_ne, ?lookup_insert_ne, ?lookup_delete_ne by congruence.
Qed.

Lemma storage_loop_frame configs data t out lines k :
  storage_loop configs data t = (Return out, lines) ->
  k ∉ all_columns configs -> out !! k = t !! k.
Proof.
  revert t lines. induction configs as [|config rest IH]; intros t lines H Hk.
  - cbn in H. now injection H as <- _.
  - cbn [storage_loop] in H. cbn [all_columns flat_map] in Hk.
    apply not_elem_of_app in Hk as [Hk1 Hk2].
    destruct (present (js_get data (fieldName config))); [|now apply (IH t lines)].
    destruct (storeField config (js_get data (fieldName config)) t) as [[t'|e] l1] eqn:E;
      [|discriminate].
    destruct (storage_loop rest data t') as [r l2] eqn:E2. injection H as -> _.
    rewrite (IH t' l2 E2 Hk2). eapply storeField_frame; eassumption.
Qed.

Lemma storable_cons config rest data :
  storable (config :: rest) data = true ->
  (present (js_get data (fieldName config)) = true ->
   hashable (js_get data (fieldName config)) = true)
  /\ storable rest data = true.
Proof.
  unfold storable. cbn [forallb]. intros H. apply andb_true_iff in H as [H1 H2].
  split; [|exact H2]. intros Hp. now rewrite Hp in H1.
Qed.

(** The write path returns exactly when every sensitive value that is
    present can be hashed; its only error is that of the hash function. *)
Lemma storage_loop_returns configs data t :
  Forall (fun config => NoDup (columns config)) configs ->
  storable configs data = true ->
  exists out lines, storage_loop configs data t = (Return out, lines).
Proof.
  intros Hd. revert t. induction Hd as [|config rest Hc _ IH]; intros t Hs.
  - eexists _, _. reflexivity.
  - cbn [storage_loop]. apply storable_cons in Hs as [Hhead Hrest].
    destruct (present (js_get data (fieldName config))) eqn:Hp; [|now apply IH].
    destruct (uniqueHash_hashable _ (Hhead eq_refl)) as (s & _ & Hh).
    rewrite (storeField_hashable config _ t _ Hc Hh).
    match goal with
    | |- context [storage_loop rest data ?T] => destruct (IH T Hrest) as (out & lines & ->)
    end.
    eexists _, _. reflexivity.
Qed.

Lemma storage_loop_storable configs data t out lines :
  storage_loop configs data t = (Return out, lines) -> storable configs data = true.
Proof.
  revert t lines. induction configs as [|config rest IH]; intros t lines H; [reflexivity|].
  cbn [storage_loop] in H. unfold storable. cbn [forallb]. apply andb_true_iff.
  destruct (present (js_get data (fieldName config))) eqn:Hp.
  - destruct (hashable (js_get data (fieldName config))) eqn:Hh.
    + split; [reflexivity|].
      destruct (storeField config (js_get data (fieldName config)) t) as [[t'|e] l1];
        [|discriminate].
      destruct (storage_loop rest data t') as [r l2] eqn:E2. injection H as -> _.
      exact (IH _ _ E2).
    + now rewrite (storeField_not_hashable config _ t Hh) in H.
  - split; [reflexivity|]. exact (IH _ _ H).
Qed.

Lemma storage_loop_error configs data t e lines :
  storage_loop configs data t = (Throw e, lines) ->
  e = JsError "Invalid data: must be a non-empty string".
Proof.
  revert t lines. induction configs as [|config rest IH]; intros t lines H.
  - discriminate.
  - cbn [storage_loop] in H.
    destruct (present (js_get data (fieldName config))); [|now apply (IH t lines)].
    destruct (hashable (js_get data (fieldName config))) eqn:Hh.
    + unfold storeField in H. destruct (uniqueHash_hashable _ Hh) as (s & _ & Hu).
      rewrite Hu in H.
      destruct (encryptValue config (js_get data (fieldName config))); cbn [bind] in H;
        match type of H with
        | (let '(_, _) := ?x in _) = _ => destruct x as [r l2] eqn:E2
        end; injection H as -> _; exact (IH _ _ E2).
    + rewrite (storeField_not_hashable config _ t Hh) in H. now injection H as <- _.
Qed.

Lemma all_columns_cons config rest :
  NoDup (all_columns (config :: rest)) ->
  NoDup (columns config)
  /\ (forall k, k ∈ columns config -> k ∉ all_columns rest)
  /\ NoDup (all_columns rest).
Proof. cbn [all_columns flat_map]. apply NoDup_app. Qed.

Lemma all_columns_each configs :
  NoDup (all_columns configs) -> Forall (fun config => NoDup (columns config)) configs.
Proof.
  induction configs as [|config rest IH]; intros H; [constructor|].
  apply all_columns_cons in H as (H1 & _ & H3). constructor; auto.
Qed.

Lemma columns_in_all config configs k :
  config ∈ configs -> k ∈ columns config -> k ∈ all_columns configs.
Proof.
  intros Hc Hk. unfold all_columns. apply list_elem_of_In, in_flat_map.
  exists config. split; now apply list_elem_of_In.
Qed.

(** A sensitive field that is present: where its value went. *)
Lemma storage_loop_present configs data t out lines config :
  NoDup (all_columns configs) ->
  storage_loop configs data t = (Return out, lines) ->
  config ∈ configs ->
  present (js_get data (fieldName config)) = true ->
  exists h,
    uniqueHash (js_get data (fieldName config)) = Return h
    /\ out !! fieldName config = None
    /\ out !! encryptedField config
       = Some (stored_value config (js_get data (fieldName config)))
    /\ out !! hashField config = Some (VStr h)
    /\ (is_return (encryptValue config (js_get data (fieldName config))) = false ->
        encrypt_line config ∈ lines).
Proof.
  revert t lines. induction configs as [|config0 rest IH]; intros t lines Hd H Hin Hp.
  - inversion Hin.
  - pose proof (storage_loop_storable _ _ _ _ _ H) as Hs.
    apply storable_cons in Hs as [Hhead _].
    apply all_columns_cons in Hd as (Hd0 & Hdis & Hdrest).
    cbn [storage_loop] in H. apply elem_of_cons in Hin as [->|Hin].
    + rewrite Hp in H. destruct (uniqueHash_hashable _ (Hhead Hp)) as (s & _ & Hh).
      rewrite (storeField_hashable config0 _ t _ Hd0 Hh) in H.
      match type of H with
      | (let '(_, _) := storage_loop rest data ?T in _) = _ =>
          destruct (storage_loop rest data T) as [r l2] eqn:E2
      end.
      injection H as -> <-. exists (sha256_hex (utf8_encode (trim (toLowerCase s)))).
      unfold columns in Hd0, Hdis.
      apply NoDup_cons in Hd0 as [Hf Hd0]. apply NoDup_cons in Hd0 as [He _].
      assert (Hfe : fieldName config0 <> encryptedField config0) by set_solver.
      assert (Hfh : fieldName config0 <> hashField config0) by set_solver.
      assert (Heh : encryptedField config0 <> hashField config0) by set_solver.
      split; [exact Hh|].
      rewrite !(storage_loop_frame rest data _ out l2 _ E2) by (apply Hdis; set_solver).
      split; [apply lookup_delete_eq|]. split; [|split].
      * rewrite lookup_delete_ne, lookup_insert_ne, lookup_insert_eq by congruence.
        reflexivity.
      * now rewrite lookup_delete_ne, lookup_insert_eq by congruence.
      * intros ->. apply elem_of_app. left. now left.
    + destruct (present (js_get data (fieldName config0))); [|now apply (IH t lines)].
      destruct (storeField config0 (js_get data (fieldName config0)) t) as [[t'|e] l1];
        [|discriminate].
      destruct (storage_loop rest data t') as [r l2] eqn:E2. injection H as -> <-.
      destruct (IH t' l2 Hdrest E2 Hin Hp) as (h & H1 & H2 & H3 & H4 & H5).
      exists h. repeat split; try assumption.
      intros Hf. apply elem_of_app. right. now apply H5.
Qed.

(** A sensitive field that is null or absent: its three properties are as
    they were. *)
Lemma storage_loop_absent configs data t out lines config k :
  NoDup (all_columns configs) ->
  storage_loop configs data t = (Return out, lines) ->
  config ∈ configs ->
  present (js_get data (fieldName config)) = false ->
  k ∈ columns config -> out !! k = t !! k.
Proof.
  revert t lines. induction configs as [|config0 rest IH]; intros t lines Hd H Hin Hp Hk.
  - inversion Hin.
  - apply all_columns_cons in Hd as (Hd0 & Hdis & Hdrest).
    cbn [storage_loop] in H. apply elem_of_cons in Hin as [->|Hin].
    + rewrite Hp in H. apply (storage_loop_frame rest data t out lines k H). now apply Hdis.
    + destruct (present (js_get data (fieldName config0))); [|now apply (IH t lines)].
      destruct (storeField config0 (js_get data (fieldName config0)) t) as [[t'|e] l1] eqn:E1;
        [|discriminate].
      destruct (storage_loop rest data t') as [r l2] eqn:E2. injection H as -> _.
      rewrite (IH t' l2 Hdrest E2 Hin Hp Hk).
      apply (storeField_frame _ _ _ _ _ _ E1).
      intros Hk0. apply (Hdis k Hk0). now apply (columns_in_all config).
Qed.

End WritePath.

(** ** The read path *)

Section ReadPath.

Context `{UCD : UnicodeData} `{Host : Runtime}.

Lemma registry_fields_distinct modelName configs :
  ENCRYPTED_FIELD_MAP !! modelName = Some configs -> NoDup (map fieldName configs).
Proof.
  unfold ENCRYPTED_FIELD_MAP. rewrite !lookup_insert, lookup_empty.
  repeat case_decide; intros Hlook; try discriminate; injection Hlook as <-;
    apply (bool_decide_unpack _); vm_compute; exact I.
Qed.

Lemma readField_frame config stored t k :
  k <> fieldName config -> (readField config stored t).1 !! k = t !! k.
Proof.
  intros Hk. unfold readField.
  destruct (decryptValue config stored); cbn [fst]; now rewrite lookup_insert_ne.
Qed.

Lemma reading_loop_frame configs r t k :
  k ∉ map fieldName configs -> (reading_loop configs r t).1 !! k = t !! k.
Proof.
  revert t. induction configs as [|config rest IH]; intros t Hk; [reflexivity|].
  cbn [reading_loop]. cbn [map] in Hk. apply not_elem_of_cons in Hk as [Hk0 Hk].
  destruct (present (js_get r (encryptedField config))); [|now apply IH].
  destruct (readField config (js_get r (encryptedField config)) t) as [t' l1] eqn:E1.
  destruct (reading_loop rest r t') as [t'' l2] eqn:E2. cbn [fst].
  pose proof (IH t' Hk) as H2. rewrite E2 in H2. cbn [fst] in H2.
  pose proof (readField_frame config (js_get r (encryptedField config)) t k Hk0) as H1.
  rewrite E1 in H1. cbn [fst] in H1. congruence.
Qed.

(** What the read path leaves under the plain name: the decrypted string,
    or what was stored when decrypting it threw. *)
Lemma reading_loop_field configs r t config :
  NoDup (map fieldName configs) -> config ∈ configs ->
  present (js_get r (encryptedField config)) = true ->
  (reading_loop configs r t).1 !! fieldName config
  = Some (match decryptValue config (js_get r (encryptedField config)) with
          | Return decryptedValue => VStr decryptedValue
          | Throw _ => js_get r (encryptedField config)
          end).
Proof.
  revert t. induction configs as [|config0 rest IH]; intros t Hd Hin Hp.
  - inversion Hin.
  - cbn [map] in Hd. apply NoDup_cons in Hd as [Hnot Hd].
    cbn [reading_loop]. apply elem_of_cons in Hin as [->|Hin].
    + rewrite Hp.
      destruct (readField config0 (js_get r (encryptedField config0)) t) as [t' l1] eqn:E1.
      destruct (reading_loop rest r t') as [t'' l2] eqn:E2. cbn [fst].
      pose proof (reading_loop_frame rest r t' _ Hnot) as H2.
      rewrite E2 in H2. cbn [fst] in H2. rewrite H2.
      unfold readField in E1.
      destruct (decryptValue config0 (js_get r (encryptedField config0)));
        injection E1 as <- _; apply lookup_insert_eq.
    + destruct (present (js_get r (encryptedField config0))); [|now apply IH].
      destruct (readField config0 (js_get r (encryptedField config0)) t) as [t' l1].
      destruct (reading_loop rest r t') as [t'' l2] eqn:E2. cbn [fst].
      pose proof (IH t' Hd Hin Hp) as H2. rewrite E2 in H2. exact H2.
Qed.

Lemma startsWith_app p s : startsWith (p ++ s) p = true.
Proof. induction p as [|c p IH]; [now destruct s|]. cbn [app startsWith]. now rewrite Z.eqb_refl. Qed.

(** The test double gives back what it was given. *)
Lemma mockDecrypt_mockEncrypt v :
  v <> [] -> well_formed v = true ->
  mockEncrypt (VStr v) = Return (mock_prefix ++ base64_encode (utf8_encode v))
  /\ mockDecrypt (VStr (mock_prefix ++ base64_encode (utf8_encode v))) = Return v.
Proof.
  intros Hv Hwf. split.
  - destruct v; [congruence|reflexivity].
  - unfold mockDecrypt. change (truthy (VStr (mock_prefix ++ _))) with true.
    cbn [negb]. rewrite startsWith_app. cbn [negb].
    rewrite drop_app_length.
    now rewrite base64_decode_encode, buffer_toString_utf8_encode
      by auto using utf8_encode_bytes.
Qed.

Lemma readable_in_mock_mode config v :
  isMockMode env = true -> v <> [] -> well_formed v = true -> readable config v.
Proof.
  intros Hm Hv Hwf. unfold readable, encryptValue, decryptValue. rewrite Hm.
  destruct (mockDecrypt_mockEncrypt v Hv Hwf) as [-> E]. exact E.
Qed.

End ReadPath.

(** ** The operations *)

Section Operations.

Context `{UCD : UnicodeData} `{Host : Runtime} `{Storage : Backend}.

Lemma storageArgs_single op modelName args input :
  writes_data op = true -> data args = Some (One input) ->
  storageArgs op modelName args
  = match transformDataForStorage modelName input with
    | (Return out, lines) =>
        (Return {| data := Some (One out); create := create args; update := update args |},
         lines)
    | (Throw e, lines) => (Throw e, lines)
    end.
Proof.
  intros Hop Hdata. unfold storageArgs, transformPayload. rewrite Hdata.
  destruct op; try discriminate;
    now destruct (transformDataForStorage modelName input) as [[out|e] lines].
Qed.

Lemma storageArgs_upsert modelName args input :
  create args = Some input -> update args = None ->
  storageArgs Upsert modelName args
  = match transformDataForStorage modelName input with
    | (Return out, lines) =>
        (Return {| data := data args; create := Some out; update := None |}, lines)
    | (Throw e, lines) => (Throw e, lines)
    end.
Proof.
  intros Hc Hu. unfold storageArgs, transformOptional. rewrite Hc, Hu.
  destruct (transformDataForStorage modelName input) as [[out|e] lines]; [|reflexivity].
  now rewrite app_nil_r.
Qed.

Lemma transformOptional_returns modelName o o' lines :
  transformOptional modelName o = (Return o', lines) -> transformed_as modelName o o'.
Proof.
  unfold transformOptional, transformed_as. destruct o as [r|].
  - destruct (transformDataForStorage modelName r) as [[r'|e] l]; [|discriminate].
    intros H. injection H as <- _. now exists l.
  - intros H. now injection H as <- _.
Qed.

Lemma storageArgs_upsert_each modelName args args' lines :
  storageArgs Upsert modelName args = (Return args', lines) ->
  transformed_as modelName (create args) (create args')
  /\ transformed_as modelName (update args) (update args')
  /\ data args' = data args.
Proof.
  unfold storageArgs.
  destruct (transformOptional modelName (create args)) as [[c|e] l1] eqn:Ec; [|discriminate].
  destruct (transformOptional modelName (update args)) as [[u|e] l2] eqn:Eu; [|discriminate].
  intros H. injection H as <- _. cbn [create update data].
  eauto using transformOptional_returns.
Qed.

Lemma transformAllForStorage_each modelName rs rs' lines :
  transformAllForStorage modelName rs = (Return rs', lines) ->
  Forall2 (fun r r' => exists l, transformDataForStorage modelName r = (Return r', l)) rs rs'.
Proof.
  revert rs' lines. induction rs as [|r rs IH]; intros rs' lines H.
  - cbn in H. injection H as <- _. constructor.
  - cbn [transformAllForStorage] in H.
    destruct (transformDataForStorage modelName r) as [[r'|e] l1] eqn:E1;
      destruct (transformAllForStorage modelName rs) as [[rest'|e'] l2] eqn:E2;
      cbn [bind] in H; try discriminate.
    injection H as <- _. constructor; [eauto|]. exact (IH _ _ eq_refl).
Qed.

Lemma runOperation_fails op modelName args e lines :
  storageArgs op modelName args = (Throw e, lines) ->
  runOperation op modelName args = (Throw e, lines).
Proof. intros H. unfold runOperation. now rewrite H. Qed.

End Operations.

(** ** Claims about the interception layer *)

Section InterceptionClaims.

Context `{UCD : UnicodeData} `{Host : Runtime}.

Lemma storable_spec configs (input : gmap string jsval) :
  storable configs input = true
  <-> forall config, config ∈ configs ->
        present (js_get input (fieldName config)) = true ->
        hashable (js_get input (fieldName config)) = true.
Proof.
  unfold storable. rewrite forallb_forall. split.
  - intros H config Hin Hp. specialize (H config (proj1 (list_elem_of_In _ _) Hin)).
    now rewrite Hp in H.
  - intros H config Hin. apply list_elem_of_In in Hin.
    destruct (present (js_get input (fieldName config))) eqn:Hp; [|reflexivity].
    now rewrite (H config Hin Hp).
Qed.

(** C1 (amended). A failure to encrypt does not fail a write. In
    [transformDataForStorage], which every write operation applies to its
    payload before the backend is called, the error is caught and written to
    the console, the value itself goes into the ciphertext column and its
    deterministic hash into the digest column, the plain property being
    removed. The transform, and the operation with it,
    fails exactly when a sensitive value that is present is not a non-empty
    string, with the Error of the hash function. *)
Theorem write_path_on_encryption_failure modelName configs (input : gmap string jsval) :
  ENCRYPTED_FIELD_MAP !! modelName = Some configs ->
  (is_return (transformDataForStorage modelName input).1 = true
   <-> storable configs input = true)
  /\ (forall e lines,
         transformDataForStorage modelName input = (Throw e, lines) ->
         e = JsError "Invalid data: must be a non-empty string")
  /\ (forall out lines config v,
         transformDataForStorage modelName input = (Return out, lines) ->
         config ∈ configs ->
         js_get input (fieldName config) = VStr v ->
         is_return (encryptValue config (VStr v)) = false ->
         out !! encryptedField config = Some (VStr v)
         /\ out !! fieldName config = None
         /\ (exists digest, generateDeterministicHash (VStr v) = Return digest
                            /\ out !! hashField config = Some (VStr digest))
         /\ encrypt_line config ∈ lines)
  /\ (forall op args,
         writes_data op = true -> data args = Some (One input) ->
         storageArgs op modelName args
         = match transformDataForStorage modelName input with
           | (Return out, lines) =>
               (Return {| data := Some (One out); create := create args;
                          update := update args |}, lines)
           | (Throw e, lines) => (Throw e, lines)
           end)
  /\ (forall args,
         create args = Some input -> update args = None ->
         storageArgs Upsert modelName args
         = match transformDataForStorage modelName input with
           | (Return out, lines) =>
               (Return {| data := data args; create := Some out; update := None |}, lines)
           | (Throw e, lines) => (Throw e, lines)
           end)
  /\ (forall args args' lines,
         storageArgs Upsert modelName args = (Return args', lines) ->
         transformed_as modelName (create args) (create args')
         /\ transformed_as modelName (update args) (update args')
         /\ data args' = data args)
  /\ (forall rs rs' lines,
         transformAllForStorage modelName rs = (Return rs', lines) ->
         Forall2 (fun r r' => exists l, transformDataForStorage modelName r = (Return r', l))
           rs rs').
Proof.
  intros Hm. pose proof (registry_columns_distinct _ _ Hm) as Hd.
  assert (Hloop : transformDataForStorage modelName input
                  = storage_loop configs input input).
  { unfold transformDataForStorage. now rewrite Hm. }
  split; [|split; [|split; [|split; [|split; [|split]]]]].
  - rewrite Hloop. split.
    + destruct (storage_loop configs input input) as [[out|e] lines] eqn:E; [|discriminate].
      intros _. exact (storage_loop_storable _ _ _ _ _ E).
    + intros Hs.
      destruct (storage_loop_returns configs input input (all_columns_each _ Hd) Hs)
        as (out & lines & ->).
      reflexivity.
  - intros e lines. rewrite Hloop. apply storage_loop_error.
  - intros out lines config v E Hin Hv Hf. rewrite Hloop in E.
    assert (Hp : present (js_get input (fieldName config)) = true) by now rewrite Hv.
    destruct (storage_loop_present _ _ _ _ _ config Hd E Hin Hp)
      as (h & H0 & H1 & H2 & H3 & H4).
    rewrite Hv in *. unfold stored_value in H2.
    destruct (encryptValue config (VStr v)); [discriminate|].
    split; [exact H2|]. split; [exact H1|]. split; [|now apply H4].
    exists h. split; [exact H0|exact H3].
  - intros op args Hop Hdata. exact (storageArgs_single op modelName args input Hop Hdata).
  - intros args Hc Hu. exact (storageArgs_upsert modelName args input Hc Hu).
  - apply storageArgs_upsert_each.
  - apply transformAllForStorage_each.
Qed.

(** C4 (amended). When every sensitive field of the input that is present
    holds a non-empty string, the write path returns a record in which each
    such field has no property under its plain name, a string in its
    ciphertext column and, in its digest column, the deterministic hash of
    the plaintext; the three properties of a sensitive field that is null or
    absent are as in the input. The read path on the stored record puts the
    plaintext back under the plain name when decrypting what was stored gives
    it back, as it does in mock mode for a well-formed string. *)
Theorem write_then_read modelName configs (input : gmap string jsval) :
  ENCRYPTED_FIELD_MAP !! modelName = Some configs ->
  storable configs input = true ->
  exists out lines,
    transformDataForStorage modelName input = (Return out, lines)
    /\ (forall config v,
           config ∈ configs -> js_get input (fieldName config) = VStr v ->
           out !! fieldName config = None
           /\ (exists c, out !! encryptedField config = Some (VStr c)
                         /\ (isMockMode env = true ->
                             c = mock_prefix ++ base64_encode (utf8_encode v)))
           /\ (exists digest, generateDeterministicHash (VStr v) = Return digest
                              /\ out !! hashField config = Some (VStr digest))
           /\ (readable config v ->
               (transformRecordForReading modelName out).1 !! fieldName config
               = Some (VStr v))
           /\ (isMockMode env = true -> well_formed v = true -> readable config v))
    /\ (forall config k,
           config ∈ configs -> present (js_get input (fieldName config)) = false ->
           k ∈ columns config -> out !! k = input !! k).
Proof.
  intros Hm Hs. pose proof (registry_columns_distinct _ _ Hm) as Hd.
  pose proof (registry_fields_distinct _ _ Hm) as Hf.
  unfold transformDataForStorage, transformRecordForReading. rewrite Hm.
  destruct (storage_loop_returns configs input input (all_columns_each _ Hd) Hs)
    as (out & lines & E).
  exists out, lines. split; [exact E|]. split.
  - intros config v Hin Hv.
    assert (Hp : present (js_get input (fieldName config)) = true) by now rewrite Hv.
    assert (Hne : v <> []).
    { pose proof (proj1 (storable_spec _ _) Hs config Hin Hp) as Hh.
      rewrite Hv in Hh. now destruct v. }
    destruct (storage_loop_present _ _ _ _ _ config Hd E Hin Hp)
      as (h & H0 & H1 & H2 & H3 & _).
    rewrite Hv in *. split; [exact H1|]. split; [|split; [|split]].
    + unfold stored_value, encryptValue in H2. destruct (isMockMode env) eqn:Hmock.
      * destruct v as [|c0 v]; [congruence|]. cbn in H2. eexists. split; [exact H2|].
        reflexivity.
      * destruct (encryptData (VStr v) (keyPath config)) as [c|e];
          eexists; (split; [exact H2|discriminate]).
    + exists h. split; [exact H0|exact H3].
    + intros Hr.
      assert (Hstored : js_get out (encryptedField config) = stored_value config (VStr v)).
      { unfold js_get. now rewrite H2. }
      rewrite (reading_loop_field configs out out config Hf Hin).
      2:{ rewrite Hstored. unfold stored_value. now destruct (encryptValue config (VStr v)). }
      rewrite Hstored. unfold readable, stored_value in *.
      destruct (encryptValue config (VStr v)) as [c|e].
      * now rewrite Hr.
      * destruct Hr as [-> | [e' ->]]; reflexivity.
    + intros Hmock Hwf. now apply readable_in_mock_mode.
  - intros config k Hin Hp Hk.
    exact (storage_loop_absent _ _ _ _ _ config k Hd E Hin Hp Hk).
Qed.

End InterceptionClaims.

(** * The claims at sample inputs *)

Lemma decrypt_encrypt_round_trip_witness :
  exists sealed g',
    encrypt (VStr john_email) zero_key counting = (Return sealed, g')
    /\ decrypt sealed zero_key = Return (strip_bom john_email)
    /\ (hd 0 john_email <> 0xFEFF -> decrypt sealed zero_key = Return john_email).
Proof.
  apply (decrypt_encrypt_round_trip john_email zero_key counting).
  - discriminate.
  - reflexivity.
  - reflexivity.
Defined.

(** C3 (the code at the failing input). The string of U+FEFF and "A" is
    encrypted under a key of 32 bytes, and [decrypt] of the envelope under the
    same key returns "A": the leading U+FEFF is lost, since [decrypt] reads
    the bytes with [new TextDecoder()], which removes it. The sibling path
    keeps it: [mockDecrypt], which reads the bytes with [Buffer.toString],
    gives back what [mockEncrypt] was given. *)
Theorem round_trip_loses_byte_order_mark :
  exists sealed g',
    encrypt (VStr [0xFEFF; 0x41]) zero_key counting = (Return sealed, g')
    /\ decrypt sealed zero_key = Return [0x41]
    /\ decrypt sealed zero_key <> Return [0xFEFF; 0x41]
    /\ exists c,
         mockEncrypt (VStr [0xFEFF; 0x41]) = Return c
         /\ mockDecrypt (VStr c) = Return [0xFEFF; 0x41].
Proof.
  eexists _, _. split; [vm_compute; reflexivity|].
  split; [vm_compute; reflexivity|]. split; [vm_compute; discriminate|].
  eexists. split; [vm_compute; reflexivity|]. vm_compute. reflexivity.
Qed.

(** An unpaired surrogate comes back as U+FFFD. *)
Example round_trip_replaces_lone_surrogate :
  (sealed <- (encrypt (VStr [0xD800]) zero_key counting).1 ;;; decrypt sealed zero_key)
  = Return [0xFFFD].
Proof. vm_compute. reflexivity. Qed.

Lemma ciphertext_length_is_plaintext_length_witness :
  exists sealed g',
    encrypt (VStr (js "Hello, World!")) ones_key counting = (Return sealed, g')
    /\ length (base64_decode (encrypted sealed)) = length (utf8_encode (js "Hello, World!")).
Proof.
  apply (ciphertext_length_is_plaintext_length (js "Hello, World!") ones_key counting).
  - discriminate.
  - reflexivity.
Defined.

(** C2 (the code at the failing input). An envelope of encrypt("Test
    message", K1) decrypts under another 32-byte key K2 to a string, not to a
    DecryptionError; with its authTag replaced it decrypts under K1 to the
    plaintext; with its ciphertext replaced it decrypts to another string. *)
Theorem decrypt_does_not_authenticate :
  let P := js "Test message" in
  let K1 := zero_key in
  let K2 := ones_key in
  match (encrypt (VStr P) K1 counting).1 with
  | Throw _ => False
  | Return sealed =>
      K2 <> K1
      /\ decrypt sealed K2 = Return (js "Udru!ldrr`fd")
      /\ authTag sealed <> base64_encode (repeat 0 16)
      /\ decrypt {| encrypted := encrypted sealed; iv := iv sealed;
                    authTag := base64_encode (repeat 0 16) |} K1 = Return P
      /\ encrypted sealed <> base64_encode (utf8_encode (js "tampered"))
      /\ decrypt {| encrypted := base64_encode (utf8_encode (js "tampered"));
                    iv := iv sealed; authTag := authTag sealed |} K1
         = Return (js "t`osawcc")
  end.
Proof. vm_compute. repeat split; discriminate. Qed.

Lemma encrypt_twice_witness :
  exists e1 e2 g1' g2',
    encrypt (VStr (js "a")) zero_key repeating = (Return e1, g1')
    /\ encrypt (VStr (js "a")) zero_key (advance 28 repeating) = (Return e2, g2')
    /\ (iv e1 = iv e2 <-> nonce_of repeating = nonce_of (advance 28 repeating))
    /\ (authTag e1 = authTag e2 <-> tag_of repeating = tag_of (advance 28 repeating))
    /\ (encrypted e1 = encrypted e2
        <-> forall i, (i < length (utf8_encode (js "a")))%nat ->
                      nth (i mod IV_LENGTH) (nonce_of repeating) 0
                      = nth (i mod IV_LENGTH) (nonce_of (advance 28 repeating)) 0).
Proof.
  apply (encrypt_twice (js "a") zero_key repeating (advance 28 repeating)).
  - discriminate.
  - reflexivity.
Defined.

(** C8, as stated, fails: two calls in a row that draw different nonces and
    different tags, and return the same ciphertext. *)
Lemma distinct_nonces_same_ciphertext :
  let P := VStr (js "a") in
  let first := encrypt P zero_key repeating in
  let second := encrypt P zero_key first.2 in
  match first.1, second.1 with
  | Return e1, Return e2 =>
      iv e1 <> iv e2 /\ authTag e1 <> authTag e2 /\ encrypted e1 = encrypted e2
  | _, _ => False
  end.
Proof. vm_compute. repeat split; discriminate. Qed.

(** Fifty-one items, the first of which [encrypt] itself would refuse: the
    batch error is the one that is thrown, and nothing was drawn. *)
Lemma batch_ceiling_checked_first_witness :
  encryptBatch (VStr [] :: repeat (VStr (js "test message")) 50) zero_key counting
  = (Throw (EncryptionError "Batch size 51 exceeds limit of 50"), counting)
  /\ decryptBatch (repeat {| encrypted := []; iv := []; authTag := [] |} 26) zero_key
     = Throw (DecryptionError "Batch size 26 exceeds limit of 25")
  /\ generateHashBatch (repeat VNull 101) None
     = Throw (JsError "Batch size 101 exceeds limit of 100")
  /\ generateDeterministicHashBatch (UCD := ascii_tables) (repeat VNull 101)
     = Throw (JsError "Batch size 101 exceeds limit of 100").
Proof.
  destruct (batch_ceiling_checked_first (UCD := ascii_tables))
    as (He & Hd & Hh & Hdh & _ & _).
  split; [|split; [|split]].
  - apply (He (VStr [] :: repeat (VStr (js "test message")) 50) zero_key counting).
    vm_compute. lia.
  - apply (Hd (repeat {| encrypted := []; iv := []; authTag := [] |} 26) zero_key).
    vm_compute. lia.
  - apply (Hh (repeat VNull 101) None). vm_compute. lia.
  - apply (Hdh (repeat VNull 101)). vm_compute. lia.
Defined.

(** Eleven different paths retrieved one after the other: ten entries stay,
    and the first path is the one that is gone. *)
Lemma key_cache_bounded_witness :
  (length (fold_left (apply_op (Secrets := constant_store)) eleven_inserts [])
   <= MAX_CACHE_SIZE)%nat
  /\ (getKeyCacheStats
        (fold_left (apply_op (Secrets := constant_store)) eleven_inserts [])).2
     = tl eleven_paths.
Proof.
  split.
  - apply (proj1 (key_cache_bounded (Secrets := constant_store)) eleven_inserts).
    unfold eleven_inserts, eleven_paths. repeat constructor; discriminate.
  - vm_compute. reflexivity.
Defined.

(** C7, as stated, fails beyond ASCII. The tables give the capital sigma
    and the small sigma the same lowercase mapping, so "A" with a capital
    sigma and "A" with a small sigma differ in the case of a letter only; but
    [toLowerCase] turns a capital sigma at the end of a word into the final
    sigma U+03C2, and the two digests differ. *)
Lemma final_sigma_changes_the_digest :
  Lowercase_Mapping (UCD := greek_tables) 0x3A3 = Lowercase_Mapping (UCD := greek_tables) 0x3C3
  /\ toLowerCase (UCD := greek_tables) [0x41; 0x3A3] = [0x61; 0x3C2]
  /\ toLowerCase (UCD := greek_tables) [0x41; 0x3C3] = [0x61; 0x3C3]
  /\ generateDeterministicHash (UCD := greek_tables) (VStr [0x41; 0x3A3])
     <> generateDeterministicHash (UCD := greek_tables) (VStr [0x41; 0x3C3]).
Proof.
  split; [reflexivity|]. split; [reflexivity|]. split; [reflexivity|].
  vm_compute. discriminate.
Qed.

Lemma deterministic_hash_normalizes_witness :
  exists digest,
    generateDeterministicHash (UCD := ascii_tables) (VStr (js "Test Data")) = Return digest
    /\ generateDeterministicHash (UCD := ascii_tables) (VStr (js " TEST DATA ")) = Return digest
    /\ length digest = 64%nat
    /\ forallb is_hex_char digest = true.
Proof.
  apply (proj1 (proj2 (deterministic_hash_normalizes (UCD := ascii_tables)))).
  - discriminate.
  - discriminate.
  - exists [], (js "Test Data"), [], (js " "), (js "TEST DATA"), (js " ").
    split; [reflexivity|]. split; [reflexivity|].
    split; [constructor|]. split; [constructor|].
    split; [repeat constructor|]. split; [repeat constructor|].
    repeat (constructor;
            [first [left; reflexivity | right; right; split; reflexivity]|]).
    constructor.
Defined.

Lemma white_space_hashes_as_empty_witness :
  generateDeterministicHash (UCD := ascii_tables) (VStr [0x20; 0x09; 0xA0])
  = Return (sha256_hex [])
  /\ sha256_hex []
     = js "e3b0c44298fc1c149afbf4c8996fb92427ae41e4649b934ca495991b7852b855".
Proof.
  apply (white_space_hashes_as_empty (UCD := ascii_tables) [0x20; 0x09; 0xA0]).
  - discriminate.
  - repeat constructor.
Defined.

(** C1, as stated, fails: on a host where encrypting rejects, [create]
    returns, and what the backend was handed has the address itself in the
    ciphertext column. *)
Lemma create_stores_plaintext_when_encryption_throws :
  encryptValue (Host := no_keys production_env) email_config (VStr john_email)
  = Throw (KeyRetrievalError "Failed to retrieve encryption key")
  /\ match storageArgs (UCD := ascii_tables) (Host := no_keys production_env)
             Create "User" create_john with
     | (Return {| data := Some (One stored) |}, lines) =>
         stored !! "email_encrypted"%string = Some (VStr john_email)
         /\ lines = ["Failed to encrypt field email:"%string]
     | _ => False
     end
  /\ is_return (runOperation (UCD := ascii_tables) (Host := no_keys production_env)
                  (Storage := echo) Create "User" create_john).1 = true.
Proof. vm_compute. repeat split. Qed.

Lemma write_path_on_encryption_failure_witness :
  (is_return (transformDataForStorage (UCD := ascii_tables)
                (Host := no_keys production_env) "User" john).1 = true
   <-> storable [config_of "firstName" "names-key"; config_of "lastName" "names-key";
                 email_config; config_of "phone" "phone-key";
                 config_of "phoneVerificationCode" "temp-key"] john = true)
  /\ match transformDataForStorage (UCD := ascii_tables)
             (Host := no_keys production_env) "User" john with
     | (Return out, lines) =>
         out !! encryptedField email_config = Some (VStr john_email)
         /\ out !! fieldName email_config = None
         /\ (exists digest,
                generateDeterministicHash (UCD := ascii_tables) (VStr john_email)
                = Return digest
                /\ out !! hashField email_config = Some (VStr digest))
         /\ encrypt_line email_config ∈ lines
     | _ => True
     end.
Proof.
  destruct (write_path_on_encryption_failure (UCD := ascii_tables)
              (Host := no_keys production_env) "User" _ john eq_refl)
    as (H1 & _ & H3 & _).
  split; [exact H1|].
  destruct (transformDataForStorage "User" john) as [[out|e] lines]; [|exact I].
  apply (H3 out lines email_config john_email eq_refl).
  - do 2 right. left.
  - reflexivity.
  - reflexivity.
Defined.

(** C4, as stated, fails: the empty string is a value that is not null,
    and the write path has no record to return for it. *)
Lemma empty_string_fails_the_write :
  present (js_get blank_email "email") = true
  /\ transformDataForStorage (UCD := ascii_tables) (Host := no_keys test_env)
       "User" blank_email
     = (Throw (JsError "Invalid data: must be a non-empty string"),
        ["Failed to encrypt field email:"%string]).
Proof. vm_compute. split; reflexivity. Qed.

Lemma write_then_read_witness :
  exists out lines,
    transformDataForStorage (UCD := ascii_tables) (Host := no_keys test_env) "User" john
    = (Return out, lines)
    /\ out !! "email"%string = None
    /\ out !! "email_encrypted"%string
       = Some (VStr (mock_prefix ++ base64_encode (utf8_encode john_email)))
    /\ (exists digest,
           generateDeterministicHash (UCD := ascii_tables) (VStr john_email) = Return digest
           /\ out !! "email_hash"%string = Some (VStr digest))
    /\ (transformRecordForReading (Host := no_keys test_env) "User" out).1 !! "email"%string
       = Some (VStr john_email)
    /\ out !! "phone"%string = Some VNull
    /\ out !! "phone_encrypted"%string = None.
Proof.
  destruct (write_then_read (UCD := ascii_tables) (Host := no_keys test_env)
              "User" _ john eq_refl eq_refl)
    as (out & lines & E & Hpresent & Habsent).
  exists out, lines. split; [exact E|].
  destruct (Hpresent email_config john_email) as (H1 & (c & H2 & H2') & H3 & H4 & H5).
  { do 2 right. left. }
  { reflexivity. }
  split; [exact H1|]. split; [rewrite (H2' eq_refl) in H2; exact H2|].
  split; [exact H3|]. split; [apply H4, H5; reflexivity|].
  split.
  - apply (Habsent (config_of "phone" "phone-key") "phone"%string);
      [do 3 right; left|reflexivity|left].
  - apply (Habsent (config_of "phone" "phone-key") "phone_encrypted"%string);
      [do 3 right; left|reflexivity|right; left].
Defined.

(** * Further properties *)

Lemma utf8_init_ok : utf8_state_ok utf8_init.
Proof. now apply ok_idle. Qed.

Lemma utf8_lead_ok b :
  byte b -> utf8_state_ok (utf8_lead b).1 /\ scalars (utf8_lead b).2.
Proof.
  intros Hb. unfold byte in Hb. unfold utf8_lead.
  destruct (Z.leb_spec 0 b); [|lia].
  destruct (Z.leb_spec b 0x7F); cbn [andb fst snd].
  { split; [apply utf8_init_ok|]. repeat constructor. unfold is_scalar, is_surrogate. lia. }
  destruct (Z.leb_spec 0xC2 b), (Z.leb_spec b 0xDF); cbn [andb fst snd];
    try (split; [apply ok_two; rewrite low5; dlia|constructor]).
  all: destruct (Z.leb_spec 0xE0 b), (Z.leb_spec b 0xEF); cbn [andb fst snd]; try lia.
  all: try (split; [|constructor]; apply ok_three;
            [rewrite low4; dlia
            |destruct (Z.eqb_spec b 0xE0); lia
            |destruct (Z.eqb_spec b 0xED); lia
            |rewrite low4; destruct (Z.eqb_spec b 0xE0); dlia
            |rewrite low4; destruct (Z.eqb_spec b 0xED); dlia]).
  all: destruct (Z.leb_spec 0xF0 b), (Z.leb_spec b 0xF4); cbn [andb fst snd]; try lia.
  all: try (split; [|constructor]; apply ok_four;
            [rewrite low3; dlia
            |destruct (Z.eqb_spec b 0xF0); lia
            |destruct (Z.eqb_spec b 0xF4); lia
            |rewrite low3; destruct (Z.eqb_spec b 0xF0); dlia
            |rewrite low3; destruct (Z.eqb_spec b 0xF4); dlia]).
  all: split; [apply utf8_init_ok|repeat constructor].
Qed.

Lemma continuation cp b :
  0x80 <= b <= 0xBF ->
  Z.lor (Z.shiftl cp 6) (Z.land b 0x3F) = 64 * cp + (b - 0x80).
Proof.
  intros Hb. rewrite low6, join6 by (apply Z.mod_pos_bound; lia). f_equal. dlia.
Qed.

Ltac count_seen :=
  cbv zeta;
  repeat match goal with
    | |- context [?a + 1 =? ?b] =>
        let v := eval vm_compute in (a + 1 =? b) in change (a + 1 =? b) with v
    end;
  cbv iota.

Lemma utf8_step_ok st b :
  byte b -> utf8_state_ok st ->
  utf8_state_ok (utf8_step st b).1 /\ scalars (utf8_step st b).2.
Proof.
  intros Hb Hst. pose proof (utf8_lead_ok b Hb) as [Hl1 Hl2].
  assert (Hrestart :
            scalars (let '(st', out) := utf8_lead b in (st', 0xFFFD :: out)).2).
  { destruct (utf8_lead b) as [st' out]. cbn [snd] in *. now constructor. }
  assert (Hrestart' :
            utf8_state_ok (let '(st', out) := utf8_lead b in (st', 0xFFFD :: out)).1).
  { destruct (utf8_lead b) as [st' out]. exact Hl1. }
  unfold utf8_step.
  destruct Hst as [st H0|cp H|cp lo hi H Hlo Hhi H1 H2|cp H H'|cp lo hi H Hlo Hhi H1 H2|cp H|cp H];
    cbn [u_needed u_seen u_lower u_upper u_code_point].
  - rewrite H0. now split.
  - change (1 =? 0) with false. cbv iota.
    destruct (Z.ltb_spec b 0x80), (Z.ltb_spec 0xBF b); cbn [orb]; try (split; assumption).
    count_seen. rewrite continuation by lia. cbn [fst snd]. split; [apply utf8_init_ok|].
    repeat constructor. unfold is_scalar, is_surrogate. lia.
  - change (2 =? 0) with false. cbv iota.
    destruct (Z.ltb_spec b lo), (Z.ltb_spec hi b); cbn [orb]; try (split; assumption).
    count_seen. rewrite continuation by lia. cbn [fst snd]. split; [|constructor].
    apply ok_three_last; lia.
  - change (2 =? 0) with false. cbv iota.
    destruct (Z.ltb_spec b 0x80), (Z.ltb_spec 0xBF b); cbn [orb]; try (split; assumption).
    count_seen. rewrite continuation by lia. cbn [fst snd]. split; [apply utf8_init_ok|].
    repeat constructor. unfold is_scalar, is_surrogate. lia.
  - change (3 =? 0) with false. cbv iota.
    destruct (Z.ltb_spec b lo), (Z.ltb_spec hi b); cbn [orb]; try (split; assumption).
    count_seen. rewrite continuation by lia. cbn [fst snd]. split; [|constructor].
    apply ok_four_middle; lia.
  - change (3 =? 0) with false. cbv iota.
    destruct (Z.ltb_spec b 0x80), (Z.ltb_spec 0xBF b); cbn [orb]; try (split; assumption).
    count_seen. rewrite continuation by lia. cbn [fst snd]. split; [|constructor].
    apply ok_four_last; lia.
  - change (3 =? 0) with false. cbv iota.
    destruct (Z.ltb_spec b 0x80), (Z.ltb_spec 0xBF b); cbn [orb]; try (split; assumption).
    count_seen. rewrite continuation by lia. cbn [fst snd]. split; [apply utf8_init_ok|].
    repeat constructor. unfold is_scalar, is_surrogate. lia.
Qed.

Lemma utf8_run_scalars bs :
  Forall byte bs -> forall st, utf8_state_ok st -> scalars (utf8_run st bs).
Proof.
  induction 1 as [|b bs Hb _ IH]; intros st Hst; cbn [utf8_run].
  - destruct (u_needed st =? 0); repeat constructor.
  - destruct (utf8_step_ok st b Hb Hst) as [Hst' Hout].
    destruct (utf8_step st b) as [st' out]. cbn [fst snd] in *.
    apply Forall_app. split; [exact Hout|now apply IH].
Qed.

Lemma utf16_encode_scalar cp rest :
  is_scalar cp = true ->
  well_formed (utf16_encode_cp cp ++ rest) = well_formed rest.
Proof.
  intros H. apply is_scalar_range in H. unfold utf16_encode_cp.
  destruct (Z.ltb_spec cp 0x10000); cbn [app well_formed].
  - unfold is_high_surrogate, is_code_unit, is_low_surrogate.
    destruct (Z.leb_spec 0xD800 cp), (Z.leb_spec cp 0xDBFF); cbn [andb]; try lia.
    all: destruct (Z.leb_spec 0 cp), (Z.ltb_spec cp 0x10000); cbn [andb]; try lia.
    all: destruct (Z.leb_spec 0xDC00 cp), (Z.leb_spec cp 0xDFFF); cbn [andb negb]; try lia.
    all: reflexivity.
  - rewrite Z.shiftr_div_pow2 by lia. change 0x3FF with (Z.ones 10).
    rewrite Z.land_ones by lia. change (2 ^ 10) with 1024.
    assert (Hh : is_high_surrogate (0xD800 + (cp - 0x10000) / 1024) = true).
    { unfold is_high_surrogate. apply andb_true_iff. split; [apply Z.leb_le|apply Z.leb_le]; dlia. }
    assert (Hl : is_low_surrogate (0xDC00 + (cp - 0x10000) mod 1024) = true).
    { unfold is_low_surrogate. apply andb_true_iff. split; [apply Z.leb_le|apply Z.leb_le]; dlia. }
    now rewrite Hh, Hl.
Qed.

Lemma CodePointsToString_well_formed cps :
  scalars cps -> well_formed (CodePointsToString cps) = true.
Proof.
  unfold CodePointsToString. induction 1 as [|cp cps Hcp _ IH]; [reflexivity|].
  cbn [flat_map]. now rewrite utf16_encode_scalar.
Qed.

Lemma strip_bom_scalars cps : scalars cps -> scalars (strip_bom cps).
Proof.
  intros H. destruct H as [|c cps Hc H]; [constructor|]. cbn [strip_bom].
  destruct (c =? 0xFEFF); [exact H|now constructor].
Qed.

Lemma TextDecoder_decode_well_formed bs :
  Forall byte bs -> well_formed (TextDecoder_decode bs) = true.
Proof.
  intros H. apply CodePointsToString_well_formed, strip_bom_scalars.
  apply utf8_run_scalars; [exact H|apply utf8_init_ok].
Qed.

Lemma buffer_toString_utf8_well_formed bs :
  Forall byte bs -> well_formed (buffer_toString_utf8 bs) = true.
Proof.
  intros H. apply CodePointsToString_well_formed.
  apply utf8_run_scalars; [exact H|apply utf8_init_ok].
Qed.

(** X1. Whatever [decrypt] is given, it returns a string or throws a
    DecryptionError, never another error; a string it returns is well formed
    (no unpaired surrogate), and it returns one exactly when the three fields
    of the envelope are not empty, the key has 32 bytes, the nonce decodes to
    12 bytes and the tag to 16. *)
Theorem decrypt_returns_well_formed_or_DecryptionError
  (input : EncryptionResult) (K : list Z) :
  match decrypt input K with
  | Return s => well_formed s = true
  | Throw e => exists message, e = DecryptionError message
  end
  /\ (is_return (decrypt input K) = true
      <-> encrypted input <> [] /\ iv input <> [] /\ authTag input <> []
          /\ length K = KEY_LENGTH
          /\ length (base64_decode (iv input)) = IV_LENGTH
          /\ length (base64_decode (authTag input)) = TAG_LENGTH).
Proof.
  split.
  - unfold decrypt.
    repeat match goal with
      | |- context [if ?c then _ else _] => destruct c; [eexists; reflexivity|]
      end.
    apply TextDecoder_decode_well_formed, xor_stream_bytes.
  - unfold decrypt.
    destruct (encrypted input) as [|c1 s1], (iv input) as [|c2 s2],
      (authTag input) as [|c3 s3]; cbn [truthy_string negb orb is_return];
      try (split; [discriminate|intros (? & ? & ? & _); congruence]).
    destruct (Nat.eqb_spec (length K) KEY_LENGTH) as [HK|HK]; cbn [negb is_return];
      [|split; [discriminate|intros (_ & _ & _ & ? & _); congruence]].
    destruct (Nat.eqb_spec (length (base64_decode (c2 :: s2))) IV_LENGTH) as [Hn|Hn];
      cbn [negb is_return];
      [|split; [discriminate|intros (_ & _ & _ & _ & ? & _); congruence]].
    destruct (Nat.eqb_spec (length (base64_decode (c3 :: s3))) TAG_LENGTH) as [Ht|Ht];
      cbn [negb is_return];
      [|split; [discriminate|intros (_ & _ & _ & _ & _ & ?); congruence]].
    split; [|reflexivity]. intros _. repeat split; try discriminate; assumption.
Qed.

Lemma advance_advance n m g : advance m (advance n g) = advance (n + m) g.
Proof. unfold advance. cbn. f_equal. lia. Qed.

Lemma advance_0 g : advance 0 g = g.
Proof. destruct g as [e d]. unfold advance. cbn. f_equal. lia. Qed.

Lemma after_calls_S n g :
  after_calls n (advance TAG_LENGTH (advance IV_LENGTH g)) = after_calls (S n) g.
Proof.
  unfold after_calls. now rewrite !advance_advance.
Qed.

Lemma plain_ok_spec p :
  plain_ok p = true -> p <> [] /\ well_formed p = true /\ hd 0 p <> 0xFEFF.
Proof.
  unfold plain_ok. intros H. apply andb_true_iff in H as [H H3].
  apply andb_true_iff in H as [H1 H2]. repeat split; [|exact H2|].
  - now destruct p.
  - destruct (Z.eqb_spec (hd 0 p) 0xFEFF); [discriminate|assumption].
Qed.

Lemma decrypt_envelope p K g :
  plain_ok p = true -> length K = KEY_LENGTH ->
  decrypt (envelope p K (nonce_of g) (tag_of g)) K = Return p.
Proof.
  intros Hp HK. apply plain_ok_spec in Hp as (Hne & Hwf & Hbom).
  rewrite decrypt_seal
    by auto using nonce_of_length, nonce_of_bytes, tag_of_length, tag_of_bytes.
  rewrite xor_stream_involutive by now apply utf8_encode_bytes.
  rewrite TextDecoder_decode_encode by assumption.
  destruct p as [|c p]; [congruence|]. cbn [strip_bom hd] in *.
  now destruct (Z.eqb_spec c 0xFEFF).
Qed.

Lemma map_rand_encrypt ps K g :
  Forall (fun p => p <> []) ps -> length K = KEY_LENGTH ->
  map_rand (fun plaintext => encrypt plaintext K) (map VStr ps) g
  = (Return (envelopes ps K g), after_calls (length ps) g).
Proof.
  intros Hps HK. revert g. induction Hps as [|p ps Hp _ IH]; intros g.
  - cbn. unfold retR, after_calls. now rewrite advance_0.
  - cbn [map map_rand envelopes length]. unfold bindR at 1.
    rewrite encrypt_returns by assumption. unfold bindR at 1. rewrite IH.
    unfold retR. now rewrite after_calls_S.
Qed.

Lemma envelopes_length ps K g : length (envelopes ps K g) = length ps.
Proof. revert g. induction ps as [|p ps IH]; intros g; cbn; [reflexivity|now rewrite IH]. Qed.

Lemma map_result_decrypt ps K g :
  Forall (fun p => plain_ok p = true) ps -> length K = KEY_LENGTH ->
  map_result (fun input => decrypt input K) (envelopes ps K g) = Return ps.
Proof.
  intros Hps HK. revert g. induction Hps as [|p ps Hp _ IH]; intros g; [reflexivity|].
  cbn [envelopes map_result]. rewrite decrypt_envelope by assumption.
  cbn [bind]. now rewrite IH.
Qed.

Lemma plain_ok_nonempty ps :
  Forall (fun p => plain_ok p = true) ps -> Forall (fun p => p <> []) ps.
Proof.
  intros H. eapply Forall_impl; [exact H|].
  intros p Hp. now apply plain_ok_spec in Hp.
Qed.

(** X2. A batch of at most 25 plaintexts, each non-empty, well formed
    and not beginning with U+FEFF, goes through [encryptBatch] and comes back
    from [decryptBatch] under the same key as it was, item by item. *)
Theorem batch_round_trip (ps : list (list Z)) (K : list Z) (g : rng) :
  (length ps <= BATCH_LIMITS_DECRYPTION)%nat ->
  Forall (fun p => plain_ok p = true) ps ->
  length K = KEY_LENGTH ->
  exists sealed g',
    encryptBatch (map VStr ps) K g = (Return sealed, g')
    /\ length sealed = length ps
    /\ decryptBatch sealed K = Return ps.
Proof.
  intros Hn Hps HK. exists (envelopes ps K g), (after_calls (length ps) g).
  unfold encryptBatch, decryptBatch. rewrite length_map, envelopes_length.
  unfold BATCH_LIMITS_DECRYPTION, BATCH_LIMITS_ENCRYPTION in *.
  destruct (Nat.ltb_spec 50 (length ps)); [lia|].
  destruct (Nat.ltb_spec 25 (length ps)); [lia|].
  split; [apply map_rand_encrypt; [now apply plain_ok_nonempty|exact HK]|].
  split; [reflexivity|now apply map_result_decrypt].
Qed.

(** X3. The two ceilings disagree: a batch of 26 to 50 non-empty
    plaintexts is encrypted by [encryptBatch], and [decryptBatch] refuses the
    envelopes it returned, with the DecryptionError of its own ceiling. *)
Theorem batch_ceilings_disagree (ps : list (list Z)) (K : list Z) (g : rng) :
  (BATCH_LIMITS_DECRYPTION < length ps <= BATCH_LIMITS_ENCRYPTION)%nat ->
  Forall (fun p => p <> []) ps ->
  length K = KEY_LENGTH ->
  exists sealed g',
    encryptBatch (map VStr ps) K g = (Return sealed, g')
    /\ length sealed = length ps
    /\ decryptBatch sealed K
       = Throw (DecryptionError (batch_message (length ps) BATCH_LIMITS_DECRYPTION)).
Proof.
  intros Hn Hps HK. exists (envelopes ps K g), (after_calls (length ps) g).
  unfold encryptBatch, decryptBatch. rewrite length_map, envelopes_length.
  unfold BATCH_LIMITS_DECRYPTION, BATCH_LIMITS_ENCRYPTION in *.
  destruct (Nat.ltb_spec 50 (length ps)); [lia|].
  destruct (Nat.ltb_spec 25 (length ps)); [|lia].
  split; [now apply map_rand_encrypt|]. split; reflexivity.
Qed.

Lemma encrypt_rejects v K g :
  hashable v = false ->
  encrypt v K g = (Throw (EncryptionError "Invalid plaintext: must be a non-empty string"), g).
Proof. destruct v as [| | | |[|c s]]; try reflexivity. discriminate. Qed.

Lemma encrypt_accepts v K g :
  hashable v = true -> length K = KEY_LENGTH ->
  exists e, encrypt v K g = (Return e, after_calls 1 g).
Proof.
  intros Hv HK. destruct v as [| | | |[|c s]]; try discriminate.
  eexists. rewrite encrypt_returns by (try discriminate; assumption).
  unfold after_calls. now rewrite advance_advance.
Qed.

Lemma after_calls_after n m g : after_calls m (after_calls n g) = after_calls (n + m) g.
Proof. unfold after_calls. rewrite advance_advance. f_equal. lia. Qed.

Lemma map_rand_encrypt_all vs K g :
  forallb hashable vs = true -> length K = KEY_LENGTH ->
  exists sealed,
    map_rand (fun plaintext => encrypt plaintext K) vs g
    = (Return sealed, after_calls (length vs) g)
    /\ length sealed = length vs.
Proof.
  intros Hvs HK. revert g. induction vs as [|v vs IH]; intros g.
  - exists []. cbn. unfold retR, after_calls. now rewrite advance_0.
  - cbn [forallb] in Hvs. apply andb_true_iff in Hvs as [Hv Hvs].
    destruct (encrypt_accepts v K g Hv HK) as [e He].
    destruct (IH Hvs (after_calls 1 g)) as (sealed & Hs & Hl).
    exists (e :: sealed). cbn [map_rand length]. unfold bindR at 1. rewrite He.
    unfold bindR at 1. rewrite Hs. unfold retR. rewrite after_calls_after.
    split; [reflexivity|now rewrite Hl].
Qed.

Lemma map_rand_encrypt_first_bad good bad rest K g :
  forallb hashable good = true -> hashable bad = false -> length K = KEY_LENGTH ->
  map_rand (fun plaintext => encrypt plaintext K) (good ++ bad :: rest) g
  = (Throw (EncryptionError "Invalid plaintext: must be a non-empty string"),
     after_calls (length good) g).
Proof.
  intros Hgood Hbad HK. revert g. induction good as [|v good IH]; intros g.
  - cbn [app map_rand length]. unfold bindR at 1. rewrite encrypt_rejects by assumption.
    unfold after_calls. now rewrite advance_0.
  - cbn [forallb] in Hgood. apply andb_true_iff in Hgood as [Hv Hgood].
    destruct (encrypt_accepts v K g Hv HK) as [e He].
    cbn [app map_rand length]. unfold bindR at 1. rewrite He.
    unfold bindR at 1. rewrite (IH Hgood). now rewrite after_calls_after.
Qed.

(** X4. Within its ceiling and with a key of 32 bytes, [encryptBatch]
    returns one envelope per item when every item is a non-empty string,
    having drawn 28 random bytes per item; one item that is not makes the
    whole batch throw the EncryptionError of [encrypt], after the items before
    it were encrypted and their random bytes drawn. *)
Theorem encryptBatch_all_or_nothing (plaintexts : list jsval) (K : list Z) (g : rng) :
  (length plaintexts <= BATCH_LIMITS_ENCRYPTION)%nat ->
  length K = KEY_LENGTH ->
  (forallb hashable plaintexts = true ->
   exists sealed,
     encryptBatch plaintexts K g = (Return sealed, after_calls (length plaintexts) g)
     /\ length sealed = length plaintexts)
  /\ (forall good bad rest,
         plaintexts = good ++ bad :: rest ->
         forallb hashable good = true -> hashable bad = false ->
         encryptBatch plaintexts K g
         = (Throw (EncryptionError "Invalid plaintext: must be a non-empty string"),
            after_calls (length good) g)).
Proof.
  intros Hn HK. unfold encryptBatch.
  destruct (Nat.ltb_spec BATCH_LIMITS_ENCRYPTION (length plaintexts)); [lia|]. split.
  - intros Hall. now apply map_rand_encrypt_all.
  - intros good bad rest -> Hgood Hbad. now apply map_rand_encrypt_first_bad.
Qed.

Lemma base64_encode_length bs :
  length (base64_encode bs) = (4 * ((length bs + 2) / 3))%nat.
Proof.
  induction bs as [|a|a b|a b c bs IH] using list_ind3; try reflexivity.
  cbn [base64_encode length]. rewrite IH.
  replace (S (S (S (length bs))) + 2)%nat with (1 * 3 + (length bs + 2))%nat by lia.
  rewrite Nat.div_add_l by lia. lia.
Qed.

Lemma base64_char_ok v : 0 <= v < 64 -> is_base64_char (base64_char v) = true.
Proof.
  intros Hv. revert v Hv. apply (forallb_below alphabet_ok 64). vm_compute. reflexivity.
Qed.

Lemma base64_encode_chars bs :
  Forall byte bs -> forallb is_base64_char (base64_encode bs) = true.
Proof.
  induction bs as [|a|a b|a b c bs IH] using list_ind3; intros H.
  - reflexivity.
  - apply Forall_byte_cons in H as [Ha _]. pose proof byte_0.
    cbn [base64_encode forallb].
    now rewrite !base64_char_ok by auto using sextet1_range, sextet2_range.
  - apply Forall_byte_cons in H as [Ha H]. apply Forall_byte_cons in H as [Hb _].
    pose proof byte_0. cbn [base64_encode forallb].
    now rewrite !base64_char_ok by auto using sextet1_range, sextet2_range, sextet3_range.
  - apply Forall_byte_cons in H as [Ha H]. apply Forall_byte_cons in H as [Hb H].
    apply Forall_byte_cons in H as [Hc H]. cbn [base64_encode forallb].
    rewrite !base64_char_ok
      by auto using sextet1_range, sextet2_range, sextet3_range, sextet4_range.
    now apply IH.
Qed.

(** X5. The envelope of [encrypt] has a nonce field of 16 characters and
    a tag field of 24, a ciphertext field of four characters for every three
    bytes of the UTF-8 plaintext, rounded up, all of them base64 characters;
    the nonce and the tag decode to 12 and 16 bytes, and one call draws 28
    random bytes. *)
Theorem envelope_shape (P : list Z) (K : list Z) (g : rng) :
  P <> [] -> length K = KEY_LENGTH ->
  exists sealed,
    encrypt (VStr P) K g = (Return sealed, after_calls 1 g)
    /\ length (iv sealed) = 16%nat
    /\ length (authTag sealed) = 24%nat
    /\ length (encrypted sealed) = (4 * ((length (utf8_encode P) + 2) / 3))%nat
    /\ forallb is_base64_char (encrypted sealed ++ iv sealed ++ authTag sealed) = true
    /\ length (base64_decode (iv sealed)) = IV_LENGTH
    /\ length (base64_decode (authTag sealed)) = TAG_LENGTH.
Proof.
  intros HP HK. eexists. rewrite encrypt_returns by assumption.
  split; [unfold after_calls; now rewrite advance_advance|].
  cbn [envelope iv authTag encrypted].
  rewrite !base64_encode_length, xor_stream_length, nonce_of_length, tag_of_length.
  rewrite !forallb_app, !base64_encode_chars
    by auto using xor_stream_bytes, nonce_of_bytes, tag_of_bytes.
  rewrite !base64_decode_encode by auto using nonce_of_bytes, tag_of_bytes.
  rewrite nonce_of_length, tag_of_length. repeat split; reflexivity.
Qed.


Lemma xor_reveals x k n :
  byte k -> Z.lxor (Z.lxor (Z.lxor (Z.lxor x k) n mod 256) x) n mod 256 = k.
Proof.
  intros Hk. apply Z.bits_inj'. intros i Hi.
  rewrite mod256_bits by assumption. destruct (Z.ltb_spec i 8).
  - rewrite !Z.lxor_spec, mod256_bits by assumption.
    destruct (Z.ltb_spec i 8); [|lia]. rewrite !Z.lxor_spec.
    now destruct (Z.testbit x i), (Z.testbit k i), (Z.testbit n i).
  - symmetry. now apply byte_high_bits.
Qed.

(** X7. One plaintext with its envelope gives the key away: at every
    position of the UTF-8 plaintext, the key byte used there is the XOR of the
    ciphertext byte, the plaintext byte and the nonce byte, all of which the
    envelope and the plaintext show. *)
Theorem known_plaintext_reveals_the_key (P : list Z) (K : list Z) (g : rng) :
  P <> [] -> length K = KEY_LENGTH -> Forall byte K ->
  exists sealed g',
    encrypt (VStr P) K g = (Return sealed, g')
    /\ forall i p c n,
         utf8_encode P !! i = Some p ->
         base64_decode (encrypted sealed) !! i = Some c ->
         base64_decode (iv sealed) !! (i mod IV_LENGTH)%nat = Some n ->
         nth (i mod KEY_LENGTH) K 0 = Z.lxor (Z.lxor c p) n mod 256.
Proof.
  intros HP HK HbK. eexists _, _. split; [now apply encrypt_returns|].
  intros i p c n Hp Hc Hn. cbn [envelope encrypted iv] in Hc, Hn.
  rewrite base64_decode_encode in Hc by apply xor_stream_bytes.
  rewrite base64_decode_encode in Hn by apply nonce_of_bytes.
  rewrite xor_stream_lookup, Hp in Hc. cbn [fmap option_fmap option_map] in Hc.
  apply (inj Some) in Hc. subst c.
  rewrite nonce_of_length, HK.
  rewrite (nth_lookup_Some _ _ 0 _ Hn).
  symmetry. apply xor_reveals. now apply nth_byte.
Qed.

Section Hashes.

Context `{UCD : UnicodeData}.

Lemma generateHash_returns s salt :
  s <> [] ->
  generateHash (VStr s) salt
  = Return {| hash := sha256_hex (match salt with Some b => b | None => [] end
                                  ++ utf8_encode s);
              algorithm := HASH_ALGORITHM |}.
Proof. intros Hs. destruct s; [congruence|reflexivity]. Qed.

Lemma generateHash_rejects v salt :
  hashable v = false ->
  generateHash v salt = Throw (JsError "Invalid data: must be a non-empty string").
Proof. destruct v as [| | | |[|c s]]; try reflexivity. discriminate. Qed.

Lemma generateDeterministicHash_rejects v :
  hashable v = false ->
  generateDeterministicHash v = Throw (JsError "Invalid data: must be a non-empty string").
Proof. destruct v as [| | | |[|c s]]; try reflexivity. discriminate. Qed.

Lemma generateDeterministicHash_returns s :
  s <> [] ->
  generateDeterministicHash (VStr s)
  = Return (sha256_hex (utf8_encode (trim (toLowerCase s)))).
Proof. intros Hs. destruct s; [congruence|reflexivity]. Qed.

(** X8. A hash verifies against the data it was generated from, with
    the salt it was generated with, also a salt of [generateSalt], which has
    32 bytes; a deterministic hash verifies against any string that differs
    from the original only in the case of the letters A to Z or in the white
    space around it; and the two
    verifications return false, and do not throw, for data that is not a
    non-empty string. *)
Theorem verify_accepts_what_was_generated :
  (forall s salt,
      s <> [] ->
      exists r, generateHash (VStr s) salt = Return r
                /\ verifyHash (VStr s) (hash r) salt = true)
  /\ (forall s g,
         s <> [] ->
         exists salt g' r,
           generateSalt g = (Return salt, g')
           /\ length salt = 32%nat
           /\ generateHash (VStr s) (Some salt) = Return r
           /\ verifyHash (VStr s) (hash r) (Some salt) = true)
  /\ (forall s1 s2 digest,
         s2 <> [] -> differ_in_case_or_space_only s1 s2 ->
         generateDeterministicHash (VStr s1) = Return digest ->
         verifyDeterministicHash (VStr s2) digest = true)
  /\ (forall data expectedHash salt,
         hashable data = false ->
         verifyHash data expectedHash salt = false
         /\ verifyDeterministicHash data expectedHash = false).
Proof.
  split; [|split; [|split]].
  - intros s salt Hs. eexists. split; [now apply generateHash_returns|].
    unfold verifyHash. rewrite generateHash_returns by assumption.
    cbn [hash]. now apply bool_decide_eq_true.
  - intros s g Hs. exists (next_bytes 32 g). eexists _, _.
    split; [reflexivity|]. split; [apply next_bytes_length|].
    split; [now apply generateHash_returns|].
    unfold verifyHash. rewrite generateHash_returns by assumption.
    cbn [hash]. now apply bool_decide_eq_true.
  - intros s1 s2 digest Hs2 Hv H1.
    assert (Hs1 : s1 <> []) by (intros ->; discriminate).
    rewrite generateDeterministicHash_returns in H1 by assumption.
    injection H1 as <-. unfold verifyDeterministicHash.
    rewrite generateDeterministicHash_returns by assumption.
    apply bool_decide_eq_true. now rewrite (normalize_variants s1 s2 Hv).
  - intros data expectedHash salt H. unfold verifyHash, verifyDeterministicHash.
    now rewrite generateHash_rejects, generateDeterministicHash_rejects.
Qed.

(** X9. Every digest that [generateHash] or [createUniqueConstraintHash]
    returns passes [isValidHash], and what passes [isValidHash] is a string of
    64 hexadecimal characters. *)
Theorem generated_hashes_are_valid :
  (forall data salt r,
      generateHash data salt = Return r -> isValidHash (VStr (hash r)) = true)
  /\ (forall data digest,
         createUniqueConstraintHash data = Return digest ->
         isValidHash (VStr digest) = true)
  /\ (forall v,
         isValidHash v = true ->
         exists s, v = VStr s /\ length s = 64%nat /\ forallb is_hex_char s = true).
Proof.
  split; [|split].
  - intros data salt r H. destruct data as [| | | |[|c s]]; try discriminate.
    injection H as <-. cbn [hash isValidHash].
    match goal with
    | |- context [sha256_hex ?m] => destruct (sha256_hex_format m) as [Hl Hc]
    end.
    now rewrite Hl, Hc.
  - intros data digest H. unfold createUniqueConstraintHash in H.
    destruct data as [| | | |[|c s]]; try discriminate.
    injection H as <-. cbn [isValidHash].
    destruct (sha256_hex_format (utf8_encode (trim (toLowerCase (c :: s))))) as [Hl Hc].
    now rewrite Hl, Hc.
  - intros v H. destruct v as [| | | |s]; try discriminate. exists s.
    cbn [isValidHash] in H. apply andb_true_iff in H as [Hl Hc].
    apply Nat.eqb_eq in Hl. auto.
Qed.

Lemma map_result_all {A B} (f : A -> result B) (P : A -> bool) l :
  (forall a, P a = true -> exists b, f a = Return b) ->
  forallb P l = true ->
  exists bs, map_result f l = Return bs /\ Forall2 (fun a b => f a = Return b) l bs.
Proof.
  intros Hf. induction l as [|a l IH]; intros Hl.
  - exists []. split; [reflexivity|constructor].
  - cbn [forallb] in Hl. apply andb_true_iff in Hl as [Ha Hl].
    destruct (Hf a Ha) as [b Hb]. destruct (IH Hl) as (bs & Hbs & H2).
    exists (b :: bs). cbn [map_result]. rewrite Hb. cbn [bind]. rewrite Hbs.
    split; [reflexivity|now constructor].
Qed.

Lemma map_result_some_bad {A B} (f : A -> result B) (P : A -> bool) e l :
  (forall a, P a = true -> exists b, f a = Return b) ->
  (forall a, P a = false -> f a = Throw e) ->
  forallb P l = false -> map_result f l = Throw e.
Proof.
  intros Hok Hbad. induction l as [|a l IH]; intros Hl; [discriminate|].
  cbn [forallb] in Hl. cbn [map_result]. destruct (P a) eqn:Ha.
  - destruct (Hok a Ha) as [b ->]. cbn [bind]. cbn [andb] in Hl. now rewrite IH.
  - now rewrite Hbad.
Qed.

(** X10. Within the ceiling of 100, the two hash batches return the
    hashes of the items, one by one and in order, when every item is a
    non-empty string, and throw the Error of the hash function as soon as one
    item is not. *)
Theorem hash_batches_within_the_limit (dataItems : list jsval) (salt : option (list Z)) :
  (length dataItems <= BATCH_LIMITS_HASH_GENERATION)%nat ->
  (forallb hashable dataItems = true ->
   (exists rs, generateHashBatch dataItems salt = Return rs
               /\ Forall2 (fun data r => generateHash data salt = Return r) dataItems rs)
   /\ (exists ds, generateDeterministicHashBatch dataItems = Return ds
                  /\ Forall2 (fun data d => generateDeterministicHash data = Return d)
                       dataItems ds))
  /\ (forallb hashable dataItems = false ->
      generateHashBatch dataItems salt
      = Throw (JsError "Invalid data: must be a non-empty string")
      /\ generateDeterministicHashBatch dataItems
         = Throw (JsError "Invalid data: must be a non-empty string")).
Proof.
  intros Hn. unfold generateHashBatch, generateDeterministicHashBatch.
  destruct (Nat.ltb_spec BATCH_LIMITS_HASH_GENERATION (length dataItems)); [lia|].
  assert (H1 : forall a, hashable a = true -> exists b, generateHash a salt = Return b).
  { intros a Ha. destruct a as [| | | |[|c s]]; try discriminate. eexists. reflexivity. }
  assert (H2 : forall a, hashable a = true -> exists b, generateDeterministicHash a = Return b).
  { intros a Ha. destruct a as [| | | |[|c s]]; try discriminate. eexists. reflexivity. }
  split.
  - intros Hall. split; eapply map_result_all; eassumption.
  - intros Hbad. split; eapply map_result_some_bad; try eassumption.
    + intros a. apply generateHash_rejects.
    + intros a. apply generateDeterministicHash_rejects.
Qed.

Lemma reaches_cased_variants l l' :
  Forall2 case_variants l l' -> reaches_cased l = reaches_cased l'.
Proof.
  induction 1 as [|a b l l' Hab _ IH]; [reflexivity|].
  cbn [reaches_cased]. rewrite IH.
  destruct Hab as [->|(_ & _ & _ & -> & ->)]; reflexivity.
Qed.

(** The context of a position enters through its Cased and Case_Ignorable
    properties only, which variants share. *)
Lemma toLowercase_variants cps cps' :
  Forall2 case_variants cps cps' ->
  forall ctx ctx', Forall2 case_variants ctx ctx' ->
  toLowercase ctx cps = toLowercase ctx' cps'.
Proof.
  induction 1 as [|a b cps cps' Hab Hcps IH]; intros ctx ctx' Hctx; [reflexivity|].
  cbn [toLowercase]. unfold Final_Sigma.
  rewrite (reaches_cased_variants ctx ctx') by assumption.
  rewrite (reaches_cased_variants cps cps') by assumption.
  rewrite (IH (a :: ctx) (b :: ctx')) by now constructor.
  f_equal. destruct Hab as [->|(Ha & Hb & E & _)]; [reflexivity|].
  destruct (Z.eqb_spec a 0x3A3); [contradiction|].
  destruct (Z.eqb_spec b 0x3A3); [contradiction|]. exact E.
Qed.

Lemma same_letter_variants a b : same_letter a b -> case_variants a b.
Proof.
  intros H. destruct (same_letter_tables a b H) as (Hc & Hi & Hl & _).
  destruct H as [->|[[Ha ->]|[Hb ->]]]; [now left| |];
    right; unfold is_ascii_upper in *; repeat split; try assumption; lia.
Qed.

(** X27. Beyond ASCII the tables decide: two non-empty strings that are
    white space around cores which hold, code point by code point, the same
    code point or two code points with the same lowercase mapping and the same
    Cased and Case_Ignorable properties, neither of them the capital sigma
    U+03A3, have the same deterministic hash and the same unique-constraint
    hash; strings that differ in the case of the letters A to Z are such
    strings whatever the tables are. *)
Theorem table_case_variants_hash_alike :
  (forall s1 s2,
      s1 <> [] -> s2 <> [] -> variants_by_the_tables s1 s2 ->
      exists digest,
        generateDeterministicHash (VStr s1) = Return digest
        /\ generateDeterministicHash (VStr s2) = Return digest
        /\ createUniqueConstraintHash (VStr s1) = createUniqueConstraintHash (VStr s2))
  /\ (forall m1 m2,
         Forall2 same_letter m1 m2 ->
         Forall2 case_variants (StringToCodePoints m1) (StringToCodePoints m2)).
Proof.
  split.
  - intros s1 s2 H1 H2 (l1 & m1 & r1 & l2 & m2 & r2 & E1 & E2 & Hl1 & Hr1 & Hl2 & Hr2 & Hm).
    assert (E : trim (toLowerCase s1) = trim (toLowerCase s2)).
    { rewrite E1, E2, !toLowerCase_wrap, !trim_wrap by assumption.
      unfold toLowerCase. now rewrite (toLowercase_variants _ _ Hm [] []) by constructor. }
    unfold createUniqueConstraintHash.
    rewrite !generateDeterministicHash_returns by assumption. rewrite E.
    eexists. repeat split.
  - intros m1 m2 H. apply StringToCodePoints_same_letter in H.
    eapply Forall2_impl; [exact H|]. exact same_letter_variants.
Qed.

End Hashes.

Section CacheContents.

Context `{Secrets : SecretStore}.

Lemma Map_get_In (m : list (string * KeyCacheEntry)) k :
  Map_get k m = None <-> ~ In k (map fst m).
Proof.
  induction m as [|[k' v'] m IH]; cbn [Map_get map fst In]; [tauto|].
  destruct (String.eqb_spec k k') as [->|Hne].
  - split; [discriminate|]. intros H. exfalso. apply H. now left.
  - rewrite IH. split; [intros H [E|E]; [congruence|contradiction]|tauto].
Qed.

Lemma Map_get_set_eq (m : list (string * KeyCacheEntry)) k v :
  Map_get k (Map_set k v m) = Some v.
Proof.
  induction m as [|[k' v'] m IH]; cbn [Map_set Map_get].
  - now rewrite String.eqb_refl.
  - destruct (String.eqb_spec k k') as [->|Hne]; cbn [Map_get].
    + now rewrite String.eqb_refl.
    + destruct (String.eqb_spec k k'); [contradiction|exact IH].
Qed.

Lemma Map_get_set_ne (m : list (string * KeyCacheEntry)) k k' v :
  k' <> k -> Map_get k' (Map_set k v m) = Map_get k' m.
Proof.
  intros Hne. induction m as [|[k0 v0] m IH]; cbn [Map_set Map_get].
  - destruct (String.eqb_spec k' k); [contradiction|reflexivity].
  - destruct (String.eqb_spec k k0) as [->|Hk]; cbn [Map_get].
    + destruct (String.eqb_spec k' k0); [contradiction|reflexivity].
    + destruct (String.eqb_spec k' k0); [reflexivity|exact IH].
Qed.

Lemma Map_get_delete_ne (m : list (string * KeyCacheEntry)) k k' :
  k' <> k -> Map_get k' (Map_delete k m) = Map_get k' m.
Proof.
  intros Hne. induction m as [|[k0 v0] m IH]; cbn [Map_delete Map_get]; [reflexivity|].
  destruct (String.eqb_spec k k0) as [->|Hk]; cbn [Map_get].
  - destruct (String.eqb_spec k' k0); [contradiction|reflexivity].
  - destruct (String.eqb_spec k' k0); [reflexivity|exact IH].
Qed.

Lemma Map_delete_paths_in (m : list (string * KeyCacheEntry)) k k' :
  In k' (map fst (Map_delete k m)) -> In k' (map fst m).
Proof.
  induction m as [|[k0 v0] m IH]; cbn [Map_delete map fst In]; [tauto|].
  destruct (String.eqb k k0); cbn [map fst In]; tauto.
Qed.

Lemma Map_delete_NoDup (m : list (string * KeyCacheEntry)) k :
  NoDup (map fst m) -> NoDup (map fst (Map_delete k m)).
Proof.
  induction m as [|[k0 v0] m IH]; cbn [Map_delete map fst]; [tauto|].
  intros H. apply NoDup_cons in H as [Hk0 H].
  destruct (String.eqb k k0); [exact H|]. cbn [map fst]. apply NoDup_cons. split; [|auto].
  intros Hin. apply Hk0. apply list_elem_of_In. apply list_elem_of_In in Hin.
  now apply Map_delete_paths_in in Hin.
Qed.

Lemma Map_get_delete_eq (m : list (string * KeyCacheEntry)) k :
  NoDup (map fst m) -> Map_get k (Map_delete k m) = None.
Proof.
  induction m as [|[k0 v0] m IH]; cbn [Map_delete map fst]; [reflexivity|].
  intros H. apply NoDup_cons in H as [Hk0 H].
  destruct (String.eqb_spec k k0) as [->|Hne].
  - apply Map_get_In. intros Hin. apply Hk0. now apply list_elem_of_In.
  - cbn [Map_get]. destruct (String.eqb_spec k k0); [contradiction|auto].
Qed.

Lemma Map_set_paths_in (m : list (string * KeyCacheEntry)) k v k' :
  In k' (map fst (Map_set k v m)) -> k' = k \/ In k' (map fst m).
Proof.
  induction m as [|[k0 v0] m IH]; cbn [Map_set map fst In]; [intuition|].
  destruct (String.eqb_spec k k0) as [->|Hne]; cbn [map fst In]; intuition.
Qed.

Lemma Map_set_NoDup (m : list (string * KeyCacheEntry)) k v :
  NoDup (map fst m) -> NoDup (map fst (Map_set k v m)).
Proof.
  induction m as [|[k0 v0] m IH]; cbn [Map_set map fst].
  - intros _. apply NoDup_cons. split; [inversion 1|constructor].
  - intros H. apply NoDup_cons in H as [Hk0 H].
    destruct (String.eqb_spec k k0) as [->|Hne]; cbn [map fst].
    + apply NoDup_cons. auto.
    + apply NoDup_cons. split; [|auto]. intros Hin. apply list_elem_of_In in Hin.
      apply Map_set_paths_in in Hin as [->|Hin]; [congruence|].
      apply Hk0. now apply list_elem_of_In.
Qed.

Lemma getCachedKey_NoDup (m : list (string * KeyCacheEntry)) k now :
  NoDup (map fst m) -> NoDup (map fst (getCachedKey k now m).2).
Proof.
  intros H. unfold getCachedKey. destruct (Map_get k m); [|exact H].
  destruct (_ <? _); [|exact H]. now apply Map_delete_NoDup.
Qed.

Lemma cacheKey_NoDup (m : list (string * KeyCacheEntry)) k ek now ttl_ms :
  NoDup (map fst m) -> NoDup (map fst (cacheKey k ek now ttl_ms m)).
Proof.
  intros H. unfold cacheKey. apply Map_set_NoDup.
  destruct (_ <=? _)%nat; [|exact H]. destruct m as [|[o e] rest]; [exact H|].
  destruct (String.eqb o ""); [exact H|now apply Map_delete_NoDup].
Qed.

Lemma apply_op_NoDup (m : list (string * KeyCacheEntry)) op :
  NoDup (map fst m) -> NoDup (map fst (apply_op m op)).
Proof.
  intros H. destruct op as [k now later|k ek now ttl_ms|k now|]; cbn [apply_op].
  - unfold getEncryptionKey. pose proof (getCachedKey_NoDup m k now H) as H'.
    destruct (getCachedKey k now m) as [[c|] m']; cbn [snd] in *; [exact H'|].
    destruct (retrieve k); cbn [snd]; [now apply cacheKey_NoDup|exact H'].
  - now apply cacheKey_NoDup.
  - now apply getCachedKey_NoDup.
  - constructor.
Qed.

Lemma reachable_NoDup ops :
  NoDup (map fst (fold_left apply_op ops [])).
Proof.
  assert (H : forall m, NoDup (map fst m) -> NoDup (map fst (fold_left apply_op ops m))).
  { induction ops as [|op ops IH]; intros m Hm; [exact Hm|].
    cbn [fold_left]. apply IH. now apply apply_op_NoDup. }
  apply H. constructor.
Qed.

Lemma getCachedKey_fresh (m : list (string * KeyCacheEntry)) k e t :
  Map_get k m = Some e -> t <= timestamp e + ttl e ->
  getCachedKey k t m = (Some (entry_key e), m).
Proof.
  intros Hget Ht. unfold getCachedKey. rewrite Hget.
  destruct (Z.ltb_spec (timestamp e + ttl e) t); [lia|reflexivity].
Qed.

Lemma getCachedKey_expired (m : list (string * KeyCacheEntry)) k e t :
  Map_get k m = Some e -> timestamp e + ttl e < t ->
  getCachedKey k t m = (None, Map_delete k m).
Proof.
  intros Hget Ht. unfold getCachedKey. rewrite Hget.
  destruct (Z.ltb_spec (timestamp e + ttl e) t); [reflexivity|lia].
Qed.

Lemma cacheKey_get (m : list (string * KeyCacheEntry)) k ek now ttl_ms :
  Map_get k (cacheKey k ek now ttl_ms m)
  = Some {| entry_key := ek; timestamp := now; ttl := ttl_ms |}.
Proof. unfold cacheKey. apply Map_get_set_eq. Qed.

Lemma Map_delete_present_length (m : list (string * KeyCacheEntry)) k e :
  Map_get k m = Some e -> S (length (Map_delete k m)) = length m.
Proof.
  induction m as [|[k0 v0] m IH]; cbn [Map_get Map_delete length]; [discriminate|].
  destruct (String.eqb k k0); [reflexivity|]. intros H. cbn [length]. now rewrite IH.
Qed.

(** X11. An entry put into the cache by [cacheKey] is found by
    [getCachedKey] up to and including the instant its time to live ends, and
    the cache is left as it is; after that instant the look-up returns null
    and removes the entry. *)
Theorem cached_key_lives_for_its_ttl
  (ops : list cache_op) (k : string) (ek : EncryptionKey) (now ttl_ms t : Z) :
  let cached := cacheKey k ek now ttl_ms (fold_left apply_op ops []) in
  (t <= now + ttl_ms -> getCachedKey k t cached = (Some ek, cached))
  /\ (now + ttl_ms < t ->
      exists rest,
        getCachedKey k t cached = (None, rest)
        /\ Map_get k rest = None
        /\ S (length rest) = length cached).
Proof.
  intros cached. pose proof (cacheKey_get (fold_left apply_op ops []) k ek now ttl_ms) as Hget.
  fold cached in Hget. split; intros Ht.
  - now rewrite (getCachedKey_fresh cached k _ t Hget).
  - exists (Map_delete k cached). split; [now apply (getCachedKey_expired cached k _ t Hget)|].
    split.
    + apply Map_get_delete_eq. apply cacheKey_NoDup, reachable_NoDup.
    + now apply (Map_delete_present_length cached k _ Hget).
Qed.

Lemma getCachedKey_other (m : list (string * KeyCacheEntry)) k k' t :
  k' <> k -> Map_get k' (getCachedKey k t m).2 = Map_get k' m.
Proof.
  intros Hne. unfold getCachedKey. destruct (Map_get k m); [|reflexivity].
  destruct (_ <? _); [|reflexivity]. now apply Map_get_delete_ne.
Qed.

Lemma cacheKey_other (m : list (string * KeyCacheEntry)) k k' ek now ttl_ms :
  k' <> k -> (length m < MAX_CACHE_SIZE)%nat \/ head (paths m) <> Some k' ->
  Map_get k' (cacheKey k ek now ttl_ms m) = Map_get k' m.
Proof.
  intros Hne Hroom. unfold cacheKey. rewrite Map_get_set_ne by assumption.
  destruct (Nat.leb_spec MAX_CACHE_SIZE (length m)) as [Hfull|_]; [|reflexivity].
  destruct Hroom as [Hroom|Hhead]; [lia|].
  destruct m as [|[o e] rest]; [reflexivity|].
  destruct (String.eqb o ""); [reflexivity|]. apply Map_get_delete_ne.
  intros ->. now apply Hhead.
Qed.

Lemma getCachedKey_head (m : list (string * KeyCacheEntry)) k t :
  (length (getCachedKey k t m).2 < length m)%nat
  \/ (getCachedKey k t m).2 = m.
Proof.
  unfold getCachedKey. destruct (Map_get k m) as [e|] eqn:E; [|now right].
  destruct (_ <? _); [|now right]. left. cbn [snd].
  pose proof (Map_delete_present_length m k e E). lia.
Qed.

(** X12. The operations on one path leave the entries of the other
    paths alone: a look-up always, an insertion and a retrieval unless the
    cache is full and the other path is the oldest one. *)
Theorem cache_operations_are_local
  (m : list (string * KeyCacheEntry)) (k k' : string) :
  k' <> k ->
  (forall t, Map_get k' (getCachedKey k t m).2 = Map_get k' m)
  /\ (forall ek now ttl_ms,
         (length m < MAX_CACHE_SIZE)%nat \/ head (paths m) <> Some k' ->
         Map_get k' (cacheKey k ek now ttl_ms m) = Map_get k' m)
  /\ (forall now later,
         (length m <= MAX_CACHE_SIZE)%nat ->
         (length m < MAX_CACHE_SIZE)%nat \/ head (paths m) <> Some k' ->
         Map_get k' (getEncryptionKey k now later m).2 = Map_get k' m).
Proof.
  intros Hne. split; [|split].
  - intros t. now apply getCachedKey_other.
  - intros ek now ttl_ms Hroom. now apply cacheKey_other.
  - intros now later Hbound Hroom. unfold getEncryptionKey.
    pose proof (getCachedKey_other m k k' now Hne) as Hlook.
    pose proof (getCachedKey_head m k now) as Hhead.
    destruct (getCachedKey k now m) as [[c|] m']; cbn [snd] in *; [exact Hlook|].
    destruct (retrieve k); cbn [snd]; [|exact Hlook].
    rewrite cacheKey_other; [exact Hlook|exact Hne|].
    destruct Hhead as [Hshort| ->]; [|exact Hroom].
    left. lia.
Qed.

Lemma getCachedKey_hit (m : list (string * KeyCacheEntry)) k now :
  unexpired k now m = true ->
  exists e, Map_get k m = Some e /\ getCachedKey k now m = (Some (entry_key e), m).
Proof.
  unfold unexpired, getCachedKey. destruct (Map_get k m) as [e|]; [|discriminate].
  intros H. exists e. apply negb_true_iff in H. now rewrite H.
Qed.

Lemma getCachedKey_miss (m : list (string * KeyCacheEntry)) k now :
  NoDup (map fst m) -> unexpired k now m = false ->
  exists m', getCachedKey k now m = (None, m')
             /\ Map_get k m' = None /\ NoDup (map fst m').
Proof.
  unfold unexpired, getCachedKey. intros Hm. destruct (Map_get k m) as [e|] eqn:E.
  - intros H. apply negb_false_iff in H. rewrite H. exists (Map_delete k m).
    split; [reflexivity|]. split; [now apply Map_get_delete_eq|now apply Map_delete_NoDup].
  - intros _. now exists m.
Qed.

(** X13. [getEncryptionKey] goes through the cache: an entry that has
    not expired is returned without the secret store being asked; otherwise
    the store is asked, a failure is thrown on and leaves no entry under the
    path, and a key that was retrieved is cached for five minutes, during
    which the next call returns it from the cache. *)
Theorem retrieval_goes_through_the_cache
  (ops : list cache_op) (k : string) (now later : Z) :
  let m := fold_left apply_op ops [] in
  (unexpired k now m = true ->
   exists e, Map_get k m = Some e
             /\ getEncryptionKey k now later m = (Return (entry_key e), m))
  /\ (forall err,
         unexpired k now m = false -> retrieve k = Throw err ->
         exists m', getEncryptionKey k now later m = (Throw err, m')
                    /\ Map_get k m' = None)
  /\ (forall ek,
         unexpired k now m = false -> retrieve k = Return ek ->
         exists m', getEncryptionKey k now later m = (Return ek, m')
                    /\ forall t t', t <= later + DEFAULT_CACHE_TTL ->
                                    getEncryptionKey k t t' m' = (Return ek, m')).
Proof.
  intros m. pose proof (reachable_NoDup ops) as Hm. fold m in Hm.
  unfold getEncryptionKey. split; [|split].
  - intros Hf. destruct (getCachedKey_hit m k now Hf) as (e & He & ->). now exists e.
  - intros err Hf Hr. destruct (getCachedKey_miss m k now Hm Hf) as (m' & -> & Hk & _).
    rewrite Hr. now exists m'.
  - intros ek Hf Hr. destruct (getCachedKey_miss m k now Hm Hf) as (m' & -> & Hk & _).
    rewrite Hr. eexists. split; [reflexivity|]. intros t t' Ht.
    rewrite (getCachedKey_fresh _ k _ t (cacheKey_get m' k ek later DEFAULT_CACHE_TTL) Ht).
    reflexivity.
Qed.

Lemma Map_set_present_length (m : list (string * KeyCacheEntry)) k v :
  Map_get k m <> None -> length (Map_set k v m) = length m.
Proof.
  induction m as [|[k0 v0] m IH]; cbn [Map_get Map_set length]; [congruence|].
  destruct (String.eqb k k0); [reflexivity|]. intros H. cbn [length]. now rewrite IH.
Qed.

Lemma Map_set_new_paths (m : list (string * KeyCacheEntry)) k v :
  Map_get k m = None -> paths (Map_set k v m) = paths m ++ [k].
Proof.
  intros H. rewrite Map_set_new by assumption. unfold paths, getKeyCacheStats.
  cbn [snd]. now rewrite map_app.
Qed.

Lemma cacheKey_full (rest : list (string * KeyCacheEntry)) o e k ek now ttl_ms :
  length ((o, e) :: rest) = MAX_CACHE_SIZE -> o <> ""%string ->
  cacheKey k ek now ttl_ms ((o, e) :: rest)
  = Map_set k {| entry_key := ek; timestamp := now; ttl := ttl_ms |} rest.
Proof.
  intros Hfull Ho. unfold cacheKey. rewrite Hfull, Nat.leb_refl.
  destruct (String.eqb_spec o ""); [contradiction|].
  cbn [Map_delete]. now rewrite String.eqb_refl.
Qed.

(** X14. Eviction follows the order of insertion, not of use: in a full
    cache the oldest entry is gone after the next insertion of another path
    even when it has just been read; inserting a path that is already cached
    still evicts the oldest entry and leaves nine; inserting a new path leaves
    ten, with the new path last. *)
Theorem eviction_is_by_insertion_order
  (ops : list cache_op) (o : string) (e : KeyCacheEntry)
  (rest : list (string * KeyCacheEntry)) (k : string) (ek : EncryptionKey)
  (now ttl_ms t : Z) :
  fold_left apply_op ops [] = (o, e) :: rest ->
  length ((o, e) :: rest) = MAX_CACHE_SIZE ->
  o <> ""%string -> k <> o ->
  Map_get o (cacheKey k ek now ttl_ms (getCachedKey o t ((o, e) :: rest)).2) = None
  /\ (Map_get k rest <> None ->
      length (cacheKey k ek now ttl_ms ((o, e) :: rest)) = 9%nat)
  /\ (Map_get k rest = None ->
      length (cacheKey k ek now ttl_ms ((o, e) :: rest)) = MAX_CACHE_SIZE
      /\ paths (cacheKey k ek now ttl_ms ((o, e) :: rest)) = paths rest ++ [k]).
Proof.
  intros Hreach Hfull Ho Hk. pose proof (reachable_NoDup ops) as Hm.
  rewrite Hreach in Hm. cbn [map fst] in Hm. apply NoDup_cons in Hm as [Hfresh Hm].
  assert (Hrest : Map_get o rest = None).
  { apply Map_get_In. intros Hin. apply Hfresh. now apply list_elem_of_In. }
  split; [|split].
  - assert (Hlook : (getCachedKey o t ((o, e) :: rest)).2 = (o, e) :: rest
                    \/ (getCachedKey o t ((o, e) :: rest)).2 = rest).
    { unfold getCachedKey. cbn [Map_get]. rewrite String.eqb_refl.
      destruct (_ <? _); [right|left]; [|reflexivity].
      cbn [snd Map_delete]. now rewrite String.eqb_refl. }
    destruct Hlook as [-> | ->].
    + rewrite cacheKey_full by assumption. rewrite Map_get_set_ne by congruence. exact Hrest.
    + unfold cacheKey. rewrite Map_get_set_ne by congruence.
      cbn [length] in Hfull. unfold MAX_CACHE_SIZE in *.
      destruct (Nat.leb_spec 10 (length rest)); [lia|exact Hrest].
  - intros Hpresent. rewrite cacheKey_full by assumption.
    rewrite Map_set_present_length by assumption.
    cbn [length] in Hfull. unfold MAX_CACHE_SIZE in Hfull. lia.
  - intros Hnew. rewrite cacheKey_full by assumption. split.
    + rewrite Map_set_new by assumption. rewrite length_app. cbn [length] in *. lia.
    + now apply Map_set_new_paths.
Qed.

Lemma paths_Map_get (m : list (string * KeyCacheEntry)) k :
  k ∈ paths m <-> Map_get k m <> None.
Proof.
  unfold paths, getKeyCacheStats. cbn [snd]. rewrite list_elem_of_In.
  pose proof (Map_get_In m k) as H. destruct (Map_get k m).
  - split; [discriminate|]. intros _. destruct (In_dec string_dec k (map fst m)) as [Hin|Hout];
      [exact Hin|]. apply H in Hout. discriminate.
  - split; [|congruence]. intros Hin. exfalso. now apply (proj1 H).
Qed.

(** X15. [getKeyCacheStats] reports as its size the number of paths it
    lists, lists no path twice, and lists exactly the paths under which an
    entry is held; after [clearKeyCache] it reports nothing and every look-up
    misses. *)
Theorem stats_list_the_cached_paths (ops : list cache_op) :
  let m := fold_left apply_op ops [] in
  (getKeyCacheStats m).1 = length (paths m)
  /\ NoDup (paths m)
  /\ (forall k, k ∈ paths m <-> exists e, Map_get k m = Some e)
  /\ getKeyCacheStats (clearKeyCache m) = (0%nat, [])
  /\ (forall k t, getCachedKey k t (clearKeyCache m) = (None, [])).
Proof.
  intros m. split; [|split; [|split; [|split]]].
  - unfold paths, getKeyCacheStats. cbn [fst snd]. now rewrite length_map.
  - apply reachable_NoDup.
  - intros k. rewrite paths_Map_get. destruct (Map_get k m) as [e|].
    + split; [eauto|discriminate].
    + split; [congruence|]. intros [e He]. discriminate.
  - reflexivity.
  - reflexivity.
Qed.

End CacheContents.

(** X16. When [validateSecretsManagerConfig] accepts, the region that
    [createSecretsManagerClient] gives the client is the one that was
    validated, and a client without explicit credentials has them in the
    environment; when no region is given anywhere the validation throws, while
    the client would fall back to us-east-1; the validation throws nothing
    but its two KeyRetrievalErrors. *)
Theorem validated_configuration_is_the_one_used
  (e : aws_env) (config : option SecretsManagerConfig) :
  let client := createSecretsManagerClient e config in
  (validateSecretsManagerConfig e config = Return true ->
   requested_region e config = Some (client_region client)
   /\ client_region client <> ""%string
   /\ (client_credentials client = None ->
       given (AWS_ACCESS_KEY_ID e) = true /\ given (AWS_SECRET_ACCESS_KEY e) = true))
  /\ (given (requested_region e config) = false ->
      validateSecretsManagerConfig e config
      = Throw (KeyRetrievalError "AWS region is required for Secrets Manager access")
      /\ client_region client = "us-east-1"%string)
  /\ (forall err,
         validateSecretsManagerConfig e config = Throw err ->
         err = KeyRetrievalError "AWS region is required for Secrets Manager access"
         \/ err = KeyRetrievalError "AWS credentials are required for Secrets Manager access").
Proof.
  intros client. subst client.
  unfold validateSecretsManagerConfig, createSecretsManagerClient.
  cbn [client_region client_credentials].
  destruct (requested_region e config) as [r|] eqn:Er; cbn [given negb].
  2:{ split; [discriminate|]. split; [now split|]. intros err H. injection H as <-. now left. }
  destruct (String.eqb_spec r "") as [->|Hr]; cbn [negb].
  { split; [discriminate|]. split; [now split|]. intros err H. injection H as <-. now left. }
  split; [|split].
  - destruct (hasConfigCredentials config) eqn:Hc; cbn [negb andb].
    + intros _. split; [reflexivity|]. split; [exact Hr|].
      destruct config as [c|]; [discriminate|discriminate].
    + destruct (given (AWS_ACCESS_KEY_ID e) && given (AWS_SECRET_ACCESS_KEY e)) eqn:He;
        cbn [negb]; [|discriminate].
      intros _. split; [reflexivity|]. split; [exact Hr|].
      intros _. now apply andb_true_iff in He.
  - discriminate.
  - intros err. destruct (negb (hasConfigCredentials config) && _); [|discriminate].
    intros H. injection H as <-. now right.
Qed.

Lemma hex_decode_byte b rest :
  byte b -> hex_decode (hex_byte b ++ rest) = b :: hex_decode rest.
Proof.
  intros Hb. assert (H : hex_byte_ok b = true).
  { revert b Hb. apply (one_byte hex_byte_ok). vm_compute. reflexivity. }
  unfold hex_byte_ok in H. unfold hex_byte. cbn [app hex_decode].
  destruct (unhex (hex_digit (Z.shiftr b 4))) as [x|]; [|discriminate].
  destruct (unhex (hex_digit (Z.land b 15))) as [y|]; [|discriminate].
  apply Z.eqb_eq in H. now rewrite H.
Qed.

Lemma hex_decode_encode bs : Forall byte bs -> hex_decode (hex_encode bs) = bs.
Proof.
  unfold hex_encode. induction 1 as [|b bs Hb _ IH]; [reflexivity|].
  cbn [flat_map]. now rewrite hex_decode_byte, IH.
Qed.

Lemma unhex_range c a : unhex c = Some a -> 0 <= a < 16.
Proof.
  unfold unhex. intros H.
  repeat match type of H with
    | (if ?t then _ else _) = _ => destruct t eqn:?; [injection H as <-; lia|]
    end.
  discriminate.
Qed.

Lemma hex_decode_bytes s : Forall byte (hex_decode s).
Proof.
  remember (length s) as n eqn:Hn. revert s Hn.
  induction n as [n IH] using lt_wf_ind. intros s Hn.
  destruct s as [|c [|d rest]]; cbn [hex_decode]; try constructor.
  destruct (unhex c) as [a|] eqn:Ea; [|constructor].
  destruct (unhex d) as [b|] eqn:Eb; [|constructor].
  apply unhex_range in Ea, Eb. constructor.
  - unfold byte. rewrite (lor_shiftl a b 4) by (change (2 ^ 4) with 16; lia).
    change (2 ^ 4) with 16. lia.
  - apply (IH (length rest)); [subst n; cbn [length]; lia|reflexivity].
Qed.

Section RetrievalProofs.

Context `{Manager : SecretsManager}.

Lemma rethrow_error {A} keyPath (r : result A) err :
  rethrow keyPath r = Throw err -> exists message, err = KeyRetrievalError message.
Proof.
  destruct r as [a|[m|m|m|m|m]]; cbn [rethrow]; intros H;
    try discriminate; injection H as <-; eauto.
Qed.

Lemma rethrow_returns {A} keyPath (r : result A) a :
  rethrow keyPath r = Return a -> r = Return a.
Proof. destruct r as [a'|[m|m|m|m|m]]; cbn [rethrow]; congruence. Qed.

(** X17. Retrieving a key fails with a KeyRetrievalError and nothing
    else, whatever went wrong; a failure of [getEncryptionKey] adds no entry to
    the cache; and a secret whose key does not decode to 32 bytes, whatever
    else it holds, is reported as a failure to retrieve, the EncryptionError
    of the validation being wrapped. *)
Theorem retrieval_fails_with_KeyRetrievalError_only
  (config : option SecretsManagerConfig) (keyPath : string) (now later : Z)
  (keyCache : list (string * KeyCacheEntry)) :
  (forall err,
      retrieveKey config keyPath = Throw err ->
      exists message, err = KeyRetrievalError message)
  /\ (forall err keyCache',
         getEncryptionKey (Secrets := secrets_manager config) keyPath now later keyCache
         = (Throw err, keyCache') ->
         (exists message, err = KeyRetrievalError message)
         /\ keyCache' = (getCachedKey keyPath now keyCache).2
         /\ (length keyCache' <= length keyCache)%nat)
  /\ (forall response c text secretData hex,
         send (createSecretsManagerClient aws config) keyPath = Return response ->
         SecretString response = Some (c :: text) ->
         JSON_parse (c :: text) = Some (ParsedObject secretData) ->
         secret_key secretData = VStr hex ->
         hex <> [] -> length (hex_decode hex) <> KEY_LENGTH ->
         retrieveKey config keyPath
         = Throw (KeyRetrievalError
                    ("Failed to retrieve encryption key from " ++ keyPath))).
Proof.
  split; [|split].
  - intros err. apply rethrow_error.
  - intros err keyCache'. unfold getEncryptionKey. cbn [retrieve secrets_manager].
    pose proof (getCachedKey_head keyCache keyPath now) as Hhead.
    destruct (getCachedKey keyPath now keyCache) as [[c|] m']; [discriminate|].
    cbn [snd] in Hhead.
    destruct (retrieveKey config keyPath) as [ek|e] eqn:E; [discriminate|].
    intros H. injection H as <- <-. split; [now apply (rethrow_error keyPath _ _ E)|].
    split; [reflexivity|]. destruct Hhead as [H| ->]; lia.
  - intros response c text secretData hex Hsend Htext Hparse Hkey Hhex Hlen.
    unfold retrieveKey. rewrite Hsend. cbn [bind]. rewrite Htext, Hparse, Hkey.
    cbn [truthy]. destruct hex as [|h hex]; [congruence|]. cbn [negb].
    unfold validateEncryptionKey.
    destruct (Nat.eqb_spec (length (hex_decode (h :: hex))) KEY_LENGTH); [contradiction|].
    reflexivity.
Qed.

(** X18. A key that was retrieved has 32 bytes and passes
    [validateEncryptionKey], and its version is not 0. A secret holding the 64
    hexadecimal digits of a key gives that key; without a key id and a name
    the path is the key id, without a version or with version 0 the version is
    1; and [getEncryptionKey] on an empty cache returns the key and leaves it
    cached under the path. *)
Theorem retrieved_key_is_valid
  (config : option SecretsManagerConfig) (keyPath : string) :
  (forall ek,
      retrieveKey config keyPath = Return ek ->
      length (key ek) = KEY_LENGTH /\ Forall byte (key ek)
      /\ validateEncryptionKey (KeyBuffer (key ek)) = Return true
      /\ version ek <> 0)
  /\ (forall response c text secretData K,
         send (createSecretsManagerClient aws config) keyPath = Return response ->
         SecretString response = Some (c :: text) ->
         JSON_parse (c :: text) = Some (ParsedObject secretData) ->
         secret_key secretData = VStr (hex_encode K) ->
         length K = KEY_LENGTH -> Forall byte K ->
         exists ek,
           retrieveKey config keyPath = Return ek
           /\ key ek = K
           /\ (secret_keyId secretData = None -> Name response = None -> keyId ek = keyPath)
           /\ (secret_version secretData = None \/ secret_version secretData = Some 0 ->
               version ek = 1)
           /\ forall now later,
                getEncryptionKey (Secrets := secrets_manager config) keyPath now later []
                = (Return ek,
                   [(keyPath, {| entry_key := ek; timestamp := later;
                                 ttl := DEFAULT_CACHE_TTL |})])).
Proof.
  split.
  - intros ek H. apply rethrow_returns in H.
    destruct (send _ keyPath) as [response|e]; [|discriminate]. cbn [bind] in H.
    destruct (SecretString response) as [[|c text]|]; try discriminate.
    destruct (JSON_parse (c :: text)) as [[|secretData]|]; try discriminate.
    destruct (negb (truthy (secret_key secretData))); [discriminate|].
    destruct (secret_key secretData) as [| | | |hex]; try discriminate.
    unfold validateEncryptionKey in H.
    destruct (Nat.eqb_spec (length (hex_decode hex)) KEY_LENGTH) as [Hl|]; [|discriminate].
    cbn [negb bind] in H. injection H as <-. cbn [key version].
    split; [exact Hl|]. split; [apply hex_decode_bytes|].
    split; [unfold validateEncryptionKey; now rewrite Hl, Nat.eqb_refl|].
    destruct (secret_version secretData) as [v|]; [|discriminate].
    destruct (Z.eqb_spec v 0); [discriminate|assumption].
  - intros response c text secretData K Hsend Htext Hparse Hkey HK HbK.
    assert (Hne : hex_encode K <> []).
    { destruct K as [|b K]; [discriminate|]. unfold hex_encode, hex_byte. discriminate. }
    assert (E : exists ek, retrieveKey config keyPath = Return ek /\ key ek = K
                 /\ (secret_keyId secretData = None -> Name response = None ->
                     keyId ek = keyPath)
                 /\ (secret_version secretData = None \/ secret_version secretData = Some 0 ->
                     version ek = 1)).
    { unfold retrieveKey. rewrite Hsend. cbn [bind]. rewrite Htext, Hparse, Hkey.
      cbn [truthy]. destruct (hex_encode K) as [|h hex] eqn:Eh; [congruence|].
      cbn [negb]. rewrite <- Eh, hex_decode_encode by assumption.
      unfold validateEncryptionKey. rewrite HK, Nat.eqb_refl. cbn [negb bind rethrow].
      eexists. split; [reflexivity|]. cbn [key keyId version]. split; [reflexivity|].
      split.
      - intros -> ->. reflexivity.
      - intros [-> | ->]; reflexivity. }
    destruct E as (ek & Hek & E). exists ek. split; [exact Hek|].
    destruct E as (E1 & E2 & E3). repeat split; try assumption.
    intros now later. unfold getEncryptionKey. cbn [getCachedKey Map_get retrieve secrets_manager].
    now rewrite Hek.
Qed.

End RetrievalProofs.

(** X19. [mockDecrypt] gives back what [mockEncrypt] was given, for
    every well-formed string, the empty one included, so [mockEncrypt] maps
    different strings to different texts; its output for a non-empty string is
    the prefix followed by four characters for every three bytes; and
    [mockDecrypt] returns a string without the prefix as it is. *)
Theorem mock_round_trip :
  (forall s,
      well_formed s = true ->
      exists c, mockEncrypt (VStr s) = Return c /\ mockDecrypt (VStr c) = Return s)
  /\ (forall s1 s2 c,
         well_formed s1 = true -> well_formed s2 = true ->
         mockEncrypt (VStr s1) = Return c -> mockEncrypt (VStr s2) = Return c -> s1 = s2)
  /\ (forall s c,
         s <> [] -> mockEncrypt (VStr s) = Return c ->
         startsWith c mock_prefix = true
         /\ length c = (15 + 4 * ((length (utf8_encode s) + 2) / 3))%nat)
  /\ (forall s, startsWith s mock_prefix = false -> mockDecrypt (VStr s) = Return s).
Proof.
  assert (Hrt : forall s, well_formed s = true ->
            exists c, mockEncrypt (VStr s) = Return c /\ mockDecrypt (VStr c) = Return s).
  { intros [|c s] Hwf; [now exists []|].
    destruct (mockDecrypt_mockEncrypt (c :: s)) as [-> Hd]; [discriminate|exact Hwf|].
    eauto. }
  split; [exact Hrt|]. split; [|split].
  - intros s1 s2 c H1 H2 E1 E2.
    destruct (Hrt s1 H1) as (c1 & Hc1 & Hd1). destruct (Hrt s2 H2) as (c2 & Hc2 & Hd2).
    congruence.
  - intros s c Hs E.
    assert (Ec : c = mock_prefix ++ base64_encode (utf8_encode s)).
    { destruct s as [|x s]; [congruence|].
      change (mockEncrypt (VStr (x :: s)))
        with (@Return (list Z) (mock_prefix ++ base64_encode (utf8_encode (x :: s)))) in E.
      congruence. }
    rewrite Ec. split; [apply startsWith_app|].
    now rewrite length_app, base64_encode_length.
  - intros s H. unfold mockDecrypt. destruct s as [|x s]; [reflexivity|].
    cbn [truthy negb]. now rewrite H.
Qed.

Section Interception.

Context `{UCD : UnicodeData} `{Host : Runtime} `{Storage : Backend}.

Lemma storage_loop_skips configs data t :
  Forall (fun config => present (js_get data (fieldName config)) = false) configs ->
  storage_loop configs data t = (Return t, []).
Proof.
  induction 1 as [|config rest Hc _ IH]; [reflexivity|].
  cbn [storage_loop]. now rewrite Hc.
Qed.

Lemma transformDataForStorage_plain_names modelName configs input out lines config :
  ENCRYPTED_FIELD_MAP !! modelName = Some configs ->
  transformDataForStorage modelName input = (Return out, lines) ->
  config ∈ configs ->
  out !! fieldName config = None
  \/ (present (js_get input (fieldName config)) = false
      /\ out !! fieldName config = input !! fieldName config).
Proof.
  intros Hm H Hin. unfold transformDataForStorage in H. rewrite Hm in H.
  pose proof (registry_columns_distinct _ _ Hm) as Hd.
  destruct (present (js_get input (fieldName config))) eqn:Hp.
  - left. now destruct (storage_loop_present _ _ _ _ _ config Hd H Hin Hp) as (h & _ & H1 & _).
  - right. split; [reflexivity|].
    apply (storage_loop_absent _ _ _ _ _ config _ Hd H Hin Hp). now left.
Qed.

(** X20. The write path touches nothing but its columns: a model
    without sensitive fields is returned as it is, a property outside the
    three columns of the configured fields is returned as it is, and a plain
    name is either gone or was null or absent and is left as it was. *)
Theorem write_path_touches_its_columns_only
  (modelName : string) (input out : gmap string jsval) (lines : list string) :
  transformDataForStorage modelName input = (Return out, lines) ->
  (ENCRYPTED_FIELD_MAP !! modelName = None -> out = input /\ lines = [])
  /\ (forall configs k,
         ENCRYPTED_FIELD_MAP !! modelName = Some configs ->
         k ∉ all_columns configs -> out !! k = input !! k)
  /\ (forall configs config,
         ENCRYPTED_FIELD_MAP !! modelName = Some configs -> config ∈ configs ->
         out !! fieldName config = None
         \/ (present (js_get input (fieldName config)) = false
             /\ out !! fieldName config = input !! fieldName config)).
Proof.
  intros H0. pose proof H0 as H. unfold transformDataForStorage in H. split; [|split].
  - intros Hm. rewrite Hm in H. now injection H as <- <-.
  - intros configs k Hm Hk. rewrite Hm in H. exact (storage_loop_frame _ _ _ _ _ _ H Hk).
  - intros configs config Hm Hin.
    apply (transformDataForStorage_plain_names modelName configs input out lines);
      assumption.
Qed.

(** X21. The write path is idempotent: applied to its own output it
    returns it unchanged and writes nothing to the console. *)
Theorem write_path_is_idempotent
  (modelName : string) (input out : gmap string jsval) (lines : list string) :
  transformDataForStorage modelName input = (Return out, lines) ->
  transformDataForStorage modelName out = (Return out, []).
Proof.
  intros H. unfold transformDataForStorage at 1.
  destruct (ENCRYPTED_FIELD_MAP !! modelName) as [configs|] eqn:Hm; [|reflexivity].
  apply storage_loop_skips. apply Forall_forall. intros config Hin.
  destruct (transformDataForStorage_plain_names _ _ _ _ _ config Hm H Hin)
    as [Hgone|[Hp Hsame]]; unfold js_get in *.
  - now rewrite Hgone.
  - now rewrite Hsame.
Qed.

Lemma mockDecrypt_passes s :
  startsWith s mock_prefix = false -> mockDecrypt (VStr s) = Return s.
Proof.
  intros H. unfold mockDecrypt. destruct s as [|x s]; [reflexivity|].
  cbn [truthy negb]. now rewrite H.
Qed.

(** X22. A record that arrives with no property under a plain name, its
    ciphertext columns filled in by the caller as the register route does, is
    handed on unchanged; in mock mode it reads back with the plain name
    holding what the ciphertext column holds, when that does not begin with
    the prefix of the mock. *)
Theorem filled_columns_bypass_the_layer
  (modelName : string) (configs : list EncryptionConfig) (input : gmap string jsval) :
  ENCRYPTED_FIELD_MAP !! modelName = Some configs ->
  (forall config, config ∈ configs -> present (js_get input (fieldName config)) = false) ->
  transformDataForStorage modelName input = (Return input, [])
  /\ (forall config s,
         isMockMode env = true -> config ∈ configs ->
         input !! encryptedField config = Some (VStr s) ->
         startsWith s mock_prefix = false ->
         (transformRecordForReading modelName input).1 !! fieldName config = Some (VStr s)).
Proof.
  intros Hm Habsent. split.
  - unfold transformDataForStorage. rewrite Hm. apply storage_loop_skips.
    now apply Forall_forall.
  - intros config s Hmock Hin Hs Hprefix. unfold transformRecordForReading. rewrite Hm.
    assert (Hget : js_get input (encryptedField config) = VStr s).
    { unfold js_get. now rewrite Hs. }
    rewrite (reading_loop_field configs input input config
               (registry_fields_distinct _ _ Hm) Hin) by now rewrite Hget.
    rewrite Hget. unfold decryptValue. rewrite Hmock.
    now rewrite mockDecrypt_passes.
Qed.

Lemma reading_loop_lines configs r t line :
  line ∈ (reading_loop configs r t).2 ->
  exists config, config ∈ configs /\ line = decrypt_line config
                 /\ present (js_get r (encryptedField config)) = true
                 /\ is_return (decryptValue config (js_get r (encryptedField config))) = false.
Proof.
  revert t. induction configs as [|config rest IH]; intros t H; [inversion H|].
  cbn [reading_loop] in H.
  destruct (present (js_get r (encryptedField config))) eqn:Hp.
  - destruct (readField config (js_get r (encryptedField config)) t) as [t' l1] eqn:E1.
    destruct (reading_loop rest r t') as [t'' l2] eqn:E2. cbn [snd] in H.
    apply elem_of_app in H as [H|H].
    + exists config. unfold readField in E1.
      destruct (decryptValue config (js_get r (encryptedField config)));
        injection E1 as _ <-; [inversion H|].
      apply list_elem_of_singleton in H. subst line.
      repeat split; [left|assumption].
    + specialize (IH t'). rewrite E2 in IH. destruct (IH H) as (c & Hc & Hl).
      exists c. split; [now right|exact Hl].
  - destruct (IH t H) as (c & Hc & Hl). exists c. split; [now right|exact Hl].
Qed.

Lemma reading_loop_skipped configs r t config :
  NoDup (map fieldName configs) -> config ∈ configs ->
  present (js_get r (encryptedField config)) = false ->
  (reading_loop configs r t).1 !! fieldName config = t !! fieldName config.
Proof.
  revert t. induction configs as [|config0 rest IH]; intros t Hd Hin Hp; [inversion Hin|].
  cbn [map] in Hd. apply NoDup_cons in Hd as [Hnot Hd]. cbn [reading_loop].
  apply elem_of_cons in Hin as [->|Hin].
  - rewrite Hp. now apply reading_loop_frame.
  - assert (Hne : fieldName config <> fieldName config0).
    { intros E. apply Hnot. rewrite <- E. apply list_elem_of_fmap. now exists config. }
    destruct (present (js_get r (encryptedField config0))); [|now apply IH].
    destruct (readField config0 (js_get r (encryptedField config0)) t) as [t' l1] eqn:E1.
    destruct (reading_loop rest r t') as [t'' l2] eqn:E2. cbn [fst].
    pose proof (IH t' Hd Hin Hp) as H2. rewrite E2 in H2. cbn [fst] in H2. rewrite H2.
    pose proof (readField_frame config0 (js_get r (encryptedField config0)) t _ Hne) as H1.
    now rewrite E1 in H1.
Qed.

Lemma columns_apart (sel : EncryptionConfig -> string) configs config config' :
  (forall c, sel c ∈ columns c) ->
  (forall c, NoDup (columns c) -> sel c <> fieldName c) ->
  NoDup (all_columns configs) -> config ∈ configs -> config' ∈ configs ->
  sel config <> fieldName config'.
Proof.
  intros Hsel Hown. induction configs as [|c0 rest IH]; intros Hd Hc Hc'; [inversion Hc|].
  apply all_columns_cons in Hd as (Hd0 & Hdis & Hdrest).
  assert (Hfield : forall c, fieldName c ∈ columns c) by (intros c; left).
  apply elem_of_cons in Hc as [->|Hc]; apply elem_of_cons in Hc' as [->|Hc'].
  - now apply Hown.
  - intros E. apply (Hdis (sel c0) (Hsel c0)). rewrite E.
    now apply (columns_in_all config' rest).
  - intros E. apply (Hdis (fieldName c0) (Hfield c0)). rewrite <- E.
    now apply (columns_in_all config rest).
  - now apply IH.
Qed.

Lemma registry_plain_names modelName configs config config' :
  ENCRYPTED_FIELD_MAP !! modelName = Some configs ->
  config ∈ configs -> config' ∈ configs ->
  encryptedField config <> fieldName config' /\ hashField config <> fieldName config'.
Proof.
  intros Hm Hc Hc'. pose proof (registry_columns_distinct _ _ Hm) as Hd.
  split.
  - apply (columns_apart encryptedField configs); try assumption.
    + intros c. right. left.
    + intros c Hn. unfold columns in Hn. apply NoDup_cons in Hn as [Hn _].
      intros E. apply Hn. rewrite <- E. left.
  - apply (columns_apart hashField configs); try assumption.
    + intros c. right. right. left.
    + intros c Hn. unfold columns in Hn. apply NoDup_cons in Hn as [Hn _].
      intros E. apply Hn. rewrite <- E. right. left.
Qed.

(** X23. The read path of a record cannot fail. It changes nothing but
    the plain names, so the ciphertext and digest columns stay in the result;
    the plain name of a field whose ciphertext is there holds the decrypted
    string, or the stored value itself when decrypting threw; a field without
    ciphertext keeps its plain name as it was; and a line on the console tells
    of a field whose decryption threw. *)
Theorem read_path_falls_back_and_keeps_the_columns
  (modelName : string) (configs : list EncryptionConfig) (r : gmap string jsval) :
  ENCRYPTED_FIELD_MAP !! modelName = Some configs ->
  let out := (transformRecordForReading modelName r).1 in
  let lines := (transformRecordForReading modelName r).2 in
  (forall k, k ∉ map fieldName configs -> out !! k = r !! k)
  /\ (forall config,
         config ∈ configs ->
         out !! encryptedField config = r !! encryptedField config
         /\ out !! hashField config = r !! hashField config)
  /\ (forall config,
         config ∈ configs -> present (js_get r (encryptedField config)) = true ->
         out !! fieldName config
         = Some (match decryptValue config (js_get r (encryptedField config)) with
                 | Return decryptedValue => VStr decryptedValue
                 | Throw _ => js_get r (encryptedField config)
                 end))
  /\ (forall config,
         config ∈ configs -> present (js_get r (encryptedField config)) = false ->
         out !! fieldName config = r !! fieldName config)
  /\ (forall line,
         line ∈ lines ->
         exists config,
           config ∈ configs /\ line = decrypt_line config
           /\ is_return (decryptValue config (js_get r (encryptedField config))) = false).
Proof.
  intros Hm out lines. subst out lines. unfold transformRecordForReading. rewrite Hm.
  pose proof (registry_fields_distinct _ _ Hm) as Hf.
  split; [|split; [|split; [|split]]].
  - intros k Hk. now apply reading_loop_frame.
  - intros config Hin.
    assert (Hout : forall k, k ∈ [encryptedField config; hashField config] ->
                     k ∉ map fieldName configs).
    { intros k Hk Hin'. apply list_elem_of_fmap in Hin' as (config' & E & Hc').
      destruct (registry_plain_names _ _ config config' Hm Hin Hc') as [H1 H2].
      apply elem_of_cons in Hk as [Hk|Hk]; [congruence|].
      apply list_elem_of_singleton in Hk. congruence. }
    split; apply reading_loop_frame, Hout; [left|right; left].
  - intros config Hin Hp. now apply reading_loop_field.
  - intros config Hin Hp. now apply reading_loop_skipped.
  - intros line Hl. destruct (reading_loop_lines _ _ _ _ Hl) as (c & Hc & -> & _ & Hfail).
    now exists c.
Qed.

Lemma transformDataForStorage_error modelName r e lines :
  transformDataForStorage modelName r = (Throw e, lines) ->
  e = JsError "Invalid data: must be a non-empty string".
Proof.
  unfold transformDataForStorage.
  destruct (ENCRYPTED_FIELD_MAP !! modelName); [apply storage_loop_error|discriminate].
Qed.

Lemma transformAllForStorage_error modelName rs e lines :
  transformAllForStorage modelName rs = (Throw e, lines) ->
  e = JsError "Invalid data: must be a non-empty string".
Proof.
  revert lines. induction rs as [|r rs IH]; intros lines H; [discriminate|].
  cbn [transformAllForStorage] in H.
  destruct (transformDataForStorage modelName r) as [[r'|e'] l1] eqn:E1;
    destruct (transformAllForStorage modelName rs) as [[rs'|e''] l2] eqn:E2;
    cbn [bind] in H; try discriminate.
  - injection H as <- _. exact (IH _ eq_refl).
  - injection H as <- _. exact (transformDataForStorage_error _ _ _ _ E1).
  - injection H as <- _. exact (transformDataForStorage_error _ _ _ _ E1).
Qed.

Lemma transformOptional_error modelName o e lines :
  transformOptional modelName o = (Throw e, lines) ->
  e = JsError "Invalid data: must be a non-empty string".
Proof.
  unfold transformOptional. destruct o as [r|]; [|discriminate].
  destruct (transformDataForStorage modelName r) as [[r'|e'] l1] eqn:E1; [discriminate|].
  intros H. injection H as <- _. exact (transformDataForStorage_error _ _ _ _ E1).
Qed.

Lemma storageArgs_error op modelName args e lines :
  storageArgs op modelName args = (Throw e, lines) ->
  e = JsError "Invalid data: must be a non-empty string".
Proof.
  unfold storageArgs, transformPayload. intros H.
  destruct op; try discriminate.
  1,2,4,5: destruct (data args) as [[r|rs]|]; try discriminate.
  all: repeat match type of H with
         | context [transformDataForStorage ?m ?r] =>
             let E := fresh "E" in
             destruct (transformDataForStorage m r) as [[?|?] ?] eqn:E;
               [try discriminate|injection H as <- _;
                                 exact (transformDataForStorage_error _ _ _ _ E)]
         | context [transformAllForStorage ?m ?r] =>
             let E := fresh "E" in
             destruct (transformAllForStorage m r) as [[?|?] ?] eqn:E;
               [try discriminate|injection H as <- _;
                                 exact (transformAllForStorage_error _ _ _ _ E)]
         | context [transformOptional ?m ?r] =>
             let E := fresh "E" in
             destruct (transformOptional m r) as [[?|?] ?] eqn:E;
               [try discriminate|injection H as <- _;
                                 exact (transformOptional_error _ _ _ _ E)]
         end.
Qed.

Lemma transformAllForReading_length modelName rs :
  length (transformAllForReading modelName rs).1 = length rs.
Proof.
  induction rs as [|r rs IH]; [reflexivity|]. cbn [transformAllForReading].
  destruct (transformRecordForReading modelName r) as [r' l1].
  destruct (transformAllForReading modelName rs) as [rs' l2]. cbn [fst length] in *.
  now rewrite IH.
Qed.

(** X24. An operation fails only for the hash or the backend: when the
    write path refuses a value that is not a non-empty string, or when the
    query rejects. The reads and the deletions hand the arguments on
    unchanged; a list of records is read record by record, and null stays
    null. *)
Theorem operations_fail_for_the_hash_or_the_backend_only
  (op : operation) (modelName : string) (args : query_args) :
  (forall e lines,
      runOperation op modelName args = (Throw e, lines) ->
      (storageArgs op modelName args = (Throw e, lines)
       /\ e = JsError "Invalid data: must be a non-empty string")
      \/ (exists args', storageArgs op modelName args = (Return args', lines)
                        /\ query op args' = Throw e))
  /\ (writes_nothing op = true -> storageArgs op modelName args = (Return args, []))
  /\ (forall rs,
         exists rs' lines,
           transformDataForReading modelName (QArray rs) = (QArray rs', lines)
           /\ length rs' = length rs)
  /\ transformDataForReading modelName QNull = (QNull, []).
Proof.
  split; [|split; [|split]].
  - intros e lines H. unfold runOperation in H.
    destruct (storageArgs op modelName args) as [[args'|e'] l1] eqn:E1.
    + right. exists args'. destruct (query op args') as [result|e'] eqn:E2.
      * destruct op; try discriminate;
          destruct (transformDataForReading modelName result); discriminate.
      * injection H as <- <-. now split.
    + left. injection H as <- <-. split; [reflexivity|].
      exact (storageArgs_error _ _ _ _ _ E1).
  - intros H. destruct op; try discriminate; reflexivity.
  - intros rs. cbn [transformDataForReading].
    pose proof (transformAllForReading_length modelName rs) as Hl.
    destruct (transformAllForReading modelName rs) as [rs' lines]. now exists rs', lines.
  - reflexivity.
Qed.

End Interception.

Lemma filter_digits_all l : forallb is_digit l = true -> List.filter is_digit l = l.
Proof.
  induction l as [|c l IH]; [reflexivity|]. cbn [forallb List.filter].
  intros H. apply andb_true_iff in H as [-> H]. now rewrite IH.
Qed.

Lemma filter_digits_digits l : forallb is_digit (List.filter is_digit l) = true.
Proof.
  induction l as [|c l IH]; [reflexivity|]. cbn [List.filter].
  destruct (is_digit c) eqn:E; [|exact IH]. cbn [forallb]. now rewrite E.
Qed.

Lemma valid_shape phone :
  Utils.isValidPhoneNumber phone = true
  <-> exists rest, phone = js "+1" ++ rest /\ length rest = 10%nat
                   /\ forallb is_digit rest = true.
Proof.
  unfold Utils.isValidPhoneNumber. split.
  - intros H. apply andb_true_iff in H as [H Hd]. apply andb_true_iff in H as [Hs Hl].
    apply Nat.eqb_eq in Hl. exists (skipn 2 phone). split; [|auto].
    destruct phone as [|a [|b rest]]; try discriminate.
    cbn [startsWith js map list_ascii_of_string] in Hs.
    apply andb_true_iff in Hs as [Ha Hb]. apply andb_true_iff in Hb as [Hb _].
    apply Z.eqb_eq in Ha, Hb. cbn [skipn js map list_ascii_of_string app].
    now rewrite <- Ha, <- Hb.
  - intros (rest & -> & Hl & Hd). rewrite startsWith_app.
    change (skipn 2 (js "+1" ++ rest)) with rest. now rewrite Hl, Hd.
Qed.

Lemma format_valid rest :
  length rest = 10%nat -> forallb is_digit rest = true ->
  Utils.formatPhoneNumber (js "+1" ++ rest) = js "+1" ++ rest.
Proof.
  intros Hl Hd. unfold Utils.formatPhoneNumber.
  change (List.filter is_digit (js "+1" ++ rest)) with (49 :: List.filter is_digit rest).
  rewrite filter_digits_all by assumption. cbn [length]. rewrite Hl.
  change (11 =? 10)%nat with false. change (11 =? 11)%nat with true.
  cbn [andb startsWith js map list_ascii_of_string]. rewrite Z.eqb_refl.
  now destruct rest.
Qed.

(** X25. [formatPhoneNumber] of utils returns a number that
    [isValidPhoneNumber] accepts or the input unchanged; it is idempotent,
    leaves a valid number as it is, and puts +1 before ten digits. *)
Theorem formatPhoneNumber_normalizes (phone : list Z) :
  let formatted := Utils.formatPhoneNumber phone in
  (Utils.isValidPhoneNumber formatted = true \/ formatted = phone)
  /\ Utils.formatPhoneNumber formatted = formatted
  /\ (Utils.isValidPhoneNumber phone = true -> formatted = phone)
  /\ (length phone = 10%nat -> forallb is_digit phone = true ->
      formatted = js "+1" ++ phone).
Proof.
  intros formatted. subst formatted.
  pose proof (filter_digits_digits phone) as Hd.
  assert (Hcases :
    (exists rest, Utils.formatPhoneNumber phone = js "+1" ++ rest
                  /\ length rest = 10%nat /\ forallb is_digit rest = true)
    \/ Utils.formatPhoneNumber phone = phone).
  { unfold Utils.formatPhoneNumber.
    destruct (Nat.eqb_spec (length (List.filter is_digit phone)) 10) as [E10|_].
    - left. exists (List.filter is_digit phone). auto.
    - destruct (Nat.eqb_spec (length (List.filter is_digit phone)) 11) as [E11|_];
        [|now right]. cbn [andb].
      destruct (List.filter is_digit phone) as [|c cleaned]; [discriminate|].
      cbn [startsWith js map list_ascii_of_string].
      destruct (Z.eqb_spec (Z.of_nat (nat_of_ascii "1")) c) as [<-|_]; [|now right].
      left. exists cleaned. cbn [forallb] in Hd. apply andb_true_iff in Hd as [_ Hd].
      cbn [length] in E11. split; [now destruct cleaned|]. split; [lia|exact Hd]. }
  split; [|split; [|split]].
  - destruct Hcases as [(rest & -> & Hl & Hr)| ->]; [left|now right].
    apply valid_shape. eauto.
  - destruct Hcases as [(rest & -> & Hl & Hr)|E]; [now apply format_valid|].
    now rewrite !E.
  - intros Hv. destruct (proj1 (valid_shape phone) Hv) as (rest & -> & Hl & Hr).
    now apply format_valid.
  - intros Hl Hall. unfold Utils.formatPhoneNumber.
    rewrite filter_digits_all by assumption. now rewrite Hl.
Qed.




(** * The further properties at sample inputs *)

Lemma batch_round_trip_witness :
  exists sealed g',
    encryptBatch (map VStr three_messages) zero_key counting = (Return sealed, g')
    /\ length sealed = length three_messages
    /\ decryptBatch sealed zero_key = Return three_messages.
Proof.
  apply (batch_round_trip three_messages zero_key counting).
  - vm_compute. lia.
  - repeat constructor.
  - reflexivity.
Defined.

(** Twenty-six one-letter messages: encrypted together, refused together. *)
Lemma batch_ceilings_disagree_witness :
  exists sealed g',
    encryptBatch (map VStr (repeat (js "a") 26)) zero_key counting = (Return sealed, g')
    /\ length sealed = length (repeat (js "a") 26)
    /\ decryptBatch sealed zero_key
       = Throw (DecryptionError
                  (batch_message (length (repeat (js "a") 26)) BATCH_LIMITS_DECRYPTION)).
Proof.
  apply (batch_ceilings_disagree (repeat (js "a") 26) zero_key counting).
  - vm_compute. lia.
  - repeat constructor; discriminate.
  - reflexivity.
Defined.

(** The second of three items is the empty string: the first one was
    encrypted, its 28 bytes are drawn, and the batch throws. *)
Lemma encryptBatch_all_or_nothing_witness :
  encryptBatch [VStr (js "a"); VStr []; VStr (js "b")] zero_key counting
  = (Throw (EncryptionError "Invalid plaintext: must be a non-empty string"),
     after_calls 1 counting).
Proof.
  apply (proj2 (encryptBatch_all_or_nothing [VStr (js "a"); VStr []; VStr (js "b")]
                  zero_key counting ltac:(vm_compute; lia) eq_refl)
           [VStr (js "a")] (VStr []) [VStr (js "b")]); reflexivity.
Defined.

Lemma envelope_shape_witness :
  exists sealed,
    encrypt (VStr (js "Hello")) zero_key counting = (Return sealed, after_calls 1 counting)
    /\ length (iv sealed) = 16%nat
    /\ length (authTag sealed) = 24%nat
    /\ length (encrypted sealed) = (4 * ((length (utf8_encode (js "Hello")) + 2) / 3))%nat
    /\ forallb is_base64_char (encrypted sealed ++ iv sealed ++ authTag sealed) = true
    /\ length (base64_decode (iv sealed)) = IV_LENGTH
    /\ length (base64_decode (authTag sealed)) = TAG_LENGTH.
Proof.
  apply (envelope_shape (js "Hello") zero_key counting).
  - discriminate.
  - reflexivity.
Defined.

Lemma known_plaintext_reveals_the_key_witness :
  exists sealed g',
    encrypt (VStr (js "Hi")) ones_key counting = (Return sealed, g')
    /\ forall i p c n,
         utf8_encode (js "Hi") !! i = Some p ->
         base64_decode (encrypted sealed) !! i = Some c ->
         base64_decode (iv sealed) !! (i mod IV_LENGTH)%nat = Some n ->
         nth (i mod KEY_LENGTH) ones_key 0 = Z.lxor (Z.lxor c p) n mod 256.
Proof.
  apply (known_plaintext_reveals_the_key (js "Hi") ones_key counting).
  - discriminate.
  - reflexivity.
  - repeat constructor; unfold byte; lia.
Defined.

Lemma hash_batches_within_the_limit_witness :
  (exists ds,
      generateDeterministicHashBatch (UCD := ascii_tables)
        [VStr (js "a"); VStr (js "B")] = Return ds
      /\ Forall2 (fun data d => generateDeterministicHash (UCD := ascii_tables) data = Return d)
           [VStr (js "a"); VStr (js "B")] ds)
  /\ generateHashBatch [VStr (js "a"); VNull] None
     = Throw (JsError "Invalid data: must be a non-empty string").
Proof.
  split.
  - apply (proj1 (hash_batches_within_the_limit (UCD := ascii_tables)
                    [VStr (js "a"); VStr (js "B")] None ltac:(vm_compute; lia))).
    reflexivity.
  - apply (proj2 (hash_batches_within_the_limit (UCD := ascii_tables)
                    [VStr (js "a"); VNull] None ltac:(vm_compute; lia))).
    reflexivity.
Defined.

(** A look-up of one path that has expired leaves the entry of another. *)
Lemma cache_operations_are_local_witness :
  let m := fold_left (apply_op (Secrets := constant_store)) ten_inserts [] in
  Map_get "/k/1" (getCachedKey "/k/0" (1 + DEFAULT_CACHE_TTL + 1) m).2 = Map_get "/k/1" m.
Proof.
  intros m.
  apply (proj1 (cache_operations_are_local (Secrets := constant_store) m "/k/0" "/k/1"
                  ltac:(discriminate))).
Defined.

(** Ten paths are cached; the oldest is read and an eleventh path is
    inserted: the oldest is gone. *)
Lemma eviction_is_by_insertion_order_witness :
  let rest := map (fun p => (p, first_entry)) (tl (firstn 10 eleven_paths)) in
  Map_get "/k/0"
    (cacheKey "/k/10" sample_key 5 DEFAULT_CACHE_TTL
       (getCachedKey "/k/0" 2 (("/k/0"%string, first_entry) :: rest)).2) = None
  /\ length (cacheKey "/k/5" sample_key 5 DEFAULT_CACHE_TTL
               (("/k/0"%string, first_entry) :: rest)) = 9%nat.
Proof.
  intros rest.
  split.
  - apply (proj1 (eviction_is_by_insertion_order (Secrets := constant_store)
                    ten_inserts "/k/0" first_entry rest "/k/10" sample_key 5
                    DEFAULT_CACHE_TTL 2 eq_refl eq_refl
                    ltac:(discriminate) ltac:(discriminate))).
  - apply (proj1 (proj2 (eviction_is_by_insertion_order (Secrets := constant_store)
                    ten_inserts "/k/0" first_entry rest "/k/5" sample_key 5
                    DEFAULT_CACHE_TTL 2 eq_refl eq_refl
                    ltac:(discriminate) ltac:(discriminate)))).
    discriminate.
Defined.

Lemma john_is_stored :
  exists out lines,
    transformDataForStorage (UCD := ascii_tables) (Host := no_keys test_env) "User" john
    = (Return out, lines).
Proof.
  assert (Hm : exists configs, ENCRYPTED_FIELD_MAP !! "User"%string = Some configs)
    by (eexists; reflexivity).
  destruct Hm as [configs Hm]. unfold transformDataForStorage. rewrite Hm.
  apply storage_loop_returns.
  - apply all_columns_each. exact (registry_columns_distinct _ _ Hm).
  - injection Hm as <-. reflexivity.
Qed.

(** The role of a user is no column of a sensitive field: it goes through
    the write path as it is, and the plain name of the address is gone. *)
Lemma write_path_touches_its_columns_only_witness :
  exists out lines,
    transformDataForStorage (UCD := ascii_tables) (Host := no_keys test_env) "User" john
    = (Return out, lines)
    /\ out !! "role"%string = john !! "role"%string
    /\ out !! "email"%string = None.
Proof.
  destruct john_is_stored as (out & lines & E).
  exists out, lines. split; [exact E|].
  destruct (write_path_touches_its_columns_only (UCD := ascii_tables)
              (Host := no_keys test_env) "User" john out lines E) as (_ & Hframe & Hplain).
  split.
  - apply (Hframe _ "role"%string eq_refl). vm_compute.
    intros H. repeat (apply elem_of_cons in H as [H|H]; [discriminate|]). inversion H.
  - destruct (Hplain _ email_config eq_refl) as [Hgone|[Hp _]].
    + do 2 right. left.
    + exact Hgone.
    + vm_compute in Hp. discriminate.
Defined.

Lemma write_path_is_idempotent_witness :
  exists out lines,
    transformDataForStorage (UCD := ascii_tables) (Host := no_keys test_env) "User" john
    = (Return out, lines)
    /\ transformDataForStorage (UCD := ascii_tables) (Host := no_keys test_env) "User" out
       = (Return out, []).
Proof.
  destruct john_is_stored as (out & lines & E).
  exists out, lines. split; [exact E|].
  exact (write_path_is_idempotent (UCD := ascii_tables) (Host := no_keys test_env)
           "User" john out lines E).
Defined.

Lemma filled_columns_bypass_the_layer_witness :
  transformDataForStorage (UCD := ascii_tables) (Host := no_keys test_env) "User" registered
  = (Return registered, [])
  /\ (transformRecordForReading (Host := no_keys test_env) "User" registered).1
       !! "email"%string
     = Some (VStr john_email).
Proof.
  destruct (filled_columns_bypass_the_layer (UCD := ascii_tables) (Host := no_keys test_env)
              "User" _ registered eq_refl) as [Hwrite Hread].
  - intros config Hin.
    repeat (apply elem_of_cons in Hin as [->|Hin]; [reflexivity|]). inversion Hin.
  - split; [exact Hwrite|].
    apply (Hread email_config john_email eq_refl); [do 2 right; left|reflexivity|reflexivity].
Defined.

(** Outside mock mode, with no key to be had: the ciphertext comes back
    under the plain name, the columns stay, and the console has a line. *)
Lemma read_path_falls_back_and_keeps_the_columns_witness :
  let read := transformRecordForReading (Host := no_keys production_env) "User" stored_john in
  read.1 !! "email"%string = Some (VStr (js "c2VhbGVk"))
  /\ read.1 !! "email_encrypted"%string = Some (VStr (js "c2VhbGVk"))
  /\ read.1 !! "role"%string = stored_john !! "role"%string
  /\ read.2 = ["Failed to decrypt field email:"%string].
Proof.
  intros read. subst read.
  destruct (read_path_falls_back_and_keeps_the_columns (Host := no_keys production_env)
              "User" _ stored_john eq_refl) as (Hframe & Hcolumns & Hfield & _ & _).
  split; [|split; [|split]].
  - apply (Hfield email_config); [do 2 right; left|reflexivity].
  - apply (Hcolumns email_config). do 2 right. left.
  - apply (Hframe "role"%string). vm_compute.
    intros H. repeat (apply elem_of_cons in H as [H|H]; [discriminate|]). inversion H.
  - vm_compute. reflexivity.
Defined.

(** An entry cached at time 5 for 100 ms: found at 105, gone at 106. *)
Lemma cached_key_lives_for_its_ttl_witness :
  let cached := cacheKey "/k/0" sample_key 5 100 [] in
  getCachedKey "/k/0" 105 cached = (Some sample_key, cached)
  /\ (getCachedKey "/k/0" 106 cached).1 = None.
Proof.
  intros cached.
  destruct (cached_key_lives_for_its_ttl (Secrets := constant_store) [] "/k/0" sample_key
              5 100 105) as [Hfound _].
  destruct (cached_key_lives_for_its_ttl (Secrets := constant_store) [] "/k/0" sample_key
              5 100 106) as [_ Hgone].
  split; [apply Hfound; lia|].
  destruct Hgone as (rest & E & _); [lia|].
  change (getCachedKey "/k/0" 106 cached = (None, rest)) in E. now rewrite E.
Defined.

(** The first call asks the store and caches the key; the second, four
    minutes later, is answered from the cache. *)
Lemma retrieval_goes_through_the_cache_witness :
  exists m',
    getEncryptionKey (Secrets := constant_store) "/k/0" 0 1 [] = (Return sample_key, m')
    /\ getEncryptionKey (Secrets := constant_store) "/k/0" 240000 240001 m'
       = (Return sample_key, m').
Proof.
  destruct (retrieval_goes_through_the_cache (Secrets := constant_store) [] "/k/0" 0 1)
    as (_ & _ & Hmiss).
  destruct (Hmiss sample_key eq_refl eq_refl) as (m' & E & Hnext).
  exists m'. split; [exact E|]. apply Hnext. vm_compute. discriminate.
Defined.

(** With a region and credentials in the environment the validation
    accepts and the client gets that region; with nothing it throws. *)
Lemma validated_configuration_is_the_one_used_witness :
  (validateSecretsManagerConfig full_env None = Return true
   /\ client_region (createSecretsManagerClient full_env None) = "us-west-2"%string)
  /\ (validateSecretsManagerConfig bare_env None
      = Throw (KeyRetrievalError "AWS region is required for Secrets Manager access")
      /\ client_region (createSecretsManagerClient bare_env None) = "us-east-1"%string).
Proof.
  split.
  - split; [reflexivity|].
    destruct (validated_configuration_is_the_one_used full_env None) as (H & _ & _).
    destruct (H eq_refl) as (E & _ & _). apply (inj Some). symmetry. exact E.
  - now apply (proj1 (proj2 (validated_configuration_is_the_one_used bare_env None))).
Defined.

(** The secret of the test of a key of the wrong length: its first two
    characters are hexadecimal digits, the third is not, so it decodes to one
    byte. *)
Lemma retrieval_fails_with_KeyRetrievalError_only_witness :
  retrieveKey (Manager := answering_text short_secret_text short_secret) None
    "/app/encryption/names-key"
  = Throw (KeyRetrievalError
             "Failed to retrieve encryption key from /app/encryption/names-key").
Proof.
  eapply (proj2 (proj2 (retrieval_fails_with_KeyRetrievalError_only
                          (Manager := answering_text short_secret_text short_secret) None
                          "/app/encryption/names-key" 0 0 []))).
  - reflexivity.
  - reflexivity.
  - reflexivity.
  - reflexivity.
  - discriminate.
  - vm_compute. discriminate.
Defined.

Lemma retrieved_key_is_valid_witness :
  exists ek,
    retrieveKey (Manager := answering sevens_secret) None "/app/encryption/email-key"
    = Return ek
    /\ key ek = repeat 7 32
    /\ keyId ek = "/app/encryption/email-key"%string
    /\ version ek = 1.
Proof.
  destruct (proj2 (retrieved_key_is_valid (Manager := answering sevens_secret) None
                     "/app/encryption/email-key")
              {| SecretString := Some (js "{}"); Name := None |} 123 (js "}")
              sevens_secret (repeat 7 32) eq_refl eq_refl eq_refl eq_refl eq_refl)
    as (ek & E & Hkey & Hid & Hversion & _).
  - repeat constructor; unfold byte; lia.
  - exists ek. split; [exact E|]. split; [exact Hkey|].
    split; [now apply Hid|]. apply Hversion. now right.
Defined.

(** The numbers of the tests of utils. *)
Lemma formatPhoneNumber_normalizes_witness :
  Utils.formatPhoneNumber (js "5551234567") = js "+15551234567"
  /\ Utils.formatPhoneNumber (js "+15551234567") = js "+15551234567".
Proof.
  split.
  - apply (proj2 (proj2 (proj2 (formatPhoneNumber_normalizes (js "5551234567"))))).
    + reflexivity.
    + reflexivity.
  - apply (proj1 (proj2 (proj2 (formatPhoneNumber_normalizes (js "+15551234567"))))).
    reflexivity.
Defined.


(** The mock at the address of John, and at a string it leaves alone. *)
Lemma mock_round_trip_witness :
  (exists c, mockEncrypt (VStr john_email) = Return c
             /\ mockDecrypt (VStr c) = Return john_email)
  /\ mockDecrypt (VStr (js "plain")) = Return (js "plain").
Proof.
  destruct mock_round_trip as (Hback & _ & _ & Hpass).
  split; [apply Hback; reflexivity|apply Hpass; reflexivity].
Defined.

(** CAF and a capital E with acute after a space, against caf and a small e
    with acute before one. *)
Lemma table_case_variants_hash_alike_witness :
  exists digest,
    generateDeterministicHash (UCD := latin1_tables) (VStr [0x20; 0x43; 0x41; 0x46; 0xC9])
    = Return digest
    /\ generateDeterministicHash (UCD := latin1_tables) (VStr [0x63; 0x61; 0x66; 0xE9; 0x20])
       = Return digest
    /\ createUniqueConstraintHash (UCD := latin1_tables) (VStr [0x20; 0x43; 0x41; 0x46; 0xC9])
       = createUniqueConstraintHash (UCD := latin1_tables) (VStr [0x63; 0x61; 0x66; 0xE9; 0x20]).
Proof.
  apply (proj1 (table_case_variants_hash_alike (UCD := latin1_tables))).
  - discriminate.
  - discriminate.
  - exists [0x20], [0x43; 0x41; 0x46; 0xC9], [], [], [0x63; 0x61; 0x66; 0xE9], [0x20].
    split; [reflexivity|]. split; [reflexivity|].
    split; [repeat constructor|]. split; [constructor|].
    split; [constructor|]. split; [repeat constructor|].
    repeat (constructor;
            [right; repeat split; first [reflexivity | discriminate]|]).
    constructor.
Defined.
